(** * superintent-remote: session relay and supervision engine

    A shallow embedding of the three modules that carry the relay logic:

    - [Terminal]        (terminal.ts): the pseudo-terminal owner, the
                        scrollback buffer and the set of attached clients;
    - [SshServer]       (ssh-server.ts): connection cap, per-IP failure
                        tracking and the authentication handler;
    - [ProcessManager]  (process-manager.ts): the watchdog restart loop.

    Module-level [let]/[const] bindings of the TypeScript sources become
    fields of an explicit state record; calls into collaborators (client
    sinks, the pty, ssh2, the console) are recorded in an effect log, in
    program order.  JavaScript numbers are integers here ([Z]): every
    quantity involved is a byte count, a counter or a millisecond stamp. *)

From Stdlib Require Import ZArith.
From Stdlib Require QArith Qround.
From Stdlib.Strings Require Import Byte.
From stdpp Require Import gmap strings list fin_maps.

Local Open Scope Z_scope.

(* ===================================================================== *)
(** ** terminal.ts *)
(* ===================================================================== *)

Module Terminal.

(** A [Buffer] is its sequence of bytes; [buf.length] is [blen]. *)
Definition Buffer : Type := list byte.

#[global] Instance byte_eq_dec : EqDecision byte := Byte.byte_eq_dec.

#[global] Instance Buffer_eq_dec : EqDecision Buffer :=
  list_eq_dec (A := byte).

Definition blen (buf : Buffer) : Z := Z.of_nat (length buf).

(** [Buffer.concat] *)
Definition Buffer_concat (chunks : list Buffer) : Buffer := concat chunks.

(** [TerminalClient] objects are compared by reference by the [Set];
    a reference is a number. *)
Definition TerminalClient : Type := nat.

(** The subprocess object returned by [Bun.spawn].  [proc.terminal] is the
    pty of that very process, so a terminal handle is named by the
    process id.  [proc_exited] says whether [proc.exited] has resolved; it
    is flipped by the operating system, never by terminal.ts. *)
Record Proc : Type := mkProc {
  proc_id : nat;
  proc_killed : bool;
  proc_exited : bool
}.

Definition Terminal : Type := nat.

(** Calls that leave the module, in program order.  Mutations of the
    [clients] set are logged as well, so that their position relative to
    the writes can be stated. *)
Inductive Effect : Type :=
| ClientsAdd (c : TerminalClient)
| ClientsDelete (c : TerminalClient)
| ClientWrite (c : TerminalClient) (data : Buffer)
| TerminalWrite (t : Terminal) (data : Buffer)
| SpawnSync (argv : list string)
| Spawn (argv : list string) (p : nat)
| SetTimeoutLaunch (ms : Z)
| Kill (p : nat).

(** The module-level bindings. *)
Record state : Type := mkState {
  terminal : option Terminal;
  shellProc : option Proc;
  clients : list TerminalClient;
  scrollbackChunks : list Buffer;
  scrollbackSize : Z;
  tmuxSession : option string
}.

Definition initial : state :=
  {| terminal := None; shellProc := None; clients := [];
     scrollbackChunks := []; scrollbackSize := 0; tmuxSession := None |}.

Definition MAX_SCROLLBACK : Z := 512 * 1024.
Definition CLAUDE_LAUNCH_DELAY_MS : Z := 500.

(** The [while] loop of [appendScrollback]: each round shifts the oldest
    chunk off the front, so the loop is a recursion on the array.  On an
    empty array the guard [length > 1] is false and the loop is left. *)
Fixpoint trimScrollback (chunks : list Buffer) (size : Z) : list Buffer * Z :=
  match chunks with
  | [] => ([], size)
  | removed :: rest =>
      if (size >? MAX_SCROLLBACK) && (Z.of_nat (length chunks) >? 1)
      then trimScrollback rest (size - blen removed)
      else (chunks, size)
  end.

Definition appendScrollback (data : Buffer) (s : state) : state :=
  let pushed := scrollbackChunks s ++ [data] in
  let size := scrollbackSize s + blen data in
  let '(chunks, size') := trimScrollback pushed size in
  {| terminal := terminal s; shellProc := shellProc s; clients := clients s;
     scrollbackChunks := chunks; scrollbackSize := size';
     tmuxSession := tmuxSession s |}.

(** A run of appends, oldest chunk first. *)
Definition appendAll (ds : list Buffer) (s : state) : state :=
  fold_left (λ s d, appendScrollback d s) ds s.

Definition getScrollbackBuffer (s : state) : Buffer :=
  Buffer_concat (scrollbackChunks s).

(** [if (terminal) terminal.write(data)] *)
Definition writeToTerminal (data : Buffer) (s : state) : state * list Effect :=
  match terminal s with
  | Some t => (s, [TerminalWrite t data])
  | None => (s, [])
  end.

(** [Set.prototype.add]: insertion order, no duplicates. *)
Definition Set_add (c : TerminalClient) (cs : list TerminalClient)
  : list TerminalClient :=
  if bool_decide (c ∈ cs) then cs else cs ++ [c].

(** [Set.prototype.delete] *)
Definition Set_delete (c : TerminalClient) (cs : list TerminalClient)
  : list TerminalClient :=
  filter (λ x, x ≠ c) cs.

Definition with_clients (cs : list TerminalClient) (s : state) : state :=
  {| terminal := terminal s; shellProc := shellProc s; clients := cs;
     scrollbackChunks := scrollbackChunks s;
     scrollbackSize := scrollbackSize s; tmuxSession := tmuxSession s |}.

Definition addClient (c : TerminalClient) (s : state) : state * list Effect :=
  let s1 := with_clients (Set_add c (clients s)) s in
  (s1,
   ClientsAdd c ::
   (if scrollbackSize s1 >? 0
    then [ClientWrite c (getScrollbackBuffer s1)]
    else [])).

Definition removeClient (c : TerminalClient) (s : state) : state * list Effect :=
  (with_clients (Set_delete c (clients s)) s, [ClientsDelete c]).

(** The [data] callback handed to [Bun.spawn] by both [spawnTerminal] and
    [attachTerminal]. *)
Definition onData (data : Buffer) (s : state) : state * list Effect :=
  let s1 := appendScrollback data s in
  (s1, map (λ c, ClientWrite c data) (clients s1)).

(** JavaScript truthiness of a [string | null]. *)
Definition truthy (o : option string) : bool :=
  match o with
  | Some str => negb (String.eqb str "")
  | None => false
  end.

(** [scrollbackChunks.length = 0; scrollbackSize = 0] *)
Definition clearScrollback (s : state) : state :=
  {| terminal := terminal s; shellProc := shellProc s; clients := clients s;
     scrollbackChunks := []; scrollbackSize := 0;
     tmuxSession := tmuxSession s |}.

(** What the tail of [spawnTerminal] and of [attachTerminal] assigns. *)
Definition install (proc : Proc) (sessionName : string) (s : state) : state :=
  clearScrollback
    {| terminal := Some (proc_id proc); shellProc := Some proc;
       clients := clients s; scrollbackChunks := scrollbackChunks s;
       scrollbackSize := scrollbackSize s;
       tmuxSession := Some sessionName |}.

(** [spawnTerminal].  [tmux] is what [findBinary "tmux"] returns and
    [proc] the object [Bun.spawn] hands back; [None] is the thrown
    [Error]. *)
Definition spawnTerminal (tmux : option string) (proc : Proc)
    (sessionName : string) (s : state) : option (state * list Effect) :=
  match tmux with
  | Some bin =>
      if truthy tmux then
        Some (install proc sessionName s,
              [SpawnSync [bin; "kill-session"; "-t"; sessionName];
               Spawn [bin; "new-session"; "-s"; sessionName] (proc_id proc);
               SetTimeoutLaunch CLAUDE_LAUNCH_DELAY_MS])
      else None
  | None => None
  end.

Definition attachTerminal (tmux : option string) (proc : Proc)
    (sessionName : string) (s : state) : option (state * list Effect) :=
  match tmux with
  | Some bin =>
      if truthy tmux then
        Some (install proc sessionName s,
              [Spawn [bin; "attach-session"; "-t"; sessionName] (proc_id proc)])
      else None
  | None => None
  end.

Definition getProc (s : state) : option Proc := shellProc s.

Definition killTerminal (tmux : option string) (keepSession : bool)
    (s : state) : state * list Effect :=
  let e1 :=
    if keepSession then []
    else match tmux, tmuxSession s with
         | Some bin, Some name =>
             if truthy tmux && truthy (tmuxSession s)
             then [SpawnSync [bin; "kill-session"; "-t"; name]]
             else []
         | _, _ => []
         end in
  let e2 :=
    match shellProc s with
    | Some p => if negb (proc_killed p) then [Kill (proc_id p)] else []
    | None => []
    end in
  ({| terminal := None; shellProc := None; clients := clients s;
      scrollbackChunks := scrollbackChunks s;
      scrollbackSize := scrollbackSize s; tmuxSession := tmuxSession s |},
   e1 ++ e2).

(** The operating system reaps the child: [proc.exited] resolves.  No
    code of terminal.ts runs; only the shared subprocess object changes. *)
Definition procExits (s : state) : state :=
  {| terminal := terminal s;
     shellProc :=
       match shellProc s with
       | Some p => Some (mkProc (proc_id p) (proc_killed p) true)
       | None => None
       end;
     clients := clients s; scrollbackChunks := scrollbackChunks s;
     scrollbackSize := scrollbackSize s; tmuxSession := tmuxSession s |}.

(** *** Reading the log *)

(** Everything written to sink [c], in order. *)
Fixpoint received (c : TerminalClient) (log : list Effect) : Buffer :=
  match log with
  | [] => []
  | ClientWrite c' data :: rest =>
      if bool_decide (c' = c) then data ++ received c rest else received c rest
  | _ :: rest => received c rest
  end.

(** Run a burst of output chunks through the [data] callback. *)
Fixpoint onDataAll (ds : list Buffer) (s : state) : state * list Effect :=
  match ds with
  | [] => (s, [])
  | d :: rest =>
      let '(s1, l1) := onData d s in
      let '(s2, l2) := onDataAll rest s1 in
      (s2, l1 ++ l2)
  end.

(** The bookkeeping invariant of the scrollback: the running total is the
    number of bytes actually held. *)
Definition size_ok (s : state) : Prop :=
  scrollbackSize s = blen (Buffer_concat (scrollbackChunks s)).

(** *** The session lifecycle, read off the module bindings

    terminal.ts keeps no lifecycle variable.  What can be observed is
    whether [terminal]/[shellProc] are set and whether the process they
    name has exited.  The two bindings are assigned together; a state with
    only one of them set would be a spawn caught half-way ([Starting]),
    which lies strictly inside the synchronous [spawnTerminal] or
    [attachTerminal] and is never seen between events. *)
Inductive SessionState : Type := Absent | Starting | Running | Exited.

Definition sessionState (s : state) : SessionState :=
  match terminal s, shellProc s with
  | None, None => Absent
  | Some _, Some p => if proc_exited p then Exited else Running
  | _, _ => Starting
  end.

(** *** Two sentences of the specification, worded as it words them *)

(** "registerSink writes the full scrollback (exactly the N bytes produced
    so far, once), and only then adds the sink to the broadcast set":
    [ds] is the output produced since the process was installed. *)
Definition replay_then_join (ds : list Buffer) (c : TerminalClient)
    (s : state) : Prop :=
  (addClient c (onDataAll ds s).1).2 =
    [ClientWrite c (Buffer_concat ds); ClientsAdd c].

(** "write forwards to the process handle iff the session is Running and
    is a silent no-op in every other state". *)
Definition write_iff_running (data : Buffer) (s : state) : Prop :=
  (writeToTerminal data s).1 = s ∧
  ((∃ t, (writeToTerminal data s).2 = [TerminalWrite t data])
     ↔ sessionState s = Running) ∧
  (sessionState s ≠ Running → (writeToTerminal data s).2 = []).

(** *** [resizeTerminal]

    A JavaScript number as far as [Math.floor], [Math.min] and [Math.max]
    tell numbers apart: a rational, an infinity, or NaN. *)
Inductive JsNumber : Type :=
| Finite (q : QArith_base.Q)
| PosInfinity
| NegInfinity
| NaN.

Definition ofZ (z : Z) : JsNumber := Finite (QArith_base.inject_Z z).

Definition Math_floor (x : JsNumber) : JsNumber :=
  match x with
  | Finite q => ofZ (Qround.Qfloor q)
  | other => other
  end.

Definition Math_min (a b : JsNumber) : JsNumber :=
  match a, b with
  | NaN, _ | _, NaN => NaN
  | NegInfinity, _ | _, NegInfinity => NegInfinity
  | PosInfinity, other | other, PosInfinity => other
  | Finite p, Finite q => if QArith_base.Qle_bool p q then a else b
  end.

Definition Math_max (a b : JsNumber) : JsNumber :=
  match a, b with
  | NaN, _ | _, NaN => NaN
  | PosInfinity, _ | _, PosInfinity => PosInfinity
  | NegInfinity, other | other, NegInfinity => other
  | Finite p, Finite q => if QArith_base.Qle_bool p q then b else a
  end.

Definition MIN_COLS : Z := 1.
Definition MAX_COLS : Z := 500.
Definition MIN_ROWS : Z := 1.
Definition MAX_ROWS : Z := 200.

(** The call [terminal.resize(clampedCols, clampedRows)], if one is made. *)
Definition resizeTerminal (cols rows : JsNumber) (s : state)
  : option (Terminal * JsNumber * JsNumber) :=
  match terminal s with
  | None => None
  | Some t =>
      let clampedCols :=
        Math_max (ofZ MIN_COLS) (Math_min (ofZ MAX_COLS) (Math_floor cols)) in
      let clampedRows :=
        Math_max (ofZ MIN_ROWS) (Math_min (ofZ MAX_ROWS) (Math_floor rows)) in
      Some (t, clampedCols, clampedRows)
  end.

(** *** Everything that can happen to the module *)

Inductive Op : Type :=
| OpData (data : Buffer)
| OpAddClient (c : TerminalClient)
| OpRemoveClient (c : TerminalClient)
| OpWrite (data : Buffer)
| OpSpawn (tmux : option string) (proc : Proc) (sessionName : string)
| OpAttach (tmux : option string) (proc : Proc) (sessionName : string)
| OpKill (tmux : option string) (keepSession : bool)
| OpProcExits.

(** One operation.  A spawn or attach that throws does so before it
    assigns anything, and leaves the bindings as they were. *)
Definition apply (op : Op) (s : state) : state * list Effect :=
  match op with
  | OpData data => onData data s
  | OpAddClient c => addClient c s
  | OpRemoveClient c => removeClient c s
  | OpWrite data => writeToTerminal data s
  | OpSpawn tmux proc sessionName =>
      default (s, []) (spawnTerminal tmux proc sessionName s)
  | OpAttach tmux proc sessionName =>
      default (s, []) (attachTerminal tmux proc sessionName s)
  | OpKill tmux keepSession => killTerminal tmux keepSession s
  | OpProcExits => (procExits s, [])
  end.

Fixpoint applyAll (ops : list Op) (s : state) : state * list Effect :=
  match ops with
  | [] => (s, [])
  | op :: rest =>
      let '(s1, l1) := apply op s in
      let '(s2, l2) := applyAll rest s1 in
      (s2, l1 ++ l2)
  end.

(** What every reachable state satisfies. *)
Definition sound (s : state) : Prop :=
  size_ok s ∧
  (scrollbackSize s ≤ MAX_SCROLLBACK ∨ length (scrollbackChunks s) = 1%nat) ∧
  NoDup (clients s) ∧
  (terminal s = None ↔ shellProc s = None).

End Terminal.

(* ===================================================================== *)
(** ** ssh-server.ts *)
(* ===================================================================== *)

Module SshServer.

Definition MAX_AUTH_FAILURES : Z := 5.
Definition AUTH_LOCKOUT_MS : Z := 60000.
Definition DEFAULT_MAX_CONNECTIONS : Z := 10.
Definition DEFAULT_IDLE_TIMEOUT_MS : Z := 30 * 60 * 1000.

(** [SSHServerOptions], without the listening address. *)
Record SSHServerOptions : Type := mkOptions {
  opt_password : option string;          (* null = no auth *)
  opt_maxConnections : option Z;
  opt_idleTimeoutMs : option Z
}.

Definition maxConnections (opts : SSHServerOptions) : Z :=
  default DEFAULT_MAX_CONNECTIONS (opt_maxConnections opts).

Definition idleTimeoutMs (opts : SSHServerOptions) : Z :=
  default DEFAULT_IDLE_TIMEOUT_MS (opt_idleTimeoutMs opts).

(** *** Per-IP failure tracking *)

Record AuthRecord : Type := mkRecord { count : Z; lockedUntil : Z }.

(** [{ count: 0, lockedUntil: 0 }] *)
Definition zeroRecord : AuthRecord := mkRecord 0 0.

(** [now > record.lockedUntil && record.lockedUntil > 0] *)
Definition expired (now : Z) (record : AuthRecord) : bool :=
  (now >? lockedUntil record) && (lockedUntil record >? 0).

(** [recordAuthFailure]; [now] is its reading of [Date.now()].  The
    record fetched from the map is mutated in place and then stored back
    under the same key on both paths, so the map after the call holds
    the mutated record. *)
Definition recordAuthFailure (ip : string) (now : Z)
    (authFailures : gmap string AuthRecord) : bool * gmap string AuthRecord :=
  let record := default zeroRecord (authFailures !! ip) in
  let record := if expired now record then zeroRecord else record in
  let record := mkRecord (count record + 1) (lockedUntil record) in
  if count record >=? MAX_AUTH_FAILURES
  then (true,
        <[ip := mkRecord (count record) (now + AUTH_LOCKOUT_MS)]> authFailures)
  else (false, <[ip := record]> authFailures).

(** [isLockedOut]; [now] is its reading of [Date.now()]. *)
Definition isLockedOut (ip : string) (now : Z)
    (authFailures : gmap string AuthRecord) : bool * gmap string AuthRecord :=
  match authFailures !! ip with
  | None => (false, authFailures)
  | Some record =>
      if expired now record
      then (false, delete ip authFailures)
      else (count record >=? MAX_AUTH_FAILURES, authFailures)
  end.

Definition clearAuthFailures (ip : string)
    (authFailures : gmap string AuthRecord) : gmap string AuthRecord :=
  delete ip authFailures.

(** The failure count a source stands at while no lockout is pending;
    a source without a record stands at 0. *)
Definition stands_at (authFailures : gmap string AuthRecord) (ip : string)
    (k : Z) : Prop :=
  default zeroRecord (authFailures !! ip) = mkRecord k 0.

(** *** The authentication handler *)

(** A JavaScript string is held as its UTF-8 bytes, so [Buffer.from] only
    changes its type. *)
Definition Buffer_from (str : string) : Terminal.Buffer :=
  String.list_byte_of_string str.

(** [crypto.timingSafeEqual]: a [RangeError] ([None]) on buffers of
    different byte length, bytewise equality otherwise. *)
Definition timingSafeEqual (a b : Terminal.Buffer) : option bool :=
  if Terminal.blen a =? Terminal.blen b
  then Some (bool_decide (a = b))
  else None.

(** The fields of ssh2's [AuthContext] that the handler reads.
    [password] is meaningful for the "password" method only. *)
Record AuthContext : Type := mkCtx { method : string; password : string }.

Definition ConnId : Type := nat.

(** The lines handed to [log]. *)
Inductive LogMessage : Type :=
| ConnectionRejected (limit : Z) (clientIp : string)
| ConnectionOpened (clientIp : string) (active : Z)
| IdleTimeout (clientIp : string) (ms : Z)
| AuthAcceptedNoAuth (clientIp : string)
| AuthRejectedLockedOut (clientIp : string)
| AuthAccepted (clientIp : string)
| AuthFailed (clientIp : string) (locked : bool)
| ConnectionClosed (clientIp : string) (active : Z).

(** Calls that leave the module, in program order. *)
Inductive Effect : Type :=
| Log (msg : LogMessage)
| CtxAccept
| CtxReject (methods : list string)
| CallTimingSafeEqual (a b : Terminal.Buffer)
| RangeError
| ClientEnd (id : ConnId)
| Hub (e : Terminal.Effect).

(** The body of [client.on("authentication", ...)].  [nowCheck] is the
    clock as read inside [isLockedOut], [nowFail] as read inside
    [recordAuthFailure]. *)
Definition onAuthentication (expectedPassword : option string)
    (clientIp : string) (ctx : AuthContext) (nowCheck nowFail : Z)
    (authFailures : gmap string AuthRecord)
  : gmap string AuthRecord * list Effect :=
  match expectedPassword with
  | None =>
      (authFailures, [Log (AuthAcceptedNoAuth clientIp); CtxAccept])
  | Some expectedPassword =>
      let '(locked, authFailures) := isLockedOut clientIp nowCheck authFailures in
      if locked then
        (authFailures,
         [Log (AuthRejectedLockedOut clientIp); CtxReject ["password"]])
      else if String.eqb (method ctx) "password" then
        let input := Buffer_from (password ctx) in
        let expected := Buffer_from expectedPassword in
        let fail (before : list Effect) :=
          let '(locked, authFailures) :=
            recordAuthFailure clientIp nowFail authFailures in
          (authFailures,
           before ++ [Log (AuthFailed clientIp locked); CtxReject ["password"]]) in
        if Terminal.blen input =? Terminal.blen expected then
          match timingSafeEqual input expected with
          | Some true =>
              (clearAuthFailures clientIp authFailures,
               [CallTimingSafeEqual input expected;
                Log (AuthAccepted clientIp); CtxAccept])
          | Some false => fail [CallTimingSafeEqual input expected]
          | None =>
              (authFailures, [CallTimingSafeEqual input expected; RangeError])
          end
        else fail []
      else
        (authFailures, [CtxReject ["password"]])
  end.

(** *** The verdict of one attempt

    The handler answers ssh2 with [ctx.accept()] or [ctx.reject(...)];
    whether a rejection is a lockout shows in the line it logs: "Auth
    rejected (locked out)", or "Auth failed ... (locked out for 60s)". *)
Inductive Outcome : Type := Accept | Reject | RejectLockedOut.

Definition is_accept (e : Effect) : bool :=
  match e with CtxAccept => true | _ => false end.

Definition is_reject (e : Effect) : bool :=
  match e with CtxReject _ => true | _ => false end.

Definition is_lockout_line (e : Effect) : bool :=
  match e with
  | Log (AuthRejectedLockedOut _) => true
  | Log (AuthFailed _ true) => true
  | _ => false
  end.

Definition is_compare (e : Effect) : bool :=
  match e with CallTimingSafeEqual _ _ => true | _ => false end.

Definition is_throw (e : Effect) : bool :=
  match e with RangeError => true | _ => false end.

Definition verdict (log : list Effect) : option Outcome :=
  if existsb is_accept log then Some Accept
  else if existsb is_reject log then
    if existsb is_lockout_line log then Some RejectLockedOut else Some Reject
  else None.

(** A password attempt: the credential and the two clock readings. *)
Record Attempt : Type := mkAttempt {
  supplied : string;
  nowCheck : Z;
  nowFail : Z
}.

Definition tryPassword (expectedPassword : option string) (clientIp : string)
    (a : Attempt) (authFailures : gmap string AuthRecord)
  : gmap string AuthRecord * list Effect :=
  onAuthentication expectedPassword clientIp
    (mkCtx "password" (supplied a)) (nowCheck a) (nowFail a) authFailures.

(** Successive password attempts from one address; the verdicts in
    order, and the map they leave. *)
Fixpoint tryPasswords (expectedPassword : option string) (clientIp : string)
    (attempts : list Attempt) (authFailures : gmap string AuthRecord)
  : list (option Outcome) * gmap string AuthRecord :=
  match attempts with
  | [] => ([], authFailures)
  | a :: rest =>
      let '(authFailures, log) :=
        tryPassword expectedPassword clientIp a authFailures in
      let '(vs, authFailures) :=
        tryPasswords expectedPassword clientIp rest authFailures in
      (verdict log :: vs, authFailures)
  end.

(** *** The server: connection bookkeeping *)

(** What the closure of one accepted connection holds: [clientIp], and
    whether ssh2 has emitted "ready" (it does so once an authentication
    attempt was accepted), which is when the session and shell handlers
    get installed. *)
Record Conn : Type := mkConn { clientIp : string; ready : bool }.

(** [handlers] holds the connections on which the handlers were
    installed, i.e. those that passed the limit check.  ssh2 never
    removes a listener, so an entry stays after the connection is gone. *)
Record server : Type := mkServer {
  activeConnections : Z;
  authFailures : gmap string AuthRecord;
  handlers : gmap ConnId Conn;
  hub : Terminal.state
}.

Definition listening (hub : Terminal.state) : server :=
  {| activeConnections := 0; authFailures := ∅; handlers := ∅; hub := hub |}.

(** Events delivered by ssh2. *)
Inductive Event : Type :=
| EConnection (id : ConnId) (remoteAddress : option string)
| EAuthentication (id : ConnId) (ctx : AuthContext) (nowCheck nowFail : Z)
| EShell (id : ConnId) (termClient : Terminal.TerminalClient)
| EStreamData (id : ConnId) (data : Terminal.Buffer)
| EStreamClose (id : ConnId) (termClient : Terminal.TerminalClient)
| EStreamError (id : ConnId) (termClient : Terminal.TerminalClient)
| EIdleTimer (id : ConnId)
| EClose (id : ConnId)
| EError (id : ConnId).

(** The connection callback given to [new Server]. *)
Definition onConnection (opts : SSHServerOptions) (id : ConnId)
    (remoteAddress : option string) (sv : server) : server * list Effect :=
  let clientIp := default "unknown" remoteAddress in
  if activeConnections sv >=? maxConnections opts then
    (sv, [Log (ConnectionRejected (maxConnections opts) clientIp);
          ClientEnd id])
  else
    let active := activeConnections sv + 1 in
    ({| activeConnections := active; authFailures := authFailures sv;
        handlers := <[id := mkConn clientIp false]> (handlers sv);
        hub := hub sv |},
     [Log (ConnectionOpened clientIp active)]).

(** [client.on("close", ...)] *)
Definition onClose (c : Conn) (sv : server) : server * list Effect :=
  let active := activeConnections sv - 1 in
  ({| activeConnections := active; authFailures := authFailures sv;
      handlers := handlers sv; hub := hub sv |},
   [Log (ConnectionClosed (clientIp c) active)]).

(** [client.on("error", ...)] *)
Definition onError (c : Conn) (sv : server) : server * list Effect :=
  ({| activeConnections := activeConnections sv - 1;
      authFailures := authFailures sv;
      handlers := handlers sv; hub := hub sv |}, []).

Definition with_hub (h : Terminal.state * list Terminal.Effect) (sv : server)
  : server * list Effect :=
  ({| activeConnections := activeConnections sv;
      authFailures := authFailures sv;
      handlers := handlers sv; hub := h.1 |}, map Hub h.2).

(** One event.  An event for a connection that holds no handlers (it was
    turned away at the limit) runs no code of the server.  The idle timer
    is armed and re-armed by the handlers; when it fires is up to the
    clock, so its expiry is an event of its own and the timer handle is
    not kept in the state. *)
Definition step (opts : SSHServerOptions) (ev : Event) (sv : server)
  : server * list Effect :=
  match ev with
  | EConnection id remoteAddress => onConnection opts id remoteAddress sv
  | EAuthentication id ctx nowCheck nowFail =>
      match handlers sv !! id with
      | Some c =>
          let '(failures, log) :=
            onAuthentication (opt_password opts) (clientIp c) ctx
              nowCheck nowFail (authFailures sv) in
          ({| activeConnections := activeConnections sv;
              authFailures := failures;
              handlers :=
                if existsb is_accept log
                then <[id := mkConn (clientIp c) true]> (handlers sv)
                else handlers sv;
              hub := hub sv |}, log)
      | None => (sv, [])
      end
  | EShell id termClient =>
      match handlers sv !! id with
      | Some c =>
          if ready c then with_hub (Terminal.addClient termClient (hub sv)) sv
          else (sv, [])
      | None => (sv, [])
      end
  | EStreamData id data =>
      match handlers sv !! id with
      | Some c =>
          if ready c then with_hub (Terminal.writeToTerminal data (hub sv)) sv
          else (sv, [])
      | None => (sv, [])
      end
  | EStreamClose id termClient | EStreamError id termClient =>
      match handlers sv !! id with
      | Some c =>
          if ready c
          then with_hub (Terminal.removeClient termClient (hub sv)) sv
          else (sv, [])
      | None => (sv, [])
      end
  | EIdleTimer id =>
      match handlers sv !! id with
      | Some c => (sv, [Log (IdleTimeout (clientIp c) (idleTimeoutMs opts));
                        ClientEnd id])
      | None => (sv, [])
      end
  | EClose id =>
      match handlers sv !! id with
      | Some c => onClose c sv
      | None => (sv, [])
      end
  | EError id =>
      match handlers sv !! id with
      | Some c => onError c sv
      | None => (sv, [])
      end
  end.

Fixpoint run (opts : SSHServerOptions) (evs : list Event) (sv : server)
  : server * list Effect :=
  match evs with
  | [] => (sv, [])
  | ev :: rest =>
      let '(sv1, l1) := step opts ev sv in
      let '(sv2, l2) := run opts rest sv1 in
      (sv2, l1 ++ l2)
  end.

(** Whether a run of the connection callback turned the peer away:
    it called [client.end()]. *)
Definition is_end (e : Effect) : bool :=
  match e with ClientEnd _ => true | _ => false end.

Definition refused (log : list Effect) : bool := existsb is_end log.

(** Connections that are open on the wire and hold handlers: opened by
    an [EConnection] that was let in and not yet closed by [EClose]. *)
Fixpoint openAdmitted (opts : SSHServerOptions) (evs : list Event)
    (sv : server) (open : gset ConnId) : gset ConnId :=
  match evs with
  | [] => open
  | ev :: rest =>
      let open' :=
        match ev with
        | EConnection id remoteAddress =>
            if refused (onConnection opts id remoteAddress sv).2
            then open else {[id]} ∪ open
        | EClose id => open ∖ {[id]}
        | _ => open
        end in
      openAdmitted opts rest (step opts ev sv).1 open'
  end.

(** *** Sentences of the specification, worded as it words them *)

(** "A connection counts against the cap only while its sink is
    present; onConnect refuses iff the number of such connections is at
    least the cap": the number of sinks is the size of the hub's client
    set. *)
Definition refuses_iff_sinks_at_cap (opts : SSHServerOptions) (id : ConnId)
    (remoteAddress : option string) (sv : server) : Prop :=
  refused (onConnection opts id remoteAddress sv).2 = true ↔
  maxConnections opts ≤ Z.of_nat (length (Terminal.clients (hub sv))).

(** "A credential of another length than the expected one is never
    compared and always yields Reject." *)
Definition length_mismatch_rejects (expectedPassword clientIp : string)
    (a : Attempt) (authFailures : gmap string AuthRecord) : Prop :=
  (isLockedOut clientIp (nowCheck a) authFailures).1 = false →
  Terminal.blen (Buffer_from (supplied a)) ≠
    Terminal.blen (Buffer_from expectedPassword) →
  existsb is_compare
    (tryPassword (Some expectedPassword) clientIp a authFailures).2 = false ∧
  verdict (tryPassword (Some expectedPassword) clientIp a authFailures).2
    = Some Reject.

(** "An attempt by another method than password, from a source that is
    not locked out, is rejected and leaves the source's record as it
    was." *)
Definition other_method_keeps_record (expectedPassword clientIp : string)
    (ctx : AuthContext) (nowCheck nowFail : Z)
    (authFailures : gmap string AuthRecord) : Prop :=
  (isLockedOut clientIp nowCheck authFailures).1 = false →
  method ctx ≠ "password" →
  verdict (onAuthentication (Some expectedPassword) clientIp ctx
             nowCheck nowFail authFailures).2 = Some Reject ∧
  (onAuthentication (Some expectedPassword) clientIp ctx
     nowCheck nowFail authFailures).1 !! clientIp = authFailures !! clientIp.

(** "Every termination of an admitted connection decrements the count
    exactly once": after any events, the counter is the number of
    connections that are open and hold handlers. *)
Definition count_is_open (opts : SSHServerOptions) (evs : list Event)
    (sv : server) : Prop :=
  activeConnections (run opts evs sv).1 =
    Z.of_nat (size (openAdmitted opts evs sv ∅)) ∧
  0 ≤ activeConnections (run opts evs sv).1.

(** *** What the failure map looks like

    A record as the handler leaves it: one to four failures and no
    lockout, or five failures and a lockout deadline. *)
Definition record_ok (record : AuthRecord) : Prop :=
  (1 ≤ count record < MAX_AUTH_FAILURES ∧ lockedUntil record = 0) ∨
  (count record = MAX_AUTH_FAILURES ∧ 0 < lockedUntil record).

Definition failures_ok (authFailures : gmap string AuthRecord) : Prop :=
  ∀ ip record, authFailures !! ip = Some record → record_ok record.

(** The calls [ctx.accept()] and [ctx.reject(...)] among the effects. *)
Definition answers (log : list Effect) : list Effect :=
  filter (λ e, is_accept e || is_reject e = true) log.

(** *** Connections that end once

    The connection an end-of-connection event is about. *)
Definition ended (ev : Event) : option ConnId :=
  match ev with
  | EClose id | EError id => Some id
  | _ => None
  end.

(** The connections holding handlers that have not ended yet, after one
    more event: a connection enters when the connection callback lets it
    in and leaves on its close or error event. *)
Definition liveStep (opts : SSHServerOptions) (ev : Event) (sv : server)
    (live : gset ConnId) : gset ConnId :=
  match ev with
  | EConnection id remoteAddress =>
      if refused (onConnection opts id remoteAddress sv).2
      then live else {[id]} ∪ live
  | EClose id | EError id => live ∖ {[id]}
  | _ => live
  end.

Fixpoint liveAfter (opts : SSHServerOptions) (evs : list Event)
    (sv : server) (live : gset ConnId) : gset ConnId :=
  match evs with
  | [] => live
  | ev :: rest =>
      liveAfter opts rest (step opts ev sv).1 (liveStep opts ev sv live)
  end.

(** A run in which ssh2 hands every connection to the callback as a new
    client object and reports the end of a connection once, by a close or
    by an error, not by both. *)
Fixpoint orderly (opts : SSHServerOptions) (evs : list Event)
    (sv : server) (live : gset ConnId) : Prop :=
  match evs with
  | [] => True
  | ev :: rest =>
      match ev with
      | EConnection id _ => handlers sv !! id = None
      | EClose id | EError id => id ∈ live ∨ handlers sv !! id = None
      | _ => True
      end ∧
      orderly opts rest (step opts ev sv).1 (liveStep opts ev sv live)
  end.

(** The counter is the number of live connections, every live connection
    holds handlers, and the counter is within the limit. *)
Definition tallied (opts : SSHServerOptions) (sv : server)
    (live : gset ConnId) : Prop :=
  activeConnections sv = Z.of_nat (size live) ∧
  (∀ id, id ∈ live → is_Some (handlers sv !! id)) ∧
  activeConnections sv ≤ Z.max 0 (maxConnections opts).

End SshServer.

(* ===================================================================== *)
(** ** process-manager.ts: the watchdog *)
(* ===================================================================== *)

Module ProcessManager.

Definition MAX_RESTARTS : Z := 10.

(** The module-level bindings the watchdog reads; they are assigned once,
    by [startServices], before the loop starts. *)
Record config : Type := mkConfig {
  isAttachMode : bool;
  currentSessionName : string;
  currentCwd : string
}.

(** What one turn of the loop observes of the outside world:
    [shutdownRequested] at the three places it is read, what
    [findBinary "tmux"] finds, whether [tmux has-session] exits with 0,
    and the subprocess [Bun.spawn] hands back if the turn restarts. *)
Record Turn : Type := mkTurn {
  shutdownAtLoop : bool;
  shutdownAfterExit : bool;
  shutdownAfterSleep : bool;
  tmux : option string;
  hasSession : bool;
  spawned : Terminal.Proc
}.

Inductive Action : Type :=
| AwaitExited (p : nat)
| LogGivingUp (maxRestarts : Z)
| LogRestarting (delay : Z) (attempt : Z) (maxRestarts : Z)
| Sleep (delay : Z)
| Hub (e : Terminal.Effect)
| LogRestarted.

(** How the loop was left; [Watching] when the turns observed so far
    have not ended it: it is suspended in [await proc.exited]. *)
Inductive Status : Type :=
| Watching
| ShutDown
| NoProcess
| GivenUp
| Threw.

(** [Math.min(1000 * 2 ** restartCount, 60000)] *)
Definition delay (restartCount : Z) : Z :=
  Z.min (1000 * 2 ^ restartCount) 60000.

(** [hasTmuxSession] of utils.ts *)
Definition hasTmuxSession (t : Turn) : bool :=
  Terminal.truthy (tmux t) && hasSession t.

(** The restart at the bottom of the loop body. *)
Definition restart (cfg : config) (t : Turn) (hub : Terminal.state)
  : option (Terminal.state * list Terminal.Effect) :=
  if isAttachMode cfg && hasTmuxSession t
  then Terminal.attachTerminal (tmux t) (spawned t) (currentSessionName cfg) hub
  else Terminal.spawnTerminal (tmux t) (spawned t) (currentSessionName cfg) hub.

(** [watchdog]: one turn of the [while] loop per process exit.  When
    [await proc.exited] returns the process is gone, which the hub's
    subprocess object shows from then on. *)
Fixpoint watchdog_from (cfg : config) (restartCount : Z)
    (turns : list Turn) (hub : Terminal.state)
  : Terminal.state * list Action * Status :=
  match turns with
  | [] => (hub, [], Watching)
  | t :: rest =>
      if shutdownAtLoop t then (hub, [], ShutDown) else
      match Terminal.getProc hub with
      | None => (hub, [], NoProcess)
      | Some proc =>
          let awaited := AwaitExited (Terminal.proc_id proc) in
          let hub := Terminal.procExits hub in
          if shutdownAfterExit t then (hub, [awaited], ShutDown) else
          let restartCount := restartCount + 1 in
          if restartCount >? MAX_RESTARTS
          then (hub, [awaited; LogGivingUp MAX_RESTARTS], GivenUp) else
          let d := delay restartCount in
          let slept :=
            [awaited; LogRestarting d restartCount MAX_RESTARTS; Sleep d] in
          if shutdownAfterSleep t then (hub, slept, ShutDown) else
          match restart cfg t hub with
          | None => (hub, slept, Threw)
          | Some (hub1, effects) =>
              let '(hub2, actions, status) :=
                watchdog_from cfg restartCount rest hub1 in
              (hub2,
               slept ++ map Hub effects ++ [LogRestarted] ++ actions,
               status)
          end
      end
  end.

(** [let restartCount = 0] *)
Definition watchdog (cfg : config) (turns : list Turn) (hub : Terminal.state)
  : Terminal.state * list Action * Status :=
  watchdog_from cfg 0 turns hub.

(** *** Reading the log *)

Definition sleeps (actions : list Action) : list Z :=
  omap (λ a, match a with Sleep d => Some d | _ => None end) actions.

(** The restarts performed: for each, whether it attached ([true]) or
    started a fresh session ([false]). *)
Definition restarts (actions : list Action) : list bool :=
  omap (λ a, match a with
             | Hub (Terminal.Spawn (_ :: verb :: _) _) =>
                 Some (String.eqb verb "attach-session")
             | _ => None
             end) actions.

(** Each restart in the log together with the sleep that was finished
    before it and after the restart before it; [None] when some restart
    was not preceded by a sleep of its own. *)
Fixpoint waits_from (slept : option Z) (actions : list Action)
  : option (list (Z * bool)) :=
  match actions with
  | [] => Some []
  | Sleep d :: rest => waits_from (Some d) rest
  | Hub (Terminal.Spawn (_ :: verb :: _) _) :: rest =>
      match slept with
      | Some d =>
          match waits_from None rest with
          | Some ws => Some ((d, String.eqb verb "attach-session") :: ws)
          | None => None
          end
      | None => None
      end
  | _ :: rest => waits_from slept rest
  end.

Definition waits (actions : list Action) : option (list (Z * bool)) :=
  waits_from None actions.

(** The delays of restarts number [n+1 .. n+k]. *)
Fixpoint schedule (n : Z) (k : nat) : list Z :=
  match k with
  | O => []
  | S k' => delay (n + 1) :: schedule (n + 1) k'
  end.


(** A turn in which shutdown is seen at one of the three places the loop
    looks for it. *)
Definition shutdownSeen (t : Turn) : bool :=
  shutdownAtLoop t || shutdownAfterExit t || shutdownAfterSleep t.

End ProcessManager.

(* ===================================================================== *)
(** ** JavaScript strings and numbers, as far as the glue code uses them *)
(* ===================================================================== *)

Module Js.

(** A string is its sequence of UTF-16 code units. *)
Definition JsString : Type := list N.

(** An ASCII literal. *)
Definition lit (s : string) : JsString :=
  map Byte.to_N (String.list_byte_of_string s).

(** WhiteSpace and LineTerminator of ECMAScript: what [trim] strips and
    [parseInt] skips. *)
Definition isWhiteSpace (u : N) : bool :=
  ((9 <=? u) && (u <=? 13) || (u =? 32) || (u =? 160) || (u =? 5760) ||
   (8192 <=? u) && (u <=? 8202) || (u =? 8232) || (u =? 8233) ||
   (u =? 8239) || (u =? 8287) || (u =? 12288) || (u =? 65279))%N.

Fixpoint trimStart (s : JsString) : JsString :=
  match s with
  | u :: rest => if isWhiteSpace u then trimStart rest else s
  | [] => []
  end.

Definition trimEnd (s : JsString) : JsString := rev (trimStart (rev s)).

Definition trim (s : JsString) : JsString := trimEnd (trimStart s).

(** [s.split(sep)] for a one-unit separator: never an empty array. *)
Fixpoint split (sep : N) (s : JsString) : list JsString :=
  match s with
  | [] => [[]]
  | u :: rest =>
      if (u =? sep)%N then [] :: split sep rest
      else match split sep rest with
           | first :: others => (u :: first) :: others
           | [] => [[u]]
           end
  end.

(** [s.indexOf(u)] for a one-unit needle; [None] is -1. *)
Fixpoint indexOf (u : N) (s : JsString) : option nat :=
  match s with
  | [] => None
  | v :: rest => if (v =? u)%N then Some 0%nat else S <$> indexOf u rest
  end.

Definition isDigit (u : N) : bool := ((48 <=? u) && (u <=? 57))%N.

(** The value of the longest run of decimal digits at the front. *)
Fixpoint digitsValue (acc : Z) (s : JsString) : Z :=
  match s with
  | u :: rest =>
      if isDigit u then digitsValue (10 * acc + Z.of_N (u - 48)) rest else acc
  | [] => acc
  end.

(** The integers every one of which is a JavaScript number of its own:
    [Number.isSafeInteger]. *)
Definition safeInteger (z : Z) : Prop := - 2 ^ 53 < z < 2 ^ 53.

(** The mathematical integer [parseInt(s, 10)] reads: white space
    skipped, a sign, then the longest run of digits; [None] when there is
    no digit to read. *)
Definition mathInt (s : JsString) : option Z :=
  let s := trimStart s in
  let '(sign, s) :=
    match s with
    | 45%N :: rest => (-1, rest)
    | 43%N :: rest => (1, rest)
    | _ => (1, s)
    end in
  match s with
  | u :: _ => if isDigit u then Some (sign * digitsValue 0 s) else None
  | [] => None
  end.

(** What [parseInt(s, 10)] returns.  Below 2^53 in magnitude the integer
    read is the number returned ([-0] is not told apart from [0]).  From
    2^53 on the integer is rounded to a double, and an engine may first
    replace the digits after the twentieth by zeros: the number returned
    is then some double of magnitude at least 2^53, possibly an infinity,
    of which only the sign is kept here. *)
Inductive Parsed : Type :=
| NotANumber
| Exactly (z : Z)
| Beyond (negative : bool).

Definition parseInt (s : JsString) : Parsed :=
  match mathInt s with
  | None => NotANumber
  | Some v => if Z.abs v <? 2 ^ 53 then Exactly v else Beyond (v <? 0)
  end.

Fixpoint digitsOf (fuel : nat) (n : N) : JsString :=
  match fuel with
  | O => []
  | S fuel' =>
      if (n <? 10)%N then [(48 + n)%N]
      else digitsOf fuel' (n / 10)%N ++ [(48 + n mod 10)%N]
  end.

(** The decimal numeral of an integer: its digits, with a minus sign
    when it is negative. *)
Definition decimal (z : Z) : JsString :=
  let n := Z.abs_N z in
  (if z <? 0 then [45%N] else []) ++ digitsOf (S (N.to_nat n)) n.

(** [String(n)] for a safe integer [n]: its decimal numeral.  Other
    integers are left out: above 2^53 not every integer is a number, and
    from 10^21 on [String] writes exponent notation ("1e+21").  What is
    proved of [String_of] is proved for safe integers only. *)
Definition String_of (n : Z) : JsString := decimal n.

End Js.

(* ===================================================================== *)
(** ** utils.ts and the start-up code of index.ts and process-manager.ts *)
(* ===================================================================== *)

Module Utils.
Import Js.

Definition SSH_PORT : Z := 2222.

(** [/[^a-zA-Z0-9_-]/]: the code units the session name may keep. *)
Definition isNameUnit (u : N) : bool :=
  ((97 <=? u) && (u <=? 122) || (65 <=? u) && (u <=? 90) ||
   (48 <=? u) && (u <=? 57) || (u =? 95) || (u =? 45))%N.

(** [.replace(/[^a-zA-Z0-9_-]/g, "-")] *)
Definition sanitize (s : JsString) : JsString :=
  map (λ u, if isNameUnit u then u else 45%N) s.

Definition hexDigit (n : N) : N := (if n <? 10 then 48 + n else 87 + n)%N.

(** [/[a-f0-9]/] *)
Definition isHexDigit (u : N) : bool :=
  ((48 <=? u) && (u <=? 57) || (97 <=? u) && (u <=? 102))%N.

(** [buffer.toString("hex")] *)
Definition toHex (bytes : list byte) : JsString :=
  flat_map (λ b, [hexDigit (Byte.to_N b / 16); hexDigit (Byte.to_N b mod 16)])
    bytes.

(** [createTmuxSessionName]; [basename] is node:path's, and [random] the
    three bytes [randomBytes 3] returns. *)
Definition createTmuxSessionName (basename : JsString → JsString)
    (random : byte * byte * byte) (cwd : JsString) : JsString :=
  let folder := sanitize (basename cwd) in
  let suffix := toHex [random.1.1; random.1.2; random.2] in
  folder ++ lit "-" ++ suffix ++ lit "-remote".

(** The files under the log directory, by path.  [pidPath] is
    [join(LOG_DIR, name + ".pid")]; for a name without "/" the last
    segment is neither "." nor "..", and [join] puts it after the
    directory as it is. *)
Definition pidPath (logDir name : JsString) : JsString :=
  logDir ++ lit "/" ++ name ++ lit ".pid".

(** [writePid], for a pid that is a safe integer (see [String_of]). *)
Definition writePid (logDir name : JsString) (pid : Z)
    (fs : gmap JsString JsString) : gmap JsString JsString :=
  <[pidPath logDir name := String_of pid]> fs.

(** [readPid]: null when the file does not exist or [parseInt] gives
    NaN, the parsed number otherwise. *)
Definition readPid (logDir name : JsString) (fs : gmap JsString JsString)
  : option Parsed :=
  match fs !! pidPath logDir name with
  | None => None
  | Some content =>
      match parseInt (trim content) with
      | NotANumber => None
      | pid => Some pid
      end
  end.

(** [unlinkSync] throws when the file is missing; the error is swallowed. *)
Definition removePid (logDir name : JsString) (fs : gmap JsString JsString)
  : gmap JsString JsString :=
  delete (pidPath logDir name) fs.

End Utils.

Module Startup.
Import Js.

(** *** index.ts: the port *)

(** [args.indexOf(flag)] *)
Fixpoint argIndex (flag : JsString) (args : list JsString) : option nat :=
  match args with
  | [] => None
  | a :: rest =>
      if bool_decide (a = flag) then Some 0%nat else S <$> argIndex flag rest
  end.

(** [rawPort]: the argument after the first "--port" if there is one and
    it is not empty, parsed; the default otherwise. *)
Definition rawPort (args : list JsString) : Parsed :=
  match argIndex (lit "--port") args with
  | Some i =>
      match args !! S i with
      | Some a => if bool_decide (a = []) then Exactly Utils.SSH_PORT
                  else parseInt a
      | None => Exactly Utils.SSH_PORT
      end
  | None => Exactly Utils.SSH_PORT
  end.

(** [x < c] and [x > c] for a constant [c] that is a safe integer; both
    are false of NaN. *)
Definition lessThan (x : Parsed) (c : Z) : bool :=
  match x with
  | NotANumber => false
  | Exactly z => z <? c
  | Beyond negative => negative
  end.

Definition greaterThan (x : Parsed) (c : Z) : bool :=
  match x with
  | NotANumber => false
  | Exactly z => z >? c
  | Beyond negative => negb negative
  end.

Definition isNaN (x : Parsed) : bool :=
  match x with
  | NotANumber => true
  | _ => false
  end.

(** The port check: [inl] is "ERROR: Invalid port number" and exit 1.
    A number that passes is below 2^53, so it is the integer read. *)
Definition port (args : list JsString) : unit + Z :=
  let rawPort := rawPort args in
  if isNaN rawPort || lessThan rawPort 1 || greaterThan rawPort 65535
  then inl tt
  else match rawPort with
       | Exactly p => inr p
       | _ => inl tt
       end.

(** *** process-manager.ts: the password *)

(** [generatePassword]: [randomBytes(8).toString("hex")] *)
Definition generatePassword (random : list byte) : JsString :=
  Utils.toHex random.

(** [opts.noAuth ? null : process.env.SUPERINTENT_REMOTE_PASSWORD ||
    generatePassword()]; [random] is what [randomBytes 8] returns. *)
Definition choosePassword (noAuth : bool) (envPassword : option JsString)
    (random : list byte) : option JsString :=
  if noAuth then None
  else match envPassword with
       | Some (u :: rest) => Some (u :: rest)
       | _ => Some (generatePassword random)
       end.

(** *** process-manager.ts: [loadEnvFile] *)

(** [.replace(/^["']|["']$/g, "")]: a quote at the very start goes, and a
    quote at the very end of what is left goes. *)
Definition isQuote (u : N) : bool := ((u =? 34) || (u =? 39))%N.

Definition stripQuotes (s : JsString) : JsString :=
  let s1 := match s with
            | u :: rest => if isQuote u then rest else s
            | [] => []
            end in
  match rev s1 with
  | u :: tser => if isQuote u then rev tser else s1
  | [] => []
  end.

(** What one line of the file asks for, if anything. *)
Definition parseLine (line : JsString) : option (JsString * JsString) :=
  let trimmed := trim line in
  match trimmed with
  | [] => None
  | 35%N :: _ => None
  | _ =>
      match indexOf 61 trimmed with
      | None => None
      | Some eqIndex =>
          Some (trim (take eqIndex trimmed),
                stripQuotes (trim (drop (S eqIndex) trimmed)))
      end
  end.

Section EnvFile.

(** [inherited key]: whether [process.env[key]] is truthy for a name
    [key] of which the environment holds no variable.  [process.env]
    inherits from [Object.prototype], so this is the case for "toString",
    "constructor" and the other names found there. *)
Variable inherited : JsString → bool.

(** [!process.env[key]] *)
Definition unset (key : JsString) (env : gmap JsString JsString) : bool :=
  match env !! key with
  | Some (_ :: _) => false
  | Some [] => true
  | None => negb (inherited key)
  end.

(** [if (!process.env[key]) process.env[key] = value]: an unset variable
    and one set to the empty string are both filled in.  There is no
    variable without a name: an assignment to the empty name sets
    nothing. *)
Definition setDefault (key value : JsString) (env : gmap JsString JsString)
  : gmap JsString JsString :=
  if unset key env
  then if bool_decide (key = []) then env else <[key := value]> env
  else env.

(** The loop over the lines, given the text of the file. *)
Definition loadEnvText (content : JsString) (env : gmap JsString JsString)
  : gmap JsString JsString :=
  fold_left
    (λ env line,
       match parseLine line with
       | Some (key, value) => setDefault key value env
       | None => env
       end)
    (split 10 content) env.

(** [loadEnvFile]; [file] is the text of .superintent/.env, [None] when
    reading it throws. *)
Definition loadEnvFile (file : option JsString)
    (env : gmap JsString JsString) : gmap JsString JsString :=
  match file with
  | Some content => loadEnvText content env
  | None => env
  end.

End EnvFile.

(** The names [Object.prototype] defines. *)
Definition Object_prototype : list JsString :=
  map lit ["constructor"; "hasOwnProperty"; "isPrototypeOf";
           "propertyIsEnumerable"; "toLocaleString"; "toString"; "valueOf";
           "__defineGetter__"; "__defineSetter__"; "__lookupGetter__";
           "__lookupSetter__"; "__proto__"].

Definition inObjectPrototype (key : JsString) : bool :=
  bool_decide (key ∈ Object_prototype).

End Startup.

(* ===================================================================== *)
(** ** Properties of terminal.ts *)
(* ===================================================================== *)

Section ScrollbackProperties.
Import Terminal.

Lemma blen_app (a b : Buffer) : blen (a ++ b) = blen a + blen b.
Proof. unfold blen. rewrite length_app. lia. Qed.

Lemma blen_concat_app (xs ys : list Buffer) :
  blen (Buffer_concat (xs ++ ys)) =
  blen (Buffer_concat xs) + blen (Buffer_concat ys).
Proof. unfold Buffer_concat. rewrite concat_app. apply blen_app. Qed.

Lemma blen_concat_cons (x : Buffer) (xs : list Buffer) :
  blen (Buffer_concat (x :: xs)) = blen x + blen (Buffer_concat xs).
Proof. unfold Buffer_concat. simpl. apply blen_app. Qed.

Lemma blen_concat_nil : blen (Buffer_concat []) = 0.
Proof. reflexivity. Qed.

(** One unfolding of the trimming loop. *)
Lemma trimScrollback_step (removed : Buffer) (rest : list Buffer) (size : Z) :
  trimScrollback (removed :: rest) size =
  if (size >? MAX_SCROLLBACK) && (Z.of_nat (length (removed :: rest)) >? 1)
  then trimScrollback rest (size - blen removed)
  else (removed :: rest, size).
Proof. reflexivity. Qed.

(** What the loop leaves behind, for a non-empty array. *)
Lemma trimScrollback_spec (chunks : list Buffer) (size : Z) :
  chunks ≠ [] →
  ∃ evicted,
    chunks = evicted ++ (trimScrollback chunks size).1 ∧
    (trimScrollback chunks size).1 ≠ [] ∧
    (trimScrollback chunks size).2 = size - blen (Buffer_concat evicted) ∧
    ((trimScrollback chunks size).2 ≤ MAX_SCROLLBACK ∨
     length (trimScrollback chunks size).1 = 1%nat) ∧
    (∀ k, (k < length evicted)%nat →
          size - blen (Buffer_concat (take k evicted)) > MAX_SCROLLBACK).
Proof.
  revert size. induction chunks as [|c rest IH]; intros size Hne; [done|].
  rewrite trimScrollback_step.
  destruct (Z.gtb_spec size MAX_SCROLLBACK) as [Hsz|Hsz];
    destruct (Z.gtb_spec (Z.of_nat (length (c :: rest))) 1) as [Hlen|Hlen];
    simpl andb; cbv iota; cbn [fst snd].
  - assert (rest ≠ []) as Hrest.
    { intros ->. simpl in Hlen. lia. }
    destruct (IH (size - blen c) Hrest) as (ev & Heq & Hne' & Hsize & Hcap & Hwhile).
    exists (c :: ev). split_and!.
    + simpl. by rewrite <- Heq.
    + done.
    + rewrite Hsize, blen_concat_cons. lia.
    + done.
    + intros [|k] Hk.
      * change (take 0 (c :: ev)) with (@nil Buffer).
        rewrite blen_concat_nil. lia.
      * change (take (S k) (c :: ev)) with (c :: take k ev).
        rewrite blen_concat_cons.
        specialize (Hwhile k). simpl in Hk.
        assert (k < length ev)%nat as Hk' by lia.
        specialize (Hwhile Hk'). lia.
  - exists []. split_and!; try done.
    + rewrite blen_concat_nil. lia.
    + right. destruct rest; [done|]. simpl length in Hlen. lia.
    + intros k Hk. simpl in Hk. lia.
  - exists []. split_and!; try done.
    + rewrite blen_concat_nil. lia.
    + left. lia.
    + intros k Hk. simpl in Hk. lia.
  - exists []. split_and!; try done.
    + rewrite blen_concat_nil. lia.
    + left. lia.
    + intros k Hk. simpl in Hk. lia.
Qed.

(** One append, from any state whose running total is right. *)
Lemma appendScrollback_spec (d : Buffer) (s : state) :
  size_ok s →
  let s' := appendScrollback d s in
  size_ok s' ∧
  (scrollbackSize s' ≤ MAX_SCROLLBACK ∨
   length (scrollbackChunks s') = 1%nat) ∧
  last (scrollbackChunks s') = Some d ∧
  ∃ evicted,
    scrollbackChunks s ++ [d] = evicted ++ scrollbackChunks s' ∧
    scrollbackSize s' =
      scrollbackSize s + blen d - blen (Buffer_concat evicted) ∧
    ∀ k, (k < length evicted)%nat →
      scrollbackSize s + blen d - blen (Buffer_concat (take k evicted))
        > MAX_SCROLLBACK ∧
      (1 < length (drop k (scrollbackChunks s ++ [d])))%nat.
Proof.
  intros Hok. unfold appendScrollback.
  assert (scrollbackChunks s ++ [d] ≠ []) as Hne by (by destruct (scrollbackChunks s)).
  destruct (trimScrollback_spec _ (scrollbackSize s + blen d) Hne)
    as (ev & Heq & Hne' & Hsize & Hcap & Hwhile).
  destruct (trimScrollback (scrollbackChunks s ++ [d])
              (scrollbackSize s + blen d)) as [chunks size'] eqn:Htrim.
  cbn [fst snd] in *. cbn [scrollbackChunks scrollbackSize].
  split_and!.
  - unfold size_ok. cbn [scrollbackChunks scrollbackSize].
    rewrite Hsize. red in Hok. rewrite Hok.
    assert (blen (Buffer_concat (scrollbackChunks s ++ [d])) =
            blen (Buffer_concat (ev ++ chunks))) as Hlen by (by rewrite Heq).
    rewrite !blen_concat_app, blen_concat_cons, blen_concat_nil in Hlen. lia.
  - done.
  - assert (last (scrollbackChunks s ++ [d]) = Some d) as Hlast
      by apply last_snoc.
    rewrite Heq in Hlast. rewrite last_app in Hlast.
    destruct (last chunks) eqn:Hl; [done|].
    apply last_None in Hl. done.
  - exists ev. split_and!; [done|done|].
    intros k Hk. split; [by apply Hwhile|].
    rewrite Heq, length_drop, length_app.
    destruct chunks; [done|]. simpl length. lia.
Qed.

Lemma appendAll_snoc (ds : list Buffer) (d : Buffer) (s : state) :
  appendAll (ds ++ [d]) s = appendScrollback d (appendAll ds s).
Proof. unfold appendAll. by rewrite fold_left_app. Qed.

(** The history kept after a run of appends onto an empty store is a
    suffix of the run. *)
Lemma appendAll_fresh (ds : list Buffer) (s : state) :
  scrollbackChunks s = [] → scrollbackSize s = 0 →
  size_ok (appendAll ds s) ∧
  ∃ dropped, ds = dropped ++ scrollbackChunks (appendAll ds s).
Proof.
  intros Hc Hs.
  induction ds as [|d ds IH] using rev_ind.
  - split.
    + unfold size_ok, appendAll. simpl. by rewrite Hc, Hs.
    + exists []. unfold appendAll. simpl. by rewrite Hc.
  - destruct IH as [Hok [dropped Hdrop]].
    rewrite appendAll_snoc.
    destruct (appendScrollback_spec d _ Hok) as (Hok' & _ & _ & ev & Heq & _).
    split; [done|].
    exists (dropped ++ ev).
    rewrite <- app_assoc, <- Heq, app_assoc. by rewrite <- Hdrop.
Qed.

(** Output that fits under the cap is kept whole. *)
Lemma appendAll_no_eviction (ds : list Buffer) (s : state) :
  scrollbackChunks s = [] → scrollbackSize s = 0 →
  blen (Buffer_concat ds) ≤ MAX_SCROLLBACK →
  scrollbackChunks (appendAll ds s) = ds.
Proof.
  intros Hc Hs.
  induction ds as [|d ds IH] using rev_ind; intros Hfit.
  - unfold appendAll. simpl. done.
  - rewrite blen_concat_app, blen_concat_cons, blen_concat_nil in Hfit.
    assert (0 ≤ blen d) by (unfold blen; lia).
    assert (0 ≤ blen (Buffer_concat ds)) by (unfold blen; lia).
    rewrite appendAll_snoc.
    destruct (appendAll_fresh ds s Hc Hs) as [Hok _].
    destruct (appendScrollback_spec d _ Hok)
      as (_ & _ & _ & ev & Heq & _ & Hwhile).
    rewrite IH in Heq by lia.
    destruct ev as [|e ev].
    + simpl in Heq. by rewrite <- Heq.
    + destruct (Hwhile 0%nat) as [Hgt _]; [simpl; lia|].
      change (take 0 (e :: ev)) with (@nil Buffer) in Hgt.
      rewrite blen_concat_nil in Hgt.
      red in Hok. rewrite Hok, IH in Hgt by lia. lia.
Qed.

(** C2 — Scrollback cap.  Start from any state whose scrollback has just
    been cleared (as at module load and after every spawn or attach), run
    any appends [ds] and one more append [d]: the running total is the
    number of bytes held; it is at most the 512 KiB cap, or exactly one
    chunk remains; the newest chunk [d] is still there, last; the append
    evicted a prefix [evicted] of the array (oldest chunks only),
    subtracting its bytes from the total, and each single eviction happened
    while the total exceeded the cap and more than one chunk was held; and
    the chunks kept are a suffix of the whole run, so their concatenation
    is a suffix of the output, in order. *)
Theorem scrollback_cap_after_each_append (s0 : state) (ds : list Buffer)
    (d : Buffer) :
  let s := appendAll ds (clearScrollback s0) in
  let s' := appendScrollback d s in
  s' = appendAll (ds ++ [d]) (clearScrollback s0) ∧
  scrollbackSize s' = blen (getScrollbackBuffer s') ∧
  (scrollbackSize s' ≤ MAX_SCROLLBACK ∨
   length (scrollbackChunks s') = 1%nat) ∧
  last (scrollbackChunks s') = Some d ∧
  (∃ evicted,
      scrollbackChunks s ++ [d] = evicted ++ scrollbackChunks s' ∧
      scrollbackSize s' =
        scrollbackSize s + blen d - blen (Buffer_concat evicted) ∧
      ∀ k, (k < length evicted)%nat →
        scrollbackSize s + blen d - blen (Buffer_concat (take k evicted))
          > MAX_SCROLLBACK ∧
        (1 < length (drop k (scrollbackChunks s ++ [d])))%nat) ∧
  (∃ dropped,
      ds ++ [d] = dropped ++ scrollbackChunks s' ∧
      Buffer_concat (ds ++ [d]) =
        Buffer_concat dropped ++ getScrollbackBuffer s').
Proof.
  intros s s'.
  destruct (appendAll_fresh ds (clearScrollback s0) eq_refl eq_refl)
    as [Hok _].
  destruct (appendScrollback_spec d _ Hok) as (Hok' & Hcap & Hlast & Hev).
  split_and!; try done.
  - subst s s'. by rewrite appendAll_snoc.
  - destruct (appendAll_fresh (ds ++ [d]) (clearScrollback s0)
                eq_refl eq_refl) as [_ [dropped Hdrop]].
    rewrite appendAll_snoc in Hdrop.
    exists dropped. split; [done|].
    unfold getScrollbackBuffer, Buffer_concat.
    rewrite <- concat_app. f_equal. exact Hdrop.
Qed.

End ScrollbackProperties.

Section ReplayProperties.
Import Terminal.

Lemma appendScrollback_clients (d : Buffer) (s : state) :
  clients (appendScrollback d s) = clients s.
Proof.
  unfold appendScrollback.
  by destruct (trimScrollback _ _).
Qed.

Lemma onDataAll_state (ds : list Buffer) (s : state) :
  (onDataAll ds s).1 = appendAll ds s.
Proof.
  revert s. induction ds as [|d ds IH]; intros s; [done|].
  simpl. specialize (IH (appendScrollback d s)).
  destruct (onDataAll ds (appendScrollback d s)) as [s2 l2].
  simpl in *. by rewrite IH.
Qed.

Lemma appendAll_clients (ds : list Buffer) (s : state) :
  clients (appendAll ds s) = clients s.
Proof.
  revert s. induction ds as [|d ds IH]; intros s; [done|].
  unfold appendAll in *. simpl. rewrite IH. apply appendScrollback_clients.
Qed.

Lemma received_app (c : TerminalClient) (l1 l2 : list Effect) :
  received c (l1 ++ l2) = received c l1 ++ received c l2.
Proof.
  induction l1 as [|e l1 IH]; [done|].
  destruct e; simpl; try done.
  case_bool_decide; [|done]. by rewrite IH, app_assoc.
Qed.

Lemma received_broadcast_absent (c : TerminalClient) (d : Buffer)
    (cs : list TerminalClient) :
  c ∉ cs → received c (map (λ x, ClientWrite x d) cs) = [].
Proof.
  induction cs as [|x cs IH]; intros Hnin; [done|].
  apply not_elem_of_cons in Hnin as [Hne Hnin]. simpl.
  case_bool_decide; [congruence|]. by apply IH.
Qed.

(** A broadcast reaches a registered sink exactly once. *)
Lemma received_broadcast (c : TerminalClient) (d : Buffer)
    (cs : list TerminalClient) :
  NoDup cs → c ∈ cs → received c (map (λ x, ClientWrite x d) cs) = d.
Proof.
  induction cs as [|x cs IH]; intros Hnd Hin; [by apply elem_of_nil in Hin|].
  apply NoDup_cons in Hnd as [Hx Hnd]. simpl.
  case_bool_decide as Heq.
  - subst x. rewrite received_broadcast_absent by done. by rewrite app_nil_r.
  - apply elem_of_cons in Hin as [->|Hin]; [done|]. by apply IH.
Qed.

Lemma received_onDataAll (c : TerminalClient) (ds : list Buffer) (s : state) :
  NoDup (clients s) → c ∈ clients s →
  received c (onDataAll ds s).2 = Buffer_concat ds.
Proof.
  revert s. induction ds as [|d ds IH]; intros s Hnd Hin; [done|].
  simpl.
  assert (clients (appendScrollback d s) = clients s) as Hcl
    by apply appendScrollback_clients.
  specialize (IH (appendScrollback d s)).
  rewrite Hcl in IH. specialize (IH Hnd Hin).
  destruct (onDataAll ds (appendScrollback d s)) as [s2 l2].
  simpl in *. rewrite received_app, Hcl, received_broadcast by done.
  by rewrite IH.
Qed.

Lemma Set_add_elem (c : TerminalClient) (cs : list TerminalClient) :
  c ∈ Set_add c cs.
Proof.
  unfold Set_add. case_bool_decide; [done|].
  apply elem_of_app. right. by apply list_elem_of_singleton.
Qed.

Lemma Set_add_NoDup (c : TerminalClient) (cs : list TerminalClient) :
  NoDup cs → NoDup (Set_add c cs).
Proof.
  intros Hnd. unfold Set_add. case_bool_decide as Hin; [done|].
  apply NoDup_app. split_and!; [done| |apply NoDup_singleton].
  intros x Hx Hx'. apply list_elem_of_singleton in Hx'. by subst.
Qed.

Lemma blen_zero (b : Buffer) : blen b = 0 → b = [].
Proof. destruct b; [done|]. unfold blen. simpl. lia. Qed.

(** The log of a registration: the set insertion, then the replay write
    (skipped when nothing is buffered). *)
Lemma addClient_log (c : TerminalClient) (s : state) :
  size_ok s →
  (addClient c s).2 =
    ClientsAdd c ::
    (if bool_decide (getScrollbackBuffer s = []) then []
     else [ClientWrite c (getScrollbackBuffer s)]).
Proof.
  intros Hok. unfold addClient. cbn [snd with_clients scrollbackSize].
  red in Hok. f_equal.
  destruct (Z.gtb_spec (scrollbackSize s) 0) as [Hpos|Hzero].
  - rewrite bool_decide_eq_false_2; [done|].
    unfold getScrollbackBuffer. intros Hnil. rewrite Hnil in Hok.
    change (blen []) with 0 in Hok. lia.
  - rewrite bool_decide_eq_true_2; [done|].
    apply blen_zero. unfold getScrollbackBuffer.
    assert (0 ≤ blen (Buffer_concat (scrollbackChunks s)))
      by (unfold blen; lia).
    lia.
Qed.

(** C1 (amended) — Replay on registration.  Let [ds] be the output
    produced since the process was installed and let sink [c] register
    before any further output.  [addClient] first inserts [c] into the
    client set and then, before returning, writes the whole current
    scrollback to [c], once (no write at all when it is empty).  The
    scrollback is the tail of the output that the cap has kept; it is all
    [N] bytes whenever they fit under the cap.  From then on every later
    chunk reaches [c] exactly once, so [c] receives the scrollback followed
    by the later output, with no gap and no repetition. *)
Theorem addClient_replays_scrollback (s0 : state) (p : Proc) (name : string)
    (ds more : list Buffer) (c : TerminalClient) :
  NoDup (clients s0) →
  let s := (onDataAll ds (install p name s0)).1 in
  let s1 := (addClient c s).1 in
  let log := (addClient c s).2 in
  log = ClientsAdd c ::
        (if bool_decide (getScrollbackBuffer s = []) then []
         else [ClientWrite c (getScrollbackBuffer s)]) ∧
  received c log = getScrollbackBuffer s ∧
  (∃ dropped,
      Buffer_concat ds = Buffer_concat dropped ++ getScrollbackBuffer s) ∧
  (blen (Buffer_concat ds) ≤ MAX_SCROLLBACK →
   getScrollbackBuffer s = Buffer_concat ds) ∧
  c ∈ clients s1 ∧
  received c (log ++ (onDataAll more s1).2) =
    getScrollbackBuffer s ++ Buffer_concat more.
Proof.
  intros Hnd s s1 log.
  assert (s = appendAll ds (install p name s0)) as Hs
    by apply onDataAll_state.
  destruct (appendAll_fresh ds (install p name s0) eq_refl eq_refl)
    as [Hok [dropped Hdrop]].
  rewrite <- Hs in Hok, Hdrop.
  assert (clients s = clients s0) as Hcl.
  { rewrite Hs. by rewrite appendAll_clients. }
  assert (log = ClientsAdd c ::
            (if bool_decide (getScrollbackBuffer s = []) then []
             else [ClientWrite c (getScrollbackBuffer s)])) as Hlog
    by (by apply addClient_log).
  assert (received c log = getScrollbackBuffer s) as Hrecv.
  { rewrite Hlog. simpl. case_bool_decide as Hnil; simpl.
    - by rewrite Hnil.
    - rewrite bool_decide_eq_true_2 by done. by rewrite app_nil_r. }
  assert (c ∈ clients s1) as Hin.
  { subst s1. unfold addClient. cbn [fst with_clients clients].
    apply Set_add_elem. }
  assert (NoDup (clients s1)) as Hnd1.
  { subst s1. unfold addClient. cbn [fst with_clients clients].
    apply Set_add_NoDup. by rewrite Hcl. }
  split_and!; try done.
  - exists dropped. unfold getScrollbackBuffer, Buffer_concat.
    rewrite <- concat_app. f_equal. exact Hdrop.
  - intros Hfit. unfold getScrollbackBuffer. rewrite Hs.
    by rewrite appendAll_no_eviction.
  - rewrite received_app, Hrecv. f_equal.
    by apply received_onDataAll.
Qed.

Lemma addClient_replays_scrollback_witness :
  NoDup (clients initial) ∧
  (addClient 0%nat
     (onDataAll [[x68; x69]; [x21]]
        (install (mkProc 1 false false) "work" initial)).1).2 =
    [ClientsAdd 0%nat; ClientWrite 0%nat [x68; x69; x21]] ∧
  received 0%nat
    ((addClient 0%nat
        (onDataAll [[x68; x69]; [x21]]
           (install (mkProc 1 false false) "work" initial)).1).2 ++
     (onDataAll [[x0a]]
        (addClient 0%nat
           (onDataAll [[x68; x69]; [x21]]
              (install (mkProc 1 false false) "work" initial)).1).1).2) =
    [x68; x69; x21; x0a].
Proof.
  assert (NoDup (clients initial)) as Hnd by apply NoDup_nil_2.
  pose proof (addClient_replays_scrollback initial (mkProc 1 false false)
                "work" [[x68; x69]; [x21]] [[x0a]] 0%nat Hnd)
    as (Hlog & _ & _ & _ & _ & Hall).
  split; [exact Hnd|]. split; [exact Hlog | exact Hall].
Defined.

(** C1 as worded fails twice over.  With one byte buffered the log of a
    registration is insertion-then-write, not write-then-insertion; and
    once the cap has evicted a chunk, the replay is shorter than the
    output produced: after 512 KiB + 1 bytes in two chunks a new sink is
    sent the last byte only. *)
Lemma replay_then_join_counterexample :
  ¬ replay_then_join [[x61]] 0%nat
      (install (mkProc 1 false false) "work" initial) ∧
  (addClient 0%nat
     (onDataAll [[x61]]
        (install (mkProc 1 false false) "work" initial)).1).2 =
    [ClientsAdd 0%nat; ClientWrite 0%nat [x61]] ∧
  blen (Buffer_concat [repeat x61 (Z.to_nat MAX_SCROLLBACK); [x62]]) =
    MAX_SCROLLBACK + 1 ∧
  received 0%nat
    (addClient 0%nat
       (onDataAll [repeat x61 (Z.to_nat MAX_SCROLLBACK); [x62]]
          (install (mkProc 1 false false) "work" initial)).1).2 = [x62].
Proof.
  split_and!.
  - unfold replay_then_join. intros H. vm_compute in H. discriminate H.
  - reflexivity.
  - vm_compute. reflexivity.
  - vm_compute. reflexivity.
Qed.

(** C8 (amended) — [writeToTerminal] never changes the module state and
    forwards exactly when the [terminal] binding is set.  It therefore
    forwards while the session is running, does nothing when no session
    is installed (in particular after [killTerminal]), and, since nothing
    clears [terminal] when the process exits, still calls [write] on the
    handle of the departed process until the next spawn or attach. *)
Theorem writeToTerminal_forwards_iff_handle (data : Buffer) (s : state) :
  (writeToTerminal data s).1 = s ∧
  (writeToTerminal data s).2 =
    match terminal s with
    | Some t => [TerminalWrite t data]
    | None => []
    end ∧
  (sessionState s = Running →
   ∃ t, terminal s = Some t ∧
        (writeToTerminal data s).2 = [TerminalWrite t data]) ∧
  (sessionState s = Absent → (writeToTerminal data s).2 = []) ∧
  (sessionState s = Exited →
   ∃ t, terminal s = Some t ∧
        (writeToTerminal data s).2 = [TerminalWrite t data]) ∧
  (∀ tmux keepSession,
     writeToTerminal data (killTerminal tmux keepSession s).1 =
       ((killTerminal tmux keepSession s).1, [])).
Proof.
  unfold writeToTerminal, sessionState.
  split_and!.
  - by destruct (terminal s).
  - by destruct (terminal s).
  - destruct (terminal s) as [t|], (shellProc s) as [p|]; try done.
    intros _. by exists t.
  - destruct (terminal s) as [t|], (shellProc s) as [p|]; try done.
    by destruct (proc_exited p).
  - destruct (terminal s) as [t|], (shellProc s) as [p|]; try done.
    intros _. by exists t.
  - intros tmux keepSession. reflexivity.
Qed.

Lemma writeToTerminal_forwards_iff_handle_witness :
  sessionState (install (mkProc 1 false false) "work" initial) = Running ∧
  ∃ t, terminal (install (mkProc 1 false false) "work" initial) = Some t ∧
       (writeToTerminal [x6c; x73]
          (install (mkProc 1 false false) "work" initial)).2 =
         [TerminalWrite t [x6c; x73]].
Proof.
  split; [reflexivity|].
  pose proof (writeToTerminal_forwards_iff_handle [x6c; x73]
                (install (mkProc 1 false false) "work" initial))
    as (_ & _ & Hrun & _).
  apply Hrun. reflexivity.
Defined.

(** C8 as worded fails in the [Exited] state: spawn a session, let its
    process exit, and a keystroke is still written to the old handle. *)
Lemma write_iff_running_counterexample :
  fst <$> spawnTerminal (Some "/usr/bin/tmux") (mkProc 1 false false)
            "work" initial =
    Some (install (mkProc 1 false false) "work" initial) ∧
  sessionState (procExits (install (mkProc 1 false false) "work" initial))
    = Exited ∧
  (writeToTerminal [x6c]
     (procExits (install (mkProc 1 false false) "work" initial))).2 =
    [TerminalWrite 1%nat [x6c]] ∧
  ¬ write_iff_running [x6c]
      (procExits (install (mkProc 1 false false) "work" initial)).
Proof.
  split_and!; try reflexivity.
  intros (_ & _ & Hnoop).
  assert (sessionState
            (procExits (install (mkProc 1 false false) "work" initial))
          ≠ Running) as Hne by (vm_compute; discriminate).
  specialize (Hnoop Hne). vm_compute in Hnoop. discriminate Hnoop.
Qed.

End ReplayProperties.

(* ===================================================================== *)
(** ** Properties of the authentication handler *)
(* ===================================================================== *)

Section AuthProperties.
Import SshServer.

Implicit Types (m : gmap string AuthRecord) (ip pw : string).

Lemma stands_at_fresh m ip : m !! ip = None → stands_at m ip 0.
Proof. intros H. unfold stands_at. by rewrite H. Qed.

Lemma stands_at_insert m ip k : stands_at (<[ip := mkRecord k 0]> m) ip k.
Proof. unfold stands_at. by rewrite lookup_insert_eq. Qed.

Lemma expired_unlocked now k : expired now (mkRecord k 0) = false.
Proof. unfold expired. simpl. by rewrite andb_false_r. Qed.

Lemma isLockedOut_stands_at m ip now k :
  stands_at m ip k → k < MAX_AUTH_FAILURES →
  isLockedOut ip now m = (false, m).
Proof.
  unfold stands_at, isLockedOut. intros Hst Hk.
  destruct (m !! ip) as [record|]; [|done].
  simpl in Hst. subst record. rewrite expired_unlocked. simpl.
  destruct (Z.geb_spec k MAX_AUTH_FAILURES); [lia|done].
Qed.

Lemma recordAuthFailure_stands_at m ip now k :
  stands_at m ip k →
  recordAuthFailure ip now m =
    if k + 1 >=? MAX_AUTH_FAILURES
    then (true, <[ip := mkRecord (k + 1) (now + AUTH_LOCKOUT_MS)]> m)
    else (false, <[ip := mkRecord (k + 1) 0]> m).
Proof.
  unfold stands_at, recordAuthFailure. intros ->.
  rewrite expired_unlocked. simpl. done.
Qed.

Lemma Buffer_from_blen_neq (a b : string) :
  Terminal.blen (Buffer_from a) ≠ Terminal.blen (Buffer_from b) →
  Buffer_from a ≠ Buffer_from b.
Proof. intros Hlen Heq. by rewrite Heq in Hlen. Qed.

(** A wrong password once the lockout check has let the attempt through:
    the failure is recorded and the attempt rejected; the comparator runs
    only on credentials of the right length, and never throws. *)
Lemma tryPassword_wrong pw ip (a : Attempt) m :
  Buffer_from (supplied a) ≠ Buffer_from pw →
  (isLockedOut ip (nowCheck a) m).1 = false →
  let m1 := (isLockedOut ip (nowCheck a) m).2 in
  let locked := (recordAuthFailure ip (nowFail a) m1).1 in
  let compared :=
    if Terminal.blen (Buffer_from (supplied a)) =? Terminal.blen (Buffer_from pw)
    then [CallTimingSafeEqual (Buffer_from (supplied a)) (Buffer_from pw)]
    else [] in
  tryPassword (Some pw) ip a m =
    ((recordAuthFailure ip (nowFail a) m1).2,
     compared ++ [Log (AuthFailed ip locked); CtxReject ["password"]]).
Proof.
  intros Hwrong Hunlocked. unfold tryPassword, onAuthentication.
  destruct (isLockedOut ip (nowCheck a) m) as [l m1] eqn:Hl.
  simpl in Hunlocked. subst l. cbn [fst snd method password].
  change (String.eqb "password" "password") with true. cbv iota.
  unfold timingSafeEqual.
  destruct (Terminal.blen (Buffer_from (supplied a)) =?
            Terminal.blen (Buffer_from pw)).
  - rewrite bool_decide_eq_false_2 by done.
    by destruct (recordAuthFailure ip (nowFail a) m1).
  - by destruct (recordAuthFailure ip (nowFail a) m1).
Qed.

Lemma verdict_failed ip (locked : bool) (compared : list Effect) :
  existsb is_accept compared = false →
  existsb is_reject compared = false →
  existsb is_lockout_line compared = false →
  verdict (compared ++ [Log (AuthFailed ip locked); CtxReject ["password"]]) =
    Some (if locked then RejectLockedOut else Reject).
Proof.
  intros Ha Hr Hl. unfold verdict.
  rewrite !existsb_app, Ha, Hr, Hl. simpl. by destruct locked.
Qed.

(** One more wrong password for a source standing at [k < 5] failures. *)
Lemma tryPassword_wrong_stands_at pw ip (a : Attempt) m k :
  Buffer_from (supplied a) ≠ Buffer_from pw →
  stands_at m ip k → 0 ≤ k < MAX_AUTH_FAILURES →
  ∃ log,
    tryPassword (Some pw) ip a m =
      (<[ip := mkRecord (k + 1)
                 (if k + 1 >=? MAX_AUTH_FAILURES
                  then nowFail a + AUTH_LOCKOUT_MS else 0)]> m, log) ∧
    verdict log =
      Some (if k + 1 >=? MAX_AUTH_FAILURES then RejectLockedOut else Reject).
Proof.
  intros Hwrong Hst Hk.
  pose proof (isLockedOut_stands_at m ip (nowCheck a) k Hst (proj2 Hk)) as Hl.
  pose proof (tryPassword_wrong pw ip a m Hwrong) as Htry.
  rewrite Hl in Htry. specialize (Htry eq_refl). cbn [fst snd] in Htry.
  rewrite (recordAuthFailure_stands_at m ip (nowFail a) k Hst) in Htry.
  exists (tryPassword (Some pw) ip a m).2. rewrite Htry.
  destruct (k + 1 >=? MAX_AUTH_FAILURES); cbn [fst snd];
    (split; [done|]); rewrite verdict_failed; try done;
    by destruct (_ =? _).
Qed.

Lemma tryPasswords_cons (e : option string) ip (a : Attempt)
    (rest : list Attempt) m :
  tryPasswords e ip (a :: rest) m =
    (verdict (tryPassword e ip a m).2 ::
       (tryPasswords e ip rest (tryPassword e ip a m).1).1,
     (tryPasswords e ip rest (tryPassword e ip a m).1).2).
Proof.
  cbn [tryPasswords]. destruct (tryPassword e ip a m) as [m1 log].
  cbn [fst snd]. by destruct (tryPasswords e ip rest m1).
Qed.

(** While the lockout stands, every attempt is turned away untouched. *)
Lemma onAuthentication_locked pw ip (ctx : AuthContext) now now' m until k :
  m !! ip = Some (mkRecord k until) → MAX_AUTH_FAILURES ≤ k → now ≤ until →
  onAuthentication (Some pw) ip ctx now now' m =
    (m, [Log (AuthRejectedLockedOut ip); CtxReject ["password"]]).
Proof.
  intros Hm Hk Hnow. unfold onAuthentication, isLockedOut. rewrite Hm.
  unfold expired. cbn [lockedUntil count].
  destruct (Z.gtb_spec now until); [lia|]. cbn [andb].
  destruct (Z.geb_spec k MAX_AUTH_FAILURES); [done|lia].
Qed.

(** Once the lockout has run out the record is dropped before anything
    else is looked at. *)
Lemma isLockedOut_expired ip now m until k :
  m !! ip = Some (mkRecord k until) → 0 < until → until < now →
  isLockedOut ip now m = (false, delete ip m).
Proof.
  intros Hm Hpos Hnow. unfold isLockedOut. rewrite Hm.
  unfold expired. cbn [lockedUntil].
  destruct (Z.gtb_spec now until); [|lia].
  destruct (Z.gtb_spec until 0); [done|lia].
Qed.

Lemma isLockedOut_absent ip now m :
  m !! ip = None → isLockedOut ip now m = (false, m).
Proof. intros Hm. unfold isLockedOut. by rewrite Hm. Qed.

(** The right password, once the lockout check has let it through. *)
Lemma tryPassword_right pw ip now now' m :
  (isLockedOut ip now m).1 = false →
  tryPassword (Some pw) ip (mkAttempt pw now now') m =
    (delete ip (isLockedOut ip now m).2,
     [CallTimingSafeEqual (Buffer_from pw) (Buffer_from pw);
      Log (AuthAccepted ip); CtxAccept]).
Proof.
  intros Hl. unfold tryPassword, onAuthentication. cbn [supplied nowCheck nowFail].
  destruct (isLockedOut ip now m) as [l m1]. simpl in Hl. subst l.
  cbn [fst snd method password].
  change (String.eqb "password" "password") with true. cbv iota.
  unfold timingSafeEqual. rewrite Z.eqb_refl.
  by rewrite bool_decide_eq_true_2.
Qed.

(** C3 — Auth lockout.  With a password configured and a source that has
    no record yet, five wrong passwords in a row are answered Reject four
    times and then RejectLockedOut, the fifth leaving the record at five
    failures, locked until sixty seconds after that failure.  Up to and
    including that instant every further attempt, whatever it carries, is
    answered RejectLockedOut and leaves the map as it is: no count, no
    extension.  Past that instant an attempt is handled exactly as if the
    source had no record, and the right password is accepted, leaving the
    source without a record. *)
Theorem auth_lockout pw ip m (a1 a2 a3 a4 a5 : Attempt) :
  m !! ip = None →
  Forall (λ a, Buffer_from (supplied a) ≠ Buffer_from pw) [a1; a2; a3; a4; a5] →
  0 ≤ nowFail a5 →
  let m5 := (tryPasswords (Some pw) ip [a1; a2; a3; a4; a5] m).2 in
  let until := nowFail a5 + AUTH_LOCKOUT_MS in
  (tryPasswords (Some pw) ip [a1; a2; a3; a4; a5] m).1 =
    [Some Reject; Some Reject; Some Reject; Some Reject; Some RejectLockedOut] ∧
  m5 !! ip = Some (mkRecord MAX_AUTH_FAILURES until) ∧
  (∀ ctx now now', now ≤ until →
     onAuthentication (Some pw) ip ctx now now' m5 =
       (m5, [Log (AuthRejectedLockedOut ip); CtxReject ["password"]]) ∧
     verdict (onAuthentication (Some pw) ip ctx now now' m5).2 =
       Some RejectLockedOut) ∧
  (∀ ctx now now', until < now →
     onAuthentication (Some pw) ip ctx now now' m5 =
       onAuthentication (Some pw) ip ctx now now' (delete ip m5)) ∧
  (∀ now now', until < now →
     verdict (tryPassword (Some pw) ip (mkAttempt pw now now') m5).2 =
       Some Accept ∧
     (tryPassword (Some pw) ip (mkAttempt pw now now') m5).1 !! ip = None).
Proof.
  intros Hfresh Hwrong Hclock.
  apply Forall_cons in Hwrong as [H1 Hwrong].
  apply Forall_cons in Hwrong as [H2 Hwrong].
  apply Forall_cons in Hwrong as [H3 Hwrong].
  apply Forall_cons in Hwrong as [H4 Hwrong].
  apply Forall_cons in Hwrong as [H5 _].
  destruct (tryPassword_wrong_stands_at pw ip a1 m 0 H1)
    as (l1 & E1 & V1); [by apply stands_at_fresh|done|].
  set (m1 := <[ip := mkRecord 1 0]> m).
  destruct (tryPassword_wrong_stands_at pw ip a2 m1 1 H2)
    as (l2 & E2 & V2); [apply stands_at_insert|done|].
  set (m2 := <[ip := mkRecord 2 0]> m1).
  destruct (tryPassword_wrong_stands_at pw ip a3 m2 2 H3)
    as (l3 & E3 & V3); [apply stands_at_insert|done|].
  set (m3 := <[ip := mkRecord 3 0]> m2).
  destruct (tryPassword_wrong_stands_at pw ip a4 m3 3 H4)
    as (l4 & E4 & V4); [apply stands_at_insert|done|].
  set (m4 := <[ip := mkRecord 4 0]> m3).
  destruct (tryPassword_wrong_stands_at pw ip a5 m4 4 H5)
    as (l5 & E5 & V5); [apply stands_at_insert|done|].
  change (0 + 1) with 1 in *. change (1 + 1) with 2 in *.
  change (2 + 1) with 3 in *. change (3 + 1) with 4 in *.
  change (4 + 1) with 5 in *.
  change (1 >=? MAX_AUTH_FAILURES) with false in *.
  change (2 >=? MAX_AUTH_FAILURES) with false in *.
  change (3 >=? MAX_AUTH_FAILURES) with false in *.
  change (4 >=? MAX_AUTH_FAILURES) with false in *.
  change (5 >=? MAX_AUTH_FAILURES) with true in *.
  cbv iota in *. fold m1 in E1. fold m2 in E2. fold m3 in E3. fold m4 in E4.
  rewrite !tryPasswords_cons.
  rewrite E1; cbn [fst snd]. rewrite E2; cbn [fst snd].
  rewrite E3; cbn [fst snd]. rewrite E4; cbn [fst snd].
  rewrite E5; cbn [fst snd]. cbn [tryPasswords fst snd].
  rewrite V1, V2, V3, V4, V5.
  set (m5 := <[ip := mkRecord 5 (nowFail a5 + AUTH_LOCKOUT_MS)]> m4).
  assert (m5 !! ip = Some (mkRecord 5 (nowFail a5 + AUTH_LOCKOUT_MS))) as Hm5
    by apply lookup_insert_eq.
  assert (0 < nowFail a5 + AUTH_LOCKOUT_MS) as Hpos
    by (unfold AUTH_LOCKOUT_MS; lia).
  split_and!; try done.
  - intros ctx now now' Hnow.
    rewrite (onAuthentication_locked pw ip ctx now now' m5 _ 5 Hm5); done.
  - intros ctx now now' Hnow. unfold onAuthentication.
    rewrite (isLockedOut_expired ip now m5 _ 5 Hm5 Hpos Hnow).
    rewrite isLockedOut_absent; [done|]. apply lookup_delete_eq.
  - intros now now' Hnow.
    rewrite tryPassword_right;
      rewrite (isLockedOut_expired ip now m5 _ 5 Hm5 Hpos Hnow); [|done].
    split; [done|]. cbn [fst snd]. apply lookup_delete_eq.
Qed.

Lemma auth_lockout_witness :
  (∅ : gmap string AuthRecord) !! "10.0.0.7" = None ∧
  (tryPasswords (Some "hunter2") "10.0.0.7"
     [mkAttempt "a" 1000 1001; mkAttempt "hunter1" 2000 2001;
      mkAttempt "" 3000 3001; mkAttempt "hunter22" 4000 4001;
      mkAttempt "HUNTER2" 5000 5001] ∅).1 =
    [Some Reject; Some Reject; Some Reject; Some Reject;
     Some RejectLockedOut] ∧
  verdict
    (tryPassword (Some "hunter2") "10.0.0.7" (mkAttempt "hunter2" 65002 65003)
       (tryPasswords (Some "hunter2") "10.0.0.7"
          [mkAttempt "a" 1000 1001; mkAttempt "hunter1" 2000 2001;
           mkAttempt "" 3000 3001; mkAttempt "hunter22" 4000 4001;
           mkAttempt "HUNTER2" 5000 5001] ∅).2).2 = Some Accept.
Proof.
  assert ((∅ : gmap string AuthRecord) !! "10.0.0.7" = None) as Hfresh
    by apply lookup_empty.
  assert (Forall (λ a, Buffer_from (supplied a) ≠ Buffer_from "hunter2")
            [mkAttempt "a" 1000 1001; mkAttempt "hunter1" 2000 2001;
             mkAttempt "" 3000 3001; mkAttempt "hunter22" 4000 4001;
             mkAttempt "HUNTER2" 5000 5001]) as Hwrong
    by (repeat constructor; intros H; vm_compute in H; discriminate H).
  assert (0 ≤ nowFail (mkAttempt "HUNTER2" 5000 5001)) as Hclock
    by (simpl; lia).
  pose proof (auth_lockout "hunter2" "10.0.0.7" ∅ _ _ _ _ _
                Hfresh Hwrong Hclock) as (Hv & _ & _ & _ & Hacc).
  split; [exact Hfresh|]. split; [exact Hv|].
  apply (Hacc 65002 65003). simpl. unfold AUTH_LOCKOUT_MS. lia.
Defined.

(** C7 — No-auth bypass.  With no password configured the handler logs,
    accepts and returns: whatever the source, the method, the credential
    and the clock, and whatever the failure map holds (a standing lockout
    included), the verdict is Accept, the map is handed back as it was,
    and the effects do not depend on the map. *)
Theorem no_auth_always_accepts ip (ctx : AuthContext) (now now' : Z)
    (m m' : gmap string AuthRecord) :
  onAuthentication None ip ctx now now' m =
    (m, [Log (AuthAcceptedNoAuth ip); CtxAccept]) ∧
  verdict (onAuthentication None ip ctx now now' m).2 = Some Accept ∧
  (onAuthentication None ip ctx now now' m).2 =
    (onAuthentication None ip ctx now now' m').2 ∧
  verdict
    (onAuthentication None ip ctx now now'
       (<[ip := mkRecord MAX_AUTH_FAILURES (now + 1)]> m)).2 = Some Accept ∧
  (isLockedOut ip now (<[ip := mkRecord MAX_AUTH_FAILURES (now + 1)]> m)).1
    = true.
Proof.
  split_and!; try reflexivity.
  unfold isLockedOut. rewrite lookup_insert_eq.
  unfold expired. cbn [lockedUntil count].
  destruct (Z.gtb_spec now (now + 1)); [lia|done].
Qed.

(** The flag [recordAuthFailure] returns says whether the count it stored
    has reached the limit. *)
Lemma recordAuthFailure_count ip now m :
  ∃ record,
    (recordAuthFailure ip now m).2 !! ip = Some record ∧
    (recordAuthFailure ip now m).1 = (count record >=? MAX_AUTH_FAILURES).
Proof.
  unfold recordAuthFailure. cbn [count lockedUntil].
  destruct (count (if expired now (default zeroRecord (m !! ip))
                   then zeroRecord else default zeroRecord (m !! ip)) + 1
            >=? MAX_AUTH_FAILURES) eqn:Hreached;
    cbn [fst snd]; rewrite lookup_insert_eq; eexists; (split; [done|]);
    by cbn [count].
Qed.

(** C9 (amended) — Credential of the wrong length.  With a password
    configured and the source let through by the lockout check, a
    supplied password whose byte length differs from the expected one is
    never handed to [timingSafeEqual] (and nothing throws); the failure
    is recorded and the attempt is rejected, never accepted: the verdict
    is Reject, except that it is RejectLockedOut when
    [recordAuthFailure] reports that this failure reached the limit of
    five. *)
Theorem length_mismatch_never_compared pw ip (a : Attempt) m :
  (isLockedOut ip (nowCheck a) m).1 = false →
  Terminal.blen (Buffer_from (supplied a)) ≠ Terminal.blen (Buffer_from pw) →
  let r := tryPassword (Some pw) ip a m in
  let recorded :=
    recordAuthFailure ip (nowFail a) (isLockedOut ip (nowCheck a) m).2 in
  r.1 = recorded.2 ∧
  r.2 = [Log (AuthFailed ip recorded.1); CtxReject ["password"]] ∧
  existsb is_compare r.2 = false ∧
  existsb is_throw r.2 = false ∧
  verdict r.2 = Some (if recorded.1 then RejectLockedOut else Reject) ∧
  verdict r.2 ≠ Some Accept ∧
  ∃ record,
    r.1 !! ip = Some record ∧
    recorded.1 = (count record >=? MAX_AUTH_FAILURES).
Proof.
  intros Hunlocked Hlen r recorded.
  pose proof (tryPassword_wrong pw ip a m
                (Buffer_from_blen_neq _ _ Hlen) Hunlocked) as Htry.
  cbv zeta in Htry.
  destruct (Z.eqb_spec (Terminal.blen (Buffer_from (supplied a)))
              (Terminal.blen (Buffer_from pw))) as [Heq|_]; [done|].
  subst r recorded. rewrite Htry. cbn [fst snd app].
  split_and!; try done; try by destruct (recordAuthFailure _ _ _).1.
  apply recordAuthFailure_count.
Qed.

Lemma length_mismatch_never_compared_witness :
  (isLockedOut "10.0.0.7" 1000 ∅).1 = false ∧
  Terminal.blen (Buffer_from "abc") ≠ Terminal.blen (Buffer_from "hunter2") ∧
  (tryPassword (Some "hunter2") "10.0.0.7" (mkAttempt "abc" 1000 1001) ∅).2 =
    [Log (AuthFailed "10.0.0.7" false); CtxReject ["password"]] ∧
  verdict
    (tryPassword (Some "hunter2") "10.0.0.7" (mkAttempt "abc" 1000 1001) ∅).2
    = Some Reject.
Proof.
  assert ((isLockedOut "10.0.0.7" 1000 ∅).1 = false) as Hunlocked
    by reflexivity.
  assert (Terminal.blen (Buffer_from "abc") ≠
          Terminal.blen (Buffer_from "hunter2")) as Hlen
    by (vm_compute; discriminate).
  pose proof (length_mismatch_never_compared "hunter2" "10.0.0.7"
                (mkAttempt "abc" 1000 1001) ∅ Hunlocked Hlen)
    as (_ & Hlog & _ & _ & Hv & _ & _).
  split; [exact Hunlocked|]. split; [exact Hlen|].
  split; [exact Hlog | exact Hv].
Defined.

(** C9 as worded fails when the failure is the source's fifth: four
    failures on record, a password of the wrong length, and the verdict
    is RejectLockedOut. *)
Lemma length_mismatch_rejects_counterexample :
  verdict
    (tryPassword (Some "hunter2") "10.0.0.7" (mkAttempt "abc" 1000 1001)
       {[ "10.0.0.7" := mkRecord 4 0 ]}).2 = Some RejectLockedOut ∧
  ¬ length_mismatch_rejects "hunter2" "10.0.0.7" (mkAttempt "abc" 1000 1001)
      {[ "10.0.0.7" := mkRecord 4 0 ]}.
Proof.
  assert (verdict
            (tryPassword (Some "hunter2") "10.0.0.7"
               (mkAttempt "abc" 1000 1001)
               {[ "10.0.0.7" := mkRecord 4 0 ]}).2 = Some RejectLockedOut)
    as Hv by (vm_compute; reflexivity).
  split; [exact Hv|].
  intros Hclaim. destruct Hclaim as [_ Hreject].
  - vm_compute. reflexivity.
  - vm_compute. discriminate.
  - rewrite Hv in Hreject. discriminate Hreject.
Qed.

(** C10 (amended) — Other methods.  With a password configured and the
    source let through by the lockout check, an attempt by any method
    other than "password" is rejected with nothing logged and no failure
    recorded: the map the handler leaves is the one the lockout check
    left.  That check leaves the map alone, except that it deletes the
    source's record when that record carries a lockout that has run out;
    so the source's record is either unchanged or gone, never advanced,
    and every other source's record is unchanged. *)
Theorem other_method_records_no_failure pw ip (ctx : AuthContext)
    (now now' : Z) m :
  (isLockedOut ip now m).1 = false →
  method ctx ≠ "password" →
  let r := onAuthentication (Some pw) ip ctx now now' m in
  r.2 = [CtxReject ["password"]] ∧
  verdict r.2 = Some Reject ∧
  r.1 = (isLockedOut ip now m).2 ∧
  r.1 = (match m !! ip with
         | Some record => if expired now record then delete ip m else m
         | None => m
         end) ∧
  (r.1 !! ip = m !! ip ∨ r.1 !! ip = None) ∧
  (∀ other, other ≠ ip → r.1 !! other = m !! other).
Proof.
  intros Hunlocked Hmethod r.
  assert (String.eqb (method ctx) "password" = false) as Hneq
    by (by apply String.eqb_neq).
  assert (r = ((isLockedOut ip now m).2, [CtxReject ["password"]])) as Hr.
  { subst r. unfold onAuthentication.
    destruct (isLockedOut ip now m) as [l m1]. simpl in Hunlocked. subst l.
    by rewrite Hneq. }
  rewrite Hr. cbn [fst snd]. unfold isLockedOut.
  destruct (m !! ip) as [record|] eqn:Hm; cbn [snd].
  - destruct (expired now record); cbn [snd]; split_and!; try done.
    + right. apply lookup_delete_eq.
    + intros other Hother. by rewrite lookup_delete_ne.
    + by left.
  - split_and!; try done. by left.
Qed.

Lemma other_method_records_no_failure_witness :
  (isLockedOut "10.0.0.7" 1000 {[ "10.0.0.7" := mkRecord 2 0 ]}).1 = false ∧
  method (mkCtx "publickey" "") ≠ "password" ∧
  (onAuthentication (Some "hunter2") "10.0.0.7" (mkCtx "publickey" "")
     1000 1001 {[ "10.0.0.7" := mkRecord 2 0 ]}).2 =
    [CtxReject ["password"]].
Proof.
  assert ((isLockedOut "10.0.0.7" 1000
             {[ "10.0.0.7" := mkRecord 2 0 ]}).1 = false) as Hunlocked
    by (vm_compute; reflexivity).
  assert (method (mkCtx "publickey" "") ≠ "password") as Hmethod
    by discriminate.
  pose proof (other_method_records_no_failure "hunter2" "10.0.0.7"
                (mkCtx "publickey" "") 1000 1001
                {[ "10.0.0.7" := mkRecord 2 0 ]} Hunlocked Hmethod)
    as (Hlog & _).
  split; [exact Hunlocked|]. split; [exact Hmethod | exact Hlog].
Defined.

(** C10 as worded fails for a source whose lockout has run out: the
    lockout check lets the attempt through and, on the way, deletes the
    record. *)
Lemma other_method_keeps_record_counterexample :
  (isLockedOut "10.0.0.7" 70000 {[ "10.0.0.7" := mkRecord 5 61000 ]}).1
    = false ∧
  (onAuthentication (Some "hunter2") "10.0.0.7" (mkCtx "none" "") 70000 70001
     {[ "10.0.0.7" := mkRecord 5 61000 ]}).1 !! "10.0.0.7" = None ∧
  ¬ other_method_keeps_record "hunter2" "10.0.0.7" (mkCtx "none" "")
      70000 70001 {[ "10.0.0.7" := mkRecord 5 61000 ]}.
Proof.
  assert ((isLockedOut "10.0.0.7" 70000
             {[ "10.0.0.7" := mkRecord 5 61000 ]}).1 = false) as Hunlocked
    by (vm_compute; reflexivity).
  assert ((onAuthentication (Some "hunter2") "10.0.0.7" (mkCtx "none" "")
             70000 70001 {[ "10.0.0.7" := mkRecord 5 61000 ]}).1
            !! "10.0.0.7" = None) as Hgone
    by (vm_compute; reflexivity).
  split; [exact Hunlocked|]. split; [exact Hgone|].
  intros Hclaim. destruct Hclaim as [_ Hkept]; [exact Hunlocked|discriminate|].
  rewrite Hgone in Hkept. rewrite lookup_singleton_eq in Hkept.
  discriminate Hkept.
Qed.

End AuthProperties.

(* ===================================================================== *)
(** ** Properties of the connection bookkeeping *)
(* ===================================================================== *)

Section ConnectionProperties.
Import SshServer.

Lemma onConnection_refused opts id addr sv :
  refused (onConnection opts id addr sv).2 =
    (activeConnections sv >=? maxConnections opts).
Proof.
  unfold onConnection.
  by destruct (activeConnections sv >=? maxConnections opts).
Qed.

(** C4 (amended) — Connection cap.  The connection callback turns a peer
    away iff [activeConnections] has reached the configured limit (10
    when none is configured), and then changes nothing, so a peer turned
    away never counts.  A peer let in is counted at once, before it has
    authenticated and before any sink exists for it: the counter goes up
    by one, its handlers are installed with "ready" still false, and the
    hub is untouched.  Authentication, shell, stream and idle-timer
    events never change the counter; a close or an error event on a
    connection that was let in takes one off. *)
Theorem connection_cap_counts_open_connections opts id addr sv :
  (refused (onConnection opts id addr sv).2 = true ↔
     maxConnections opts ≤ activeConnections sv) ∧
  (maxConnections opts ≤ activeConnections sv →
     (onConnection opts id addr sv).1 = sv) ∧
  (activeConnections sv < maxConnections opts →
     activeConnections (onConnection opts id addr sv).1 =
       activeConnections sv + 1 ∧
     handlers (onConnection opts id addr sv).1 !! id =
       Some (mkConn (default "unknown" addr) false) ∧
     hub (onConnection opts id addr sv).1 = hub sv) ∧
  (∀ ev,
     match ev with
     | EConnection _ _ => True
     | EClose id' | EError id' =>
         activeConnections (step opts ev sv).1 =
           match handlers sv !! id' with
           | Some _ => activeConnections sv - 1
           | None => activeConnections sv
           end
     | _ => activeConnections (step opts ev sv).1 = activeConnections sv
     end) ∧
  maxConnections (mkOptions (opt_password opts) None (opt_idleTimeoutMs opts))
    = 10.
Proof.
  split_and!.
  - rewrite onConnection_refused. apply Z.geb_le.
  - intros Hfull. unfold onConnection.
    destruct (Z.geb_spec (activeConnections sv) (maxConnections opts));
      [done|lia].
  - intros Hroom. unfold onConnection.
    destruct (Z.geb_spec (activeConnections sv) (maxConnections opts));
      [lia|].
    cbn [fst activeConnections handlers hub].
    split_and!; [done| |done]. apply lookup_insert_eq.
  - intros ev. destruct ev as [| id' ctx now now' | id' tc | id' data
                               | id' tc | id' tc | id' | id' | id']; try done;
      cbn [step]; destruct (handlers sv !! id') as [c|]; try done.
    + by destruct (onAuthentication _ _ _ _ _ _).
    + by destruct (ready c).
    + by destruct (ready c).
    + by destruct (ready c).
    + by destruct (ready c).
  - reflexivity.
Qed.

Lemma connection_cap_counts_open_connections_witness :
  activeConnections (listening Terminal.initial) <
    maxConnections (mkOptions (Some "hunter2") None None) ∧
  activeConnections
    (onConnection (mkOptions (Some "hunter2") None None) 1%nat
       (Some "10.0.0.7") (listening Terminal.initial)).1 = 1 ∧
  Terminal.clients
    (hub (onConnection (mkOptions (Some "hunter2") None None) 1%nat
            (Some "10.0.0.7") (listening Terminal.initial)).1) = [].
Proof.
  assert (activeConnections (listening Terminal.initial) <
          maxConnections (mkOptions (Some "hunter2") None None)) as Hroom
    by (vm_compute; reflexivity).
  pose proof (connection_cap_counts_open_connections
                (mkOptions (Some "hunter2") None None) 1%nat
                (Some "10.0.0.7") (listening Terminal.initial))
    as (_ & _ & Hin & _).
  destruct (Hin Hroom) as (Hcount & _ & Hhub).
  split; [exact Hroom|]. split; [exact Hcount|]. by rewrite Hhub.
Defined.

(** C4 as worded fails for peers that have connected and not yet
    authenticated: with a limit of two, two such peers (no sink in the
    hub) fill the server and the third is turned away. *)
Lemma refuses_iff_sinks_at_cap_counterexample :
  Terminal.clients
    (hub (run (mkOptions (Some "hunter2") (Some 2) None)
            [EConnection 1%nat (Some "10.0.0.7");
             EConnection 2%nat (Some "10.0.0.8")]
            (listening Terminal.initial)).1) = [] ∧
  activeConnections
    (run (mkOptions (Some "hunter2") (Some 2) None)
       [EConnection 1%nat (Some "10.0.0.7");
        EConnection 2%nat (Some "10.0.0.8")]
       (listening Terminal.initial)).1 = 2 ∧
  refused
    (onConnection (mkOptions (Some "hunter2") (Some 2) None) 3%nat
       (Some "10.0.0.9")
       (run (mkOptions (Some "hunter2") (Some 2) None)
          [EConnection 1%nat (Some "10.0.0.7");
           EConnection 2%nat (Some "10.0.0.8")]
          (listening Terminal.initial)).1).2 = true ∧
  ¬ refuses_iff_sinks_at_cap (mkOptions (Some "hunter2") (Some 2) None)
      3%nat (Some "10.0.0.9")
      (run (mkOptions (Some "hunter2") (Some 2) None)
         [EConnection 1%nat (Some "10.0.0.7");
          EConnection 2%nat (Some "10.0.0.8")]
         (listening Terminal.initial)).1.
Proof.
  split_and!; try reflexivity.
  intros [Hsinks _].
  assert (maxConnections (mkOptions (Some "hunter2") (Some 2) None) ≤
          Z.of_nat (length (@nil Terminal.TerminalClient))) as Habs
    by (apply Hsinks; reflexivity).
  vm_compute in Habs. by apply Habs.
Qed.

(** In any state with room, a connection that is let in and then closes
    leaves the counter where it was; if ssh2 reports an error before the
    close, the counter ends one lower than it started. *)
Lemma connect_close_balance opts id addr sv :
  activeConnections sv < maxConnections opts →
  activeConnections (run opts [EConnection id addr; EClose id] sv).1 =
    activeConnections sv ∧
  activeConnections
    (run opts [EConnection id addr; EError id; EClose id] sv).1 =
    activeConnections sv - 1.
Proof.
  intros Hroom. cbn [run step]. unfold onConnection.
  destruct (Z.geb_spec (activeConnections sv) (maxConnections opts)); [lia|].
  cbn [handlers]. rewrite lookup_insert_eq.
  cbn [onError onClose handlers fst]. rewrite lookup_insert_eq.
  cbn [onClose activeConnections fst]. lia.
Qed.

(** C5 — what the code does when ssh2 reports an error on a connection
    and then its close: both handlers run, each takes one off the
    counter.  One peer connects, errors and closes, and the counter
    stands at -1 with no connection open; with a limit of one, the next
    two peers are both let in and are open together.  Without the error
    the bookkeeping is as described: with a limit of two a third peer is
    turned away, and let in once one of the two has closed. *)
Theorem error_then_close_decrements_twice :
  activeConnections
    (run (mkOptions (Some "hunter2") None None)
       [EConnection 1%nat (Some "10.0.0.7"); EError 1%nat; EClose 1%nat]
       (listening Terminal.initial)).1 = -1 ∧
  size (openAdmitted (mkOptions (Some "hunter2") None None)
          [EConnection 1%nat (Some "10.0.0.7"); EError 1%nat; EClose 1%nat]
          (listening Terminal.initial) ∅) = 0%nat ∧
  ¬ count_is_open (mkOptions (Some "hunter2") None None)
      [EConnection 1%nat (Some "10.0.0.7"); EError 1%nat; EClose 1%nat]
      (listening Terminal.initial) ∧
  size (openAdmitted (mkOptions (Some "hunter2") (Some 1) None)
          [EConnection 1%nat (Some "10.0.0.7"); EError 1%nat; EClose 1%nat;
           EConnection 2%nat (Some "10.0.0.8");
           EConnection 3%nat (Some "10.0.0.9")]
          (listening Terminal.initial) ∅) = 2%nat ∧
  refused
    (onConnection (mkOptions (Some "hunter2") (Some 2) None) 3%nat
       (Some "10.0.0.9")
       (run (mkOptions (Some "hunter2") (Some 2) None)
          [EConnection 1%nat (Some "10.0.0.7");
           EConnection 2%nat (Some "10.0.0.8")]
          (listening Terminal.initial)).1).2 = true ∧
  refused
    (onConnection (mkOptions (Some "hunter2") (Some 2) None) 3%nat
       (Some "10.0.0.9")
       (run (mkOptions (Some "hunter2") (Some 2) None)
          [EConnection 1%nat (Some "10.0.0.7");
           EConnection 2%nat (Some "10.0.0.8"); EClose 1%nat]
          (listening Terminal.initial)).1).2 = false.
Proof.
  split_and!; [| | |vm_compute; reflexivity..].
  - vm_compute. reflexivity.
  - vm_compute. reflexivity.
  - intros [_ Hnonneg].
    assert (activeConnections
              (run (mkOptions (Some "hunter2") None None)
                 [EConnection 1%nat (Some "10.0.0.7"); EError 1%nat;
                  EClose 1%nat]
                 (listening Terminal.initial)).1 = -1) as Hcount
      by (vm_compute; reflexivity).
    rewrite Hcount in Hnonneg. lia.
Qed.

End ConnectionProperties.

(* ===================================================================== *)
(** ** Properties of the watchdog *)
(* ===================================================================== *)

Section WatchdogProperties.
Import ProcessManager.

Variable cfg : config.


Lemma sleeps_app (a b : list Action) : sleeps (a ++ b) = sleeps a ++ sleeps b.
Proof. apply omap_app. Qed.

Lemma restarts_app (a b : list Action) :
  restarts (a ++ b) = restarts a ++ restarts b.
Proof. apply omap_app. Qed.


(** What a restart adds to the log is read by [waits_from] as one
    restart: it takes the sleep that was pending and leaves none. *)
Lemma restart_waits (t : Turn) (hub hub1 : Terminal.state)
    (effects : list Terminal.Effect) (d : Z) (tail : list Action) :
  restart cfg t hub = Some (hub1, effects) →
  ∃ attached,
    restarts (map Hub effects) = [attached] ∧
    waits_from (Some d) (map Hub effects ++ tail) =
      match waits_from None tail with
      | Some ws => Some ((d, attached) :: ws)
      | None => None
      end.
Proof.
  unfold restart, Terminal.attachTerminal, Terminal.spawnTerminal.
  destruct (isAttachMode cfg && hasTmuxSession t);
    destruct (tmux t) as [bin|]; try done;
    destruct (Terminal.truthy (Some bin)); try done;
    intros [= <- <-]; eexists; split; reflexivity.
Qed.

(** In every run of the loop, from any restart count, each restart comes
    after a sleep of its own, and the sleep before restart number [k] is
    [delay k]. *)
Lemma watchdog_from_waits (turns : list Turn) :
  ∀ (n : Z) (hub : Terminal.state) (slept : option Z),
    waits_from slept (watchdog_from cfg n turns hub).1.2 =
      Some (zip (schedule n (length (restarts (watchdog_from cfg n turns hub).1.2)))
                (restarts (watchdog_from cfg n turns hub).1.2)).
Proof.
  induction turns as [|t turns IH]; intros n hub slept; [done|].
  cbn [watchdog_from].
  destruct (shutdownAtLoop t); [done|].
  destruct (Terminal.getProc hub) as [proc|]; [|done].
  destruct (shutdownAfterExit t); [done|].
  destruct (n + 1 >? MAX_RESTARTS); [done|].
  destruct (shutdownAfterSleep t); [done|].
  destruct (restart cfg t (Terminal.procExits hub)) as [[hub1 effects]|]
    eqn:Hrestart; [|done].
  specialize (IH (n + 1) hub1 None).
  destruct (restart_waits t _ _ _ (delay (n + 1))
              ([LogRestarted] ++ (watchdog_from cfg (n + 1) turns hub1).1.2)
              Hrestart) as (attached & Hre & Hw).
  destruct (watchdog_from cfg (n + 1) turns hub1) as [[hub2 actions] status].
  cbn [fst snd] in *.
  change (waits_from slept
            ([AwaitExited (Terminal.proc_id proc);
              LogRestarting (delay (n + 1)) (n + 1) MAX_RESTARTS;
              Sleep (delay (n + 1))] ++
             map Hub effects ++ [LogRestarted] ++ actions))
    with (waits_from (Some (delay (n + 1)))
            (map Hub effects ++ [LogRestarted] ++ actions)).
  rewrite Hw.
  change (waits_from None ([LogRestarted] ++ actions))
    with (waits_from None actions).
  rewrite IH.
  change (restarts ([AwaitExited (Terminal.proc_id proc);
                     LogRestarting (delay (n + 1)) (n + 1) MAX_RESTARTS;
                     Sleep (delay (n + 1))] ++
                    map Hub effects ++ [LogRestarted] ++ actions))
    with (restarts (map Hub effects ++ [LogRestarted] ++ actions)).
  rewrite !restarts_app, Hre.
  change (restarts [LogRestarted]) with (@nil bool).
  reflexivity.
Qed.


End WatchdogProperties.


(* ===================================================================== *)
(** ** Further properties of terminal.ts *)
(* ===================================================================== *)

Section TerminalFurther.
Import Terminal.

Lemma trimScrollback_oversized (pre : list Buffer) (d : Buffer) :
  blen d > MAX_SCROLLBACK →
  trimScrollback (pre ++ [d]) (blen (Buffer_concat (pre ++ [d]))) =
    ([d], blen d).
Proof.
  intros Hbig. induction pre as [|c pre IH].
  - simpl app. rewrite trimScrollback_step.
    change (Z.of_nat (length [d]) >? 1) with false.
    rewrite andb_false_r, blen_concat_cons, blen_concat_nil. f_equal. lia.
  - rewrite <- app_comm_cons, trimScrollback_step.
    assert (0 ≤ blen c) by (unfold blen; lia).
    assert (0 ≤ blen (Buffer_concat pre)) by (unfold blen; lia).
    rewrite blen_concat_cons.
    destruct (Z.gtb_spec (blen c + blen (Buffer_concat (pre ++ [d])))
                MAX_SCROLLBACK) as [_|Hle].
    2:{ rewrite blen_concat_app, blen_concat_cons, blen_concat_nil in Hle.
        lia. }
    destruct (Z.gtb_spec (Z.of_nat (length (c :: pre ++ [d]))) 1) as [_|Hle].
    2:{ simpl length in Hle. rewrite length_app in Hle. simpl in Hle. lia. }
    cbn [andb].
    replace (blen c + blen (Buffer_concat (pre ++ [d])) - blen c)
      with (blen (Buffer_concat (pre ++ [d]))) by lia.
    exact IH.
Qed.

(** X1 — A chunk that alone exceeds the cap pushes out everything older:
    after appending it the scrollback holds that chunk and nothing else,
    whole, and what a new client is replayed is exactly that chunk. *)
Theorem appendScrollback_oversized_chunk (d : Buffer) (s : state) :
  size_ok s →
  blen d > MAX_SCROLLBACK →
  scrollbackChunks (appendScrollback d s) = [d] ∧
  scrollbackSize (appendScrollback d s) = blen d ∧
  getScrollbackBuffer (appendScrollback d s) = d.
Proof.
  intros Hok Hbig. unfold getScrollbackBuffer, appendScrollback.
  red in Hok. rewrite Hok.
  replace (blen (Buffer_concat (scrollbackChunks s)) + blen d)
    with (blen (Buffer_concat (scrollbackChunks s ++ [d])))
    by (rewrite blen_concat_app, blen_concat_cons, blen_concat_nil; lia).
  rewrite trimScrollback_oversized by done.
  cbn [scrollbackChunks scrollbackSize]. split_and!; try done.
  unfold Buffer_concat. simpl. apply app_nil_r.
Qed.

Lemma appendScrollback_oversized_chunk_witness :
  size_ok (appendAll [[x68; x69]; [x21]] initial) ∧
  blen (repeat x2e (S (Z.to_nat MAX_SCROLLBACK))) > MAX_SCROLLBACK ∧
  scrollbackChunks
    (appendScrollback (repeat x2e (S (Z.to_nat MAX_SCROLLBACK)))
       (appendAll [[x68; x69]; [x21]] initial)) =
    [repeat x2e (S (Z.to_nat MAX_SCROLLBACK))].
Proof.
  assert (size_ok (appendAll [[x68; x69]; [x21]] initial)) as Hok
    by reflexivity.
  assert (blen (repeat x2e (S (Z.to_nat MAX_SCROLLBACK))) > MAX_SCROLLBACK)
    as Hbig by (vm_compute; reflexivity).
  split; [exact Hok|]. split; [exact Hbig|].
  exact (proj1 (appendScrollback_oversized_chunk _ _ Hok Hbig)).
Defined.

Lemma Set_delete_NoDup (c : TerminalClient) (cs : list TerminalClient) :
  NoDup cs → NoDup (Set_delete c cs).
Proof. apply NoDup_filter. Qed.

Lemma Set_delete_elem (c x : TerminalClient) (cs : list TerminalClient) :
  x ∈ Set_delete c cs ↔ x ∈ cs ∧ x ≠ c.
Proof. unfold Set_delete. rewrite list_elem_of_filter. tauto. Qed.

Lemma Set_delete_absent (c : TerminalClient) (cs : list TerminalClient) :
  c ∉ cs → Set_delete c cs = cs.
Proof.
  intros Hnin. unfold Set_delete. induction cs as [|x cs IH]; [done|].
  apply not_elem_of_cons in Hnin as [Hne Hnin].
  rewrite filter_cons_True by congruence. by rewrite IH.
Qed.

Lemma received_onDataAll_absent (c : TerminalClient) (ds : list Buffer)
    (s : state) :
  c ∉ clients s → received c (onDataAll ds s).2 = [].
Proof.
  revert s. induction ds as [|d ds IH]; intros s Hnin; [done|].
  simpl.
  assert (clients (appendScrollback d s) = clients s) as Hcl
    by apply appendScrollback_clients.
  specialize (IH (appendScrollback d s)). rewrite Hcl in IH.
  specialize (IH Hnin).
  destruct (onDataAll ds (appendScrollback d s)) as [s2 l2].
  simpl in *. rewrite received_app, Hcl, received_broadcast_absent by done.
  by rewrite IH.
Qed.

(** X2 — Fan-out.  Whatever the process prints, chunk after chunk, reaches
    every registered client whole, once and in the order printed, and
    reaches no one else; the output a client has missed while it was not
    registered is not sent to it by the broadcast. *)
Theorem broadcast_reaches_exactly_the_registered (c : TerminalClient)
    (ds : list Buffer) (s : state) :
  NoDup (clients s) →
  received c (onDataAll ds s).2 =
    (if bool_decide (c ∈ clients s) then Buffer_concat ds else []) ∧
  clients (onDataAll ds s).1 = clients s.
Proof.
  intros Hnd. split.
  - case_bool_decide.
    + by apply received_onDataAll.
    + by apply received_onDataAll_absent.
  - rewrite onDataAll_state. apply appendAll_clients.
Qed.

Lemma broadcast_reaches_exactly_the_registered_witness :
  NoDup (clients (addClient 4%nat (addClient 9%nat initial).1).1) ∧
  received 9%nat
    (onDataAll [[x6f]; [x6b; x0a]]
       (addClient 4%nat (addClient 9%nat initial).1).1).2 = [x6f; x6b; x0a] ∧
  received 7%nat
    (onDataAll [[x6f]; [x6b; x0a]]
       (addClient 4%nat (addClient 9%nat initial).1).1).2 = [].
Proof.
  assert (NoDup (clients (addClient 4%nat (addClient 9%nat initial).1).1))
    as Hnd by (apply Set_add_NoDup, Set_add_NoDup, NoDup_nil_2).
  split; [exact Hnd|].
  split.
  - exact (proj1 (broadcast_reaches_exactly_the_registered 9%nat
                    [[x6f]; [x6b; x0a]] _ Hnd)).
  - exact (proj1 (broadcast_reaches_exactly_the_registered 7%nat
                    [[x6f]; [x6b; x0a]] _ Hnd)).
Defined.

(** X3 — Deregistration.  [removeClient] takes the client out of the set
    and touches nothing else: every other client stays registered, the
    scrollback and the process are as they were.  Doing it again, or doing
    it for a client that was never registered, changes nothing.  From then
    on the client gets none of the output, while the clients that are
    still registered, if there are any, get all of it. *)
Theorem removeClient_stops_delivery (c : TerminalClient)
    (ds : list Buffer) (s : state) :
  (c ∉ clients (removeClient c s).1) ∧
  (∀ c', c' ∈ clients (removeClient c s).1 ↔ c' ∈ clients s ∧ c' ≠ c) ∧
  (removeClient c (removeClient c s).1).1 = (removeClient c s).1 ∧
  (c ∉ clients s → (removeClient c s).1 = s) ∧
  scrollbackChunks (removeClient c s).1 = scrollbackChunks s ∧
  scrollbackSize (removeClient c s).1 = scrollbackSize s ∧
  getProc (removeClient c s).1 = getProc s ∧
  received c (onDataAll ds (removeClient c s).1).2 = [] ∧
  (NoDup (clients s) →
   ∀ c', received c' (onDataAll ds (removeClient c s).1).2 =
           if bool_decide (c' ∈ clients s ∧ c' ≠ c)
           then Buffer_concat ds else []).
Proof.
  assert (c ∉ Set_delete c (clients s)) as Hgone.
  { rewrite Set_delete_elem. tauto. }
  unfold removeClient.
  cbn [fst with_clients clients scrollbackChunks scrollbackSize getProc
       shellProc].
  split_and!.
  - done.
  - intros c'. apply Set_delete_elem.
  - unfold with_clients. cbn. by rewrite Set_delete_absent.
  - intros Hnin. rewrite Set_delete_absent by done. by destruct s.
  - done.
  - done.
  - done.
  - by apply received_onDataAll_absent.
  - intros Hnd c'. case_bool_decide as Hc'.
    + apply received_onDataAll; cbn [with_clients clients].
      * by apply Set_delete_NoDup.
      * by apply Set_delete_elem.
    + apply received_onDataAll_absent. cbn [with_clients clients].
      by rewrite Set_delete_elem.
Qed.

Lemma removeClient_stops_delivery_witness :
  NoDup (clients (addClient 4%nat (addClient 9%nat initial).1).1) ∧
  received 9%nat
    (onDataAll [[x6f]; [x6b]]
       (removeClient 9%nat
          (addClient 4%nat (addClient 9%nat initial).1).1).1).2 = [] ∧
  received 4%nat
    (onDataAll [[x6f]; [x6b]]
       (removeClient 9%nat
          (addClient 4%nat (addClient 9%nat initial).1).1).1).2 = [x6f; x6b] ∧
  received 4%nat
    (onDataAll [[x6f]; [x6b]]
       (removeClient 4%nat (addClient 4%nat initial).1).1).2 = [].
Proof.
  assert (NoDup (clients (addClient 4%nat (addClient 9%nat initial).1).1))
    as Hnd by (apply Set_add_NoDup, Set_add_NoDup, NoDup_nil_2).
  pose proof (removeClient_stops_delivery 9%nat [[x6f]; [x6b]]
                (addClient 4%nat (addClient 9%nat initial).1).1)
    as (_ & _ & _ & _ & _ & _ & _ & Hnone & Hall).
  pose proof (removeClient_stops_delivery 4%nat [[x6f]; [x6b]]
                (addClient 4%nat initial).1)
    as (_ & _ & _ & _ & _ & _ & _ & Hlone & _).
  split; [exact Hnd|]. split; [exact Hnone|].
  split; [exact (Hall Hnd 4%nat) | exact Hlone].
Defined.

Lemma appendScrollback_bindings (d : Buffer) (s : state) :
  terminal (appendScrollback d s) = terminal s ∧
  shellProc (appendScrollback d s) = shellProc s.
Proof. unfold appendScrollback. by destruct (trimScrollback _ _). Qed.

Lemma apply_sound (op : Op) (s : state) : sound s → sound (apply op s).1.
Proof.
  intros Hs. pose proof Hs as (Hok & Hcap & Hnd & Hpair).
  destruct op as [d|c|c|d|tmux proc name|tmux proc name|tmux keep|];
    cbn [apply].
  - cbn [onData fst].
    destruct (appendScrollback_spec d s Hok) as (Hok' & Hcap' & _).
    destruct (appendScrollback_bindings d s) as [Ht Hp].
    split_and!; try done.
    + by rewrite appendScrollback_clients.
    + by rewrite Ht, Hp.
  - cbn [addClient fst]. split_and!; try done.
    by apply Set_add_NoDup.
  - cbn [removeClient fst]. split_and!; try done.
    by apply Set_delete_NoDup.
  - unfold writeToTerminal. by destruct (terminal s) eqn:Heq.
  - unfold spawnTerminal. destruct tmux as [bin|]; [|done].
    destruct (truthy (Some bin)); [|done].
    cbn [default fst]. split_and!; try done.
    left. unfold MAX_SCROLLBACK. cbn. lia.
  - unfold attachTerminal. destruct tmux as [bin|]; [|done].
    destruct (truthy (Some bin)); [|done].
    cbn [default fst]. split_and!; try done.
    left. unfold MAX_SCROLLBACK. cbn. lia.
  - unfold sound, size_ok in *.
    cbn [killTerminal fst terminal shellProc clients scrollbackChunks
         scrollbackSize]. by split_and!.
  - unfold sound, size_ok in *.
    cbn [procExits fst terminal shellProc clients scrollbackChunks
         scrollbackSize]. split_and!; try done.
    rewrite Hpair. by destruct (shellProc s).
Qed.

(** X4 — The invariant of the module.  Whatever sequence of output,
    registrations, deregistrations, keystrokes, spawns, attaches (failed
    ones included), teardowns and process exits has happened since the
    module was loaded: the running byte total is the number of bytes held;
    it is within the cap unless a single chunk is held; no client is
    registered twice; and [terminal] and [shellProc] are set or unset
    together. *)
Theorem reachable_states_are_sound (ops : list Op) :
  sound (applyAll ops initial).1.
Proof.
  assert (∀ s, sound s → sound (applyAll ops s).1) as Hall.
  { induction ops as [|op ops IH]; intros s Hs; [done|].
    cbn [applyAll]. pose proof (apply_sound op s Hs) as Hs1.
    destruct (apply op s) as [s1 l1]. specialize (IH s1 Hs1).
    by destruct (applyAll ops s1). }
  apply Hall. split_and!; try done.
  - left. unfold MAX_SCROLLBACK. cbn. lia.
  - apply NoDup_nil_2.
Qed.

(** X5 — Spawn and attach.  When no tmux binary is found both throw,
    before anything is assigned.  When one is found and [Bun.spawn] hands
    back the subprocess [proc], both leave the same bindings, whether or
    not any client is registered: the new process is the current one, the
    replay history is empty, so a client that registers next is replayed
    nothing, the client set is as it was, every registered client receives
    the new process's output in full and no one else receives any, and the
    history then holds only output of the new process. *)
Theorem restart_keeps_clients_drops_history (tmux : option string)
    (proc : Proc) (name : string) (s : state) (ds : list Buffer) :
  (truthy tmux = false →
   spawnTerminal tmux proc name s = None ∧
   attachTerminal tmux proc name s = None) ∧
  (truthy tmux = true →
   ∃ s' e1 e2,
     spawnTerminal tmux proc name s = Some (s', e1) ∧
     attachTerminal tmux proc name s = Some (s', e2) ∧
     getProc s' = Some proc ∧
     tmuxSession s' = Some name ∧
     clients s' = clients s ∧
     getScrollbackBuffer s' = [] ∧
     (∀ c', (addClient c' s').2 = [ClientsAdd c']) ∧
     (NoDup (clients s) →
      ∀ c, received c (onDataAll ds s').2 =
             if bool_decide (c ∈ clients s) then Buffer_concat ds else []) ∧
     ∃ dropped,
       Buffer_concat ds =
         Buffer_concat dropped ++ getScrollbackBuffer (onDataAll ds s').1).
Proof.
  split.
  - intros Hno. unfold spawnTerminal, attachTerminal.
    destruct tmux as [bin|]; [|done]. by rewrite Hno.
  - intros Hyes. unfold spawnTerminal, attachTerminal.
    destruct tmux as [bin|]; [|done]. rewrite Hyes.
    eexists _, _, _. split_and!; try done.
    + intros Hnd c. case_bool_decide.
      * by apply received_onDataAll.
      * by apply received_onDataAll_absent.
    + rewrite onDataAll_state.
      destruct (appendAll_fresh ds (install proc name s) eq_refl eq_refl)
        as [_ [dropped Hdrop]].
      exists dropped. unfold getScrollbackBuffer, Buffer_concat.
      rewrite <- concat_app. f_equal. exact Hdrop.
Qed.

Lemma restart_keeps_clients_drops_history_witness :
  truthy (Some "/usr/bin/tmux") = true ∧
  (∃ s' e1 e2,
     spawnTerminal (Some "/usr/bin/tmux") (mkProc 1 false false) "work"
       initial = Some (s', e1) ∧
     attachTerminal (Some "/usr/bin/tmux") (mkProc 1 false false) "work"
       initial = Some (s', e2) ∧
     getProc s' = Some (mkProc 1 false false) ∧
     clients s' = []) ∧
  NoDup (clients (onDataAll [[x6f; x6c; x64]] (addClient 9%nat initial).1).1) ∧
  ∃ s' e1 e2,
    spawnTerminal (Some "/usr/bin/tmux") (mkProc 2 false false) "work"
      (onDataAll [[x6f; x6c; x64]] (addClient 9%nat initial).1).1
      = Some (s', e1) ∧
    attachTerminal (Some "/usr/bin/tmux") (mkProc 2 false false) "work"
      (onDataAll [[x6f; x6c; x64]] (addClient 9%nat initial).1).1
      = Some (s', e2) ∧
    getScrollbackBuffer s' = [] ∧
    received 9%nat (onDataAll [[x6e; x65; x77]] s').2 = [x6e; x65; x77] ∧
    received 4%nat (onDataAll [[x6e; x65; x77]] s').2 = [].
Proof.
  assert (truthy (Some "/usr/bin/tmux") = true) as Hyes by reflexivity.
  assert (NoDup (clients (onDataAll [[x6f; x6c; x64]]
                            (addClient 9%nat initial).1).1)) as Hnd
    by (apply Set_add_NoDup, NoDup_nil_2).
  split; [exact Hyes|]. split.
  - destruct (proj2 (restart_keeps_clients_drops_history
                       (Some "/usr/bin/tmux") (mkProc 1 false false) "work"
                       initial []) Hyes)
      as (s' & e1 & e2 & H1 & H2 & Hproc & _ & Hclients & _).
    exists s', e1, e2. split_and!; assumption.
  - split; [exact Hnd|].
    destruct (proj2 (restart_keeps_clients_drops_history
                       (Some "/usr/bin/tmux") (mkProc 2 false false) "work"
                       (onDataAll [[x6f; x6c; x64]]
                          (addClient 9%nat initial).1).1
                       [[x6e; x65; x77]]) Hyes)
      as (s' & e1 & e2 & H1 & H2 & _ & _ & _ & Hempty & _ & Hrecv & _).
    exists s', e1, e2. split_and!; try assumption.
    + exact (Hrecv Hnd 9%nat).
    + exact (Hrecv Hnd 4%nat).
Defined.

(** X6 — Teardown.  After [killTerminal] no session is installed and
    resizing does nothing.  The process is sent SIGTERM exactly when
    there is one that has not been killed already, and tmux is told to
    kill the session only if the session is not to be kept.  A second
    teardown signals nothing and changes nothing.  The client set and
    the replay history survive: a client that registers after the
    teardown is replayed what one registering before it would have
    been. *)
Theorem killTerminal_tears_down (tmux tmux' : option string)
    (keepSession keepSession' : bool) (s : state) (c : TerminalClient)
    (cols rows : JsNumber) :
  sessionState (killTerminal tmux keepSession s).1 = Absent ∧
  getProc (killTerminal tmux keepSession s).1 = None ∧
  resizeTerminal cols rows (killTerminal tmux keepSession s).1 = None ∧
  (∀ p, Kill p ∈ (killTerminal tmux keepSession s).2 ↔
        ∃ proc, shellProc s = Some proc ∧ proc_killed proc = false ∧
                p = proc_id proc) ∧
  (∀ argv, SpawnSync argv ∈ (killTerminal tmux keepSession s).2 →
           keepSession = false) ∧
  (∀ p, Kill p ∉ (killTerminal tmux' keepSession'
                    (killTerminal tmux keepSession s).1).2) ∧
  (killTerminal tmux' keepSession' (killTerminal tmux keepSession s).1).1 =
    (killTerminal tmux keepSession s).1 ∧
  clients (killTerminal tmux keepSession s).1 = clients s ∧
  (addClient c (killTerminal tmux keepSession s).1).2 = (addClient c s).2.
Proof.
  split_and!; try done.
  - intros p. unfold killTerminal. cbn [snd].
    rewrite elem_of_app. split.
    + intros [Hin|Hin].
      * destruct keepSession; [by apply elem_of_nil in Hin|].
        destruct tmux as [bin|], (tmuxSession s) as [nm|];
          try (by apply elem_of_nil in Hin).
        destruct (truthy (Some bin) && truthy (Some nm));
          [|by apply elem_of_nil in Hin].
        apply list_elem_of_singleton in Hin. discriminate Hin.
      * destruct (shellProc s) as [proc|]; [|by apply elem_of_nil in Hin].
        destruct (proc_killed proc) eqn:Hk; [by apply elem_of_nil in Hin|].
        apply list_elem_of_singleton in Hin. injection Hin as ->.
        by exists proc.
    + intros (proc & Hp & Hk & ->). right. rewrite Hp, Hk.
      by apply list_elem_of_singleton.
  - intros argv. unfold killTerminal. cbn [snd].
    rewrite elem_of_app. intros [Hin|Hin].
    + destruct keepSession; [by apply elem_of_nil in Hin|done].
    + destruct (shellProc s) as [proc|]; [|by apply elem_of_nil in Hin].
      destruct (proc_killed proc); [by apply elem_of_nil in Hin|].
      apply list_elem_of_singleton in Hin. discriminate Hin.
  - intros p. unfold killTerminal. cbn [snd fst shellProc tmuxSession].
    rewrite app_nil_r.
    destruct keepSession'; [apply not_elem_of_nil|].
    destruct tmux' as [bin|], (tmuxSession s) as [nm|];
      try apply not_elem_of_nil.
    destruct (truthy (Some bin) && truthy (Some nm));
      [|apply not_elem_of_nil].
    intros Hin. apply list_elem_of_singleton in Hin. discriminate Hin.
Qed.

(** What clamping leaves of a requested size: NaN stays NaN, everything
    else becomes a whole number between the bounds. *)
Lemma clamp_floor (lo hi : Z) (x : JsNumber) :
  lo ≤ hi →
  Math_max (ofZ lo) (Math_min (ofZ hi) (Math_floor x)) =
    match x with
    | NaN => NaN
    | PosInfinity => ofZ hi
    | NegInfinity => ofZ lo
    | Finite q => ofZ (Z.max lo (Z.min hi (Qround.Qfloor q)))
    end.
Proof.
  intros Hle.
  assert (∀ a b, QArith_base.Qle_bool (QArith_base.inject_Z a)
                   (QArith_base.inject_Z b) = (a <=? b)) as Hcmp.
  { intros a b. unfold QArith_base.Qle_bool. simpl. by rewrite !Z.mul_1_r. }
  destruct x as [q| | |]; cbn [Math_floor Math_min Math_max ofZ]; try done.
  - rewrite Hcmp.
    destruct (Z.leb_spec hi (Qround.Qfloor q)); cbn [Math_max ofZ];
      rewrite Hcmp.
    + destruct (Z.leb_spec lo hi); [|lia]. f_equal. f_equal. lia.
    + destruct (Z.leb_spec lo (Qround.Qfloor q)); f_equal; f_equal; lia.
  - rewrite Hcmp. destruct (Z.leb_spec lo hi); [done|lia].
Qed.

(** X7 — Resize.  Without a terminal [resizeTerminal] does nothing.  With
    one, the size handed on is, in each dimension, the request rounded
    down and moved into range: columns between 1 and 500, rows between 1
    and 200, an in-range whole request unchanged, an infinite one at the
    nearer bound.  Only NaN is not caught: it is handed on as NaN. *)
Theorem resizeTerminal_clamps (cols rows : JsNumber) (s : state) :
  resizeTerminal cols rows s =
    match terminal s with
    | None => None
    | Some t =>
        Some (t,
              match cols with
              | NaN => NaN
              | PosInfinity => ofZ 500
              | NegInfinity => ofZ 1
              | Finite q => ofZ (Z.max 1 (Z.min 500 (Qround.Qfloor q)))
              end,
              match rows with
              | NaN => NaN
              | PosInfinity => ofZ 200
              | NegInfinity => ofZ 1
              | Finite q => ofZ (Z.max 1 (Z.min 200 (Qround.Qfloor q)))
              end)
    end ∧
  (∀ q, 1 ≤ Z.max 1 (Z.min 500 (Qround.Qfloor q)) ≤ 500 ∧
        1 ≤ Z.max 1 (Z.min 200 (Qround.Qfloor q)) ≤ 200) ∧
  (∀ c r t, terminal s = Some t → 1 ≤ c ≤ 500 → 1 ≤ r ≤ 200 →
            resizeTerminal (ofZ c) (ofZ r) s = Some (t, ofZ c, ofZ r)).
Proof.
  assert (resizeTerminal cols rows s =
          match terminal s with
          | None => None
          | Some t =>
              Some (t,
                    match cols with
                    | NaN => NaN
                    | PosInfinity => ofZ 500
                    | NegInfinity => ofZ 1
                    | Finite q => ofZ (Z.max 1 (Z.min 500 (Qround.Qfloor q)))
                    end,
                    match rows with
                    | NaN => NaN
                    | PosInfinity => ofZ 200
                    | NegInfinity => ofZ 1
                    | Finite q => ofZ (Z.max 1 (Z.min 200 (Qround.Qfloor q)))
                    end)
          end) as Hgen.
  { unfold resizeTerminal. destruct (terminal s) as [t|]; [|done].
    rewrite (clamp_floor MIN_COLS MAX_COLS cols) by done.
    by rewrite (clamp_floor MIN_ROWS MAX_ROWS rows). }
  split_and!.
  - exact Hgen.
  - intros q. lia.
  - intros c r t Ht Hc Hr. unfold resizeTerminal. rewrite Ht.
    rewrite (clamp_floor MIN_COLS MAX_COLS (ofZ c)) by done.
    rewrite (clamp_floor MIN_ROWS MAX_ROWS (ofZ r)) by done.
    unfold ofZ. cbv iota. rewrite !Qround.Qfloor_Z.
    unfold MIN_COLS, MAX_COLS, MIN_ROWS, MAX_ROWS.
    replace (Z.max 1 (Z.min 500 c)) with c by lia.
    by replace (Z.max 1 (Z.min 200 r)) with r by lia.
Qed.

Lemma resizeTerminal_clamps_witness :
  terminal (install (mkProc 1 false false) "work" initial) = Some 1%nat ∧
  resizeTerminal (ofZ 132) (ofZ 43)
    (install (mkProc 1 false false) "work" initial) =
    Some (1%nat, ofZ 132, ofZ 43).
Proof.
  assert (terminal (install (mkProc 1 false false) "work" initial)
          = Some 1%nat) as Ht by reflexivity.
  split; [exact Ht|].
  apply (proj2 (proj2 (resizeTerminal_clamps (ofZ 132) (ofZ 43)
                         (install (mkProc 1 false false) "work" initial))));
    [exact Ht|lia|lia].
Defined.

End TerminalFurther.

(* ===================================================================== *)
(** ** Further properties of the authentication handler *)
(* ===================================================================== *)

Section AuthFurther.
Import SshServer.

Implicit Types (m : gmap string AuthRecord) (ip pw : string).

Lemma timingSafeEqual_same_length (a b : Terminal.Buffer) :
  Terminal.blen a = Terminal.blen b →
  timingSafeEqual a b = Some (bool_decide (a = b)).
Proof. intros Heq. unfold timingSafeEqual. by rewrite Heq, Z.eqb_refl. Qed.

(** The handler, branch by branch, in terms of what the lockout check
    returned. *)
Lemma onAuthentication_cases pw ip (ctx : AuthContext) now now' m :
  onAuthentication (Some pw) ip ctx now now' m =
    let m1 := (isLockedOut ip now m).2 in
    if (isLockedOut ip now m).1 then
      (m1, [Log (AuthRejectedLockedOut ip); CtxReject ["password"]])
    else if String.eqb (method ctx) "password" then
      if bool_decide (Buffer_from (password ctx) = Buffer_from pw) then
        (delete ip m1,
         [CallTimingSafeEqual (Buffer_from (password ctx)) (Buffer_from pw);
          Log (AuthAccepted ip); CtxAccept])
      else
        ((recordAuthFailure ip now' m1).2,
         (if Terminal.blen (Buffer_from (password ctx)) =?
             Terminal.blen (Buffer_from pw)
          then [CallTimingSafeEqual (Buffer_from (password ctx))
                  (Buffer_from pw)]
          else []) ++
         [Log (AuthFailed ip (recordAuthFailure ip now' m1).1);
          CtxReject ["password"]])
    else (m1, [CtxReject ["password"]]).
Proof.
  unfold onAuthentication.
  destruct (isLockedOut ip now m) as [locked m1]. cbn [fst snd].
  destruct locked; [done|].
  destruct (String.eqb (method ctx) "password"); [|done].
  destruct (Z.eqb_spec (Terminal.blen (Buffer_from (password ctx)))
              (Terminal.blen (Buffer_from pw))) as [Hlen|Hlen].
  - rewrite timingSafeEqual_same_length by done.
    case_bool_decide; [done|].
    by destruct (recordAuthFailure ip now' m1).
  - rewrite bool_decide_eq_false_2
      by (intros Heq; by rewrite Heq in Hlen).
    by destruct (recordAuthFailure ip now' m1).
Qed.

(** X8 — Who gets in.  With a password configured, an attempt is accepted
    exactly when the source is not locked out, the method is "password"
    and the supplied password has the same bytes as the configured one; an
    accepted attempt leaves the source without a failure record. *)
Theorem accepts_exactly_the_password pw ip (ctx : AuthContext) (now now' : Z)
    m :
  (verdict (onAuthentication (Some pw) ip ctx now now' m).2 = Some Accept ↔
   (isLockedOut ip now m).1 = false ∧
   method ctx = "password" ∧
   Buffer_from (password ctx) = Buffer_from pw) ∧
  (verdict (onAuthentication (Some pw) ip ctx now now' m).2 = Some Accept →
   (onAuthentication (Some pw) ip ctx now now' m).1 !! ip = None).
Proof.
  rewrite onAuthentication_cases. cbv zeta.
  destruct (isLockedOut ip now m).1.
  { split; [split|]; [done| |done]. by intros [? _]. }
  destruct (String.eqb_spec (method ctx) "password") as [Hm|Hm].
  2:{ split; [split|]; [done| |done]. by intros (_ & ? & _). }
  case_bool_decide as Hpw.
  - cbn [fst snd]. split; [done|]. intros _. apply lookup_delete_eq.
  - cbn [fst snd]. rewrite verdict_failed by (by destruct (_ =? _)).
    split; [split|].
    + by destruct (recordAuthFailure _ _ _).1.
    + by intros (_ & _ & ?).
    + by destruct (recordAuthFailure _ _ _).1.
Qed.

Lemma accepts_exactly_the_password_witness :
  verdict
    (onAuthentication (Some "hunter2") "10.0.0.7" (mkCtx "password" "hunter2")
       1000 1001 {[ "10.0.0.7" := mkRecord 3 0 ]}).2 = Some Accept ∧
  (onAuthentication (Some "hunter2") "10.0.0.7" (mkCtx "password" "hunter2")
     1000 1001 {[ "10.0.0.7" := mkRecord 3 0 ]}).1 !! "10.0.0.7" = None.
Proof.
  assert (verdict
            (onAuthentication (Some "hunter2") "10.0.0.7"
               (mkCtx "password" "hunter2") 1000 1001
               {[ "10.0.0.7" := mkRecord 3 0 ]}).2 = Some Accept) as Hv
    by (vm_compute; reflexivity).
  split; [exact Hv|].
  exact (proj2 (accepts_exactly_the_password "hunter2" "10.0.0.7"
                  (mkCtx "password" "hunter2") 1000 1001
                  {[ "10.0.0.7" := mkRecord 3 0 ]}) Hv).
Defined.

(** X9 — One answer per attempt.  Whatever is configured and whatever
    arrives, the handler calls exactly one of [ctx.accept()] and
    [ctx.reject(...)], a rejection always offering "password" as the
    method to try next; [timingSafeEqual] is called at most once, only on
    buffers of equal length, and its [RangeError] never happens. *)
Theorem every_attempt_is_answered_once (expected : option string) ip
    (ctx : AuthContext) (now now' : Z) m :
  (answers (onAuthentication expected ip ctx now now' m).2 = [CtxAccept] ∨
   answers (onAuthentication expected ip ctx now now' m).2 =
     [CtxReject ["password"]]) ∧
  existsb is_throw (onAuthentication expected ip ctx now now' m).2 = false ∧
  (length (filter (λ e, is_compare e = true)
             (onAuthentication expected ip ctx now now' m).2) ≤ 1)%nat ∧
  (∀ a b, CallTimingSafeEqual a b ∈
            (onAuthentication expected ip ctx now now' m).2 →
          Terminal.blen a = Terminal.blen b).
Proof.
  destruct expected as [pw|].
  2:{ split_and!; [by left|done|first [exact (le_n 1) | exact (le_S 0 0 (le_n 0))]|].
      intros a b Hin. cbn in Hin.
      repeat (apply elem_of_cons in Hin as [Hin|Hin]; [discriminate Hin|]).
      by apply elem_of_nil in Hin. }
  rewrite onAuthentication_cases. cbv zeta.
  destruct (isLockedOut ip now m).1.
  { split_and!; [by right|done|first [exact (le_n 1) | exact (le_S 0 0 (le_n 0))]|].
    intros a b Hin. cbn in Hin.
    repeat (apply elem_of_cons in Hin as [Hin|Hin]; [discriminate Hin|]).
    by apply elem_of_nil in Hin. }
  destruct (String.eqb (method ctx) "password").
  2:{ split_and!; [by right|done|first [exact (le_n 1) | exact (le_S 0 0 (le_n 0))]|].
      intros a b Hin. cbn in Hin.
      repeat (apply elem_of_cons in Hin as [Hin|Hin]; [discriminate Hin|]).
      by apply elem_of_nil in Hin. }
  case_bool_decide as Hpw.
  - split_and!; [by left|done|first [exact (le_n 1) | exact (le_S 0 0 (le_n 0))]|].
    intros a b Hin. cbn in Hin.
    apply elem_of_cons in Hin as [Hin|Hin].
    + injection Hin as -> ->. by rewrite Hpw.
    + repeat (apply elem_of_cons in Hin as [Hin|Hin]; [discriminate Hin|]).
      by apply elem_of_nil in Hin.
  - destruct (Z.eqb_spec (Terminal.blen (Buffer_from (password ctx)))
                (Terminal.blen (Buffer_from pw))) as [Hlen|Hlen].
    + split_and!; [by right|done|first [exact (le_n 1) | exact (le_S 0 0 (le_n 0))]|].
      intros a b Hin. cbn in Hin.
      apply elem_of_cons in Hin as [Hin|Hin].
      * by injection Hin as -> ->.
      * repeat (apply elem_of_cons in Hin as [Hin|Hin]; [discriminate Hin|]).
        by apply elem_of_nil in Hin.
    + split_and!; [by right|done|first [exact (le_n 1) | exact (le_S 0 0 (le_n 0))]|].
      intros a b Hin. cbn in Hin.
      repeat (apply elem_of_cons in Hin as [Hin|Hin]; [discriminate Hin|]).
      by apply elem_of_nil in Hin.
Qed.

Lemma isLockedOut_other ip other now m :
  other ≠ ip → (isLockedOut ip now m).2 !! other = m !! other.
Proof.
  intros Hne. unfold isLockedOut. destruct (m !! ip) as [record|]; [|done].
  destruct (expired now record); [|done]. cbn [snd].
  by rewrite lookup_delete_ne.
Qed.

Lemma recordAuthFailure_other ip other now m :
  other ≠ ip → (recordAuthFailure ip now m).2 !! other = m !! other.
Proof.
  intros Hne. unfold recordAuthFailure.
  destruct (_ >=? _); cbn [snd]; by rewrite lookup_insert_ne.
Qed.

(** X10 — Sources are kept apart.  An attempt from one address never
    changes the failure record of another address, whatever the attempt
    and however it ends. *)
Theorem attempt_touches_only_its_source (expected : option string) ip other
    (ctx : AuthContext) (now now' : Z) m :
  other ≠ ip →
  (onAuthentication expected ip ctx now now' m).1 !! other = m !! other.
Proof.
  intros Hne. destruct expected as [pw|]; [|done].
  rewrite onAuthentication_cases. cbv zeta.
  destruct (isLockedOut ip now m).1; cbn [fst].
  { by apply isLockedOut_other. }
  destruct (String.eqb (method ctx) "password"); cbn [fst].
  2:{ by apply isLockedOut_other. }
  case_bool_decide; cbn [fst].
  - rewrite lookup_delete_ne by done. by apply isLockedOut_other.
  - rewrite recordAuthFailure_other by done. by apply isLockedOut_other.
Qed.

Lemma attempt_touches_only_its_source_witness :
  "10.0.0.8" ≠ "10.0.0.7" ∧
  (onAuthentication (Some "hunter2") "10.0.0.7" (mkCtx "password" "guess")
     1000 1001 {[ "10.0.0.8" := mkRecord 4 0 ]}).1 !! "10.0.0.8"
    = Some (mkRecord 4 0).
Proof.
  assert ("10.0.0.8" ≠ "10.0.0.7") as Hne by discriminate.
  split; [exact Hne|].
  rewrite (attempt_touches_only_its_source (Some "hunter2") "10.0.0.7"
             "10.0.0.8" (mkCtx "password" "guess") 1000 1001
             {[ "10.0.0.8" := mkRecord 4 0 ]} Hne).
  apply lookup_singleton_eq.
Defined.

Lemma failures_ok_delete ip m : failures_ok m → failures_ok (delete ip m).
Proof.
  intros Hok other record Hl.
  destruct (decide (other = ip)) as [->|Hne].
  - by rewrite lookup_delete_eq in Hl.
  - rewrite lookup_delete_ne in Hl by done. by eapply Hok.
Qed.

Lemma failures_ok_insert ip record m :
  record_ok record → failures_ok m → failures_ok (<[ip := record]> m).
Proof.
  intros Hr Hok other record' Hl.
  destruct (decide (other = ip)) as [->|Hne].
  - rewrite lookup_insert_eq in Hl. by injection Hl as <-.
  - rewrite lookup_insert_ne in Hl by done. by eapply Hok.
Qed.

(** What the lockout check leaves when it lets an attempt through: a map
    that is still well formed, in which the source has no record or one
    below the limit with no lockout. *)
Lemma isLockedOut_lets_through ip now m :
  failures_ok m → (isLockedOut ip now m).1 = false →
  failures_ok (isLockedOut ip now m).2 ∧
  ∃ k, stands_at (isLockedOut ip now m).2 ip k ∧ 0 ≤ k < MAX_AUTH_FAILURES.
Proof.
  intros Hok. unfold isLockedOut, stands_at.
  destruct (m !! ip) as [record|] eqn:Hm; cbn [fst snd].
  - destruct (expired now record); cbn [fst snd].
    + intros _. split; [by apply failures_ok_delete|].
      exists 0. rewrite lookup_delete_eq. done.
    + intros Hlow. split; [done|]. rewrite Hm. cbn [default].
      destruct (Z.geb_spec (count record) MAX_AUTH_FAILURES); [done|].
      destruct (Hok ip record Hm) as [[Hc Hl]|[Hc _]]; [|lia].
      exists (count record). destruct record as [c l]. simpl in *.
      subst l. split; [done|lia].
  - intros _. split; [done|]. exists 0. by rewrite Hm.
Qed.

(** X11 — The shape of the failure map.  Starting from the empty map,
    every record the handler ever leaves carries one to four failures and
    no lockout, or exactly five failures and a lockout deadline: the count
    never passes five, and a lockout is set exactly when the count is
    five.  (The clock is taken to be non-negative.) *)
Theorem failure_records_stay_well_formed (expected : option string) ip
    (ctx : AuthContext) (now now' : Z) m :
  0 ≤ now' →
  failures_ok m →
  failures_ok ∅ ∧
  failures_ok (onAuthentication expected ip ctx now now' m).1.
Proof.
  intros Hclock Hok. split; [intros ? ? Hl; by rewrite lookup_empty in Hl|].
  destruct expected as [pw|]; [|done].
  rewrite onAuthentication_cases. cbv zeta.
  destruct (isLockedOut ip now m).1 eqn:Hlocked; cbn [fst].
  { unfold isLockedOut in *. destruct (m !! ip) as [record|]; [|done].
    destruct (expired now record); [|done]. by apply failures_ok_delete. }
  destruct (isLockedOut_lets_through ip now m Hok Hlocked)
    as (Hok1 & k & Hst & Hk).
  destruct (String.eqb (method ctx) "password"); cbn [fst]; [|done].
  case_bool_decide; cbn [fst].
  - by apply failures_ok_delete.
  - rewrite (recordAuthFailure_stands_at _ ip now' k Hst).
    destruct (Z.geb_spec (k + 1) MAX_AUTH_FAILURES); cbn [snd];
      apply failures_ok_insert; try done.
    + right. cbn. unfold MAX_AUTH_FAILURES, AUTH_LOCKOUT_MS in *. lia.
    + left. cbn. unfold MAX_AUTH_FAILURES in *. lia.
Qed.

Lemma failure_records_stay_well_formed_witness :
  0 ≤ 5001 ∧
  failures_ok ({[ "10.0.0.7" := mkRecord 4 0 ]} : gmap string AuthRecord) ∧
  failures_ok
    (onAuthentication (Some "hunter2") "10.0.0.7" (mkCtx "password" "guess")
       5000 5001 {[ "10.0.0.7" := mkRecord 4 0 ]}).1.
Proof.
  assert (0 ≤ 5001) as Hclock by lia.
  assert (failures_ok
            ({[ "10.0.0.7" := mkRecord 4 0 ]} : gmap string AuthRecord))
    as Hok.
  { intros other record Hl.
    apply lookup_singleton_Some in Hl as [_ <-].
    left. cbn. unfold MAX_AUTH_FAILURES. lia. }
  split; [exact Hclock|]. split; [exact Hok|].
  exact (proj2 (failure_records_stay_well_formed (Some "hunter2") "10.0.0.7"
                  (mkCtx "password" "guess") 5000 5001 _ Hclock Hok)).
Defined.

(** Fewer wrong passwords than the limit, from a source standing at [k]:
    each is answered Reject and the source ends up standing at [k] plus
    their number. *)
Lemma tryPasswords_below_limit pw ip (ws : list Attempt) :
  ∀ m k,
    Forall (λ a, Buffer_from (supplied a) ≠ Buffer_from pw) ws →
    stands_at m ip k → 0 ≤ k →
    k + Z.of_nat (length ws) < MAX_AUTH_FAILURES →
    (tryPasswords (Some pw) ip ws m).1 = replicate (length ws) (Some Reject) ∧
    stands_at (tryPasswords (Some pw) ip ws m).2 ip (k + Z.of_nat (length ws)).
Proof.
  induction ws as [|a ws IH]; intros m k Hwrong Hst Hk Hlim.
  - cbn. by rewrite Z.add_0_r.
  - apply Forall_cons in Hwrong as [Ha Hwrong]. simpl length in *.
    destruct (tryPassword_wrong_stands_at pw ip a m k Ha Hst)
      as (log & Htry & Hv); [lia|].
    destruct (Z.geb_spec (k + 1) MAX_AUTH_FAILURES) as [Hover|_]; [lia|].
    rewrite tryPasswords_cons, Htry. cbn [fst snd].
    destruct (IH (<[ip := mkRecord (k + 1) 0]> m) (k + 1) Hwrong
                (stands_at_insert m ip (k + 1))) as [IHv IHs]; [lia|lia|].
    rewrite Hv, IHv. split; [done|].
    by replace (k + Z.of_nat (S (length ws)))
      with (k + 1 + Z.of_nat (length ws)) by lia.
Qed.

(** X12 — Success wipes the slate.  From a source with no record, up to
    four wrong passwords in a row are each answered Reject, the right
    password is then accepted whenever it comes, and it leaves the source
    without a record: failures before a success never count towards a
    later lockout. *)
Theorem success_resets_the_count pw ip m (ws : list Attempt) (now now' : Z) :
  m !! ip = None →
  Forall (λ a, Buffer_from (supplied a) ≠ Buffer_from pw) ws →
  (length ws < 5)%nat →
  (tryPasswords (Some pw) ip ws m).1 = replicate (length ws) (Some Reject) ∧
  verdict
    (tryPassword (Some pw) ip (mkAttempt pw now now')
       (tryPasswords (Some pw) ip ws m).2).2 = Some Accept ∧
  (tryPassword (Some pw) ip (mkAttempt pw now now')
     (tryPasswords (Some pw) ip ws m).2).1 !! ip = None.
Proof.
  intros Hfresh Hwrong Hlen.
  destruct (tryPasswords_below_limit pw ip ws m 0 Hwrong
              (stands_at_fresh m ip Hfresh)) as [Hv Hst];
    [done|unfold MAX_AUTH_FAILURES; lia|].
  split; [done|].
  assert (isLockedOut ip now (tryPasswords (Some pw) ip ws m).2 =
          (false, (tryPasswords (Some pw) ip ws m).2)) as Hl.
  { eapply isLockedOut_stands_at; [exact Hst|].
    unfold MAX_AUTH_FAILURES. lia. }
  rewrite tryPassword_right by (by rewrite Hl).
  cbn [fst snd]. split; [done|]. apply lookup_delete_eq.
Qed.

Lemma success_resets_the_count_witness :
  (∅ : gmap string AuthRecord) !! "10.0.0.7" = None ∧
  (tryPasswords (Some "hunter2") "10.0.0.7"
     [mkAttempt "a" 1000 1001; mkAttempt "b" 2000 2001;
      mkAttempt "c" 3000 3001; mkAttempt "d" 4000 4001] ∅).1 =
    [Some Reject; Some Reject; Some Reject; Some Reject] ∧
  (tryPassword (Some "hunter2") "10.0.0.7" (mkAttempt "hunter2" 5000 5001)
     (tryPasswords (Some "hunter2") "10.0.0.7"
        [mkAttempt "a" 1000 1001; mkAttempt "b" 2000 2001;
         mkAttempt "c" 3000 3001; mkAttempt "d" 4000 4001] ∅).2).1
    !! "10.0.0.7" = None.
Proof.
  assert ((∅ : gmap string AuthRecord) !! "10.0.0.7" = None) as Hfresh
    by apply lookup_empty.
  assert (Forall (λ a, Buffer_from (supplied a) ≠ Buffer_from "hunter2")
            [mkAttempt "a" 1000 1001; mkAttempt "b" 2000 2001;
             mkAttempt "c" 3000 3001; mkAttempt "d" 4000 4001]) as Hwrong
    by (repeat constructor; intros H; vm_compute in H; discriminate H).
  pose proof (success_resets_the_count "hunter2" "10.0.0.7" ∅ _ 5000 5001
                Hfresh Hwrong) as H.
  destruct H as (Hv & _ & Hgone); [simpl; lia|].
  split; [exact Hfresh|]. split; [exact Hv | exact Hgone].
Defined.

End AuthFurther.

(* ===================================================================== *)
(** ** Further properties of the connection bookkeeping *)
(* ===================================================================== *)

Section ConnectionFurther.
Import SshServer.

Lemma step_other_events opts ev sv :
  match ev with
  | EConnection _ _ | EClose _ | EError _ => True
  | _ =>
      activeConnections (step opts ev sv).1 = activeConnections sv ∧
      ∀ id, is_Some (handlers sv !! id) →
            is_Some (handlers (step opts ev sv).1 !! id)
  end.
Proof.
  destruct ev as [| id' ctx now now' | id' tc | id' data
                  | id' tc | id' tc | id' | |]; try done;
    cbn [step]; destruct (handlers sv !! id') as [c|] eqn:Hc; try done;
    try (destruct (ready c); done).
  destruct (onAuthentication _ _ _ _ _ _) as [failures log].
  cbn [fst activeConnections handlers]. split; [done|].
  intros id Hid. destruct (existsb is_accept log); [|done].
  destruct (decide (id = id')) as [->|Hne].
  - by rewrite lookup_insert_eq.
  - by rewrite lookup_insert_ne.
Qed.

Lemma step_tallied opts ev sv live :
  tallied opts sv live →
  match ev with
  | EConnection id _ => handlers sv !! id = None
  | EClose id | EError id => id ∈ live ∨ handlers sv !! id = None
  | _ => True
  end →
  tallied opts (step opts ev sv).1 (liveStep opts ev sv live).
Proof.
  intros (Hcount & Hheld & Hcap) Hev.
  destruct ev as [id addr|id ctx t1 t2|id termClient|id data
                  |id termClient|id termClient|id|id|id].
  - cbn [step liveStep]. rewrite onConnection_refused.
    unfold onConnection.
    destruct (Z.geb_spec (activeConnections sv) (maxConnections opts))
      as [Hfull|Hroom]; cbn [fst]; [done|].
    assert (id ∉ live) as Hnew.
    { intros Hin. destruct (Hheld id Hin) as [c Hc]. congruence. }
    split_and!; cbn [activeConnections handlers].
    + rewrite size_union by set_solver. rewrite size_singleton. lia.
    + intros id' [->%elem_of_singleton|Hin]%elem_of_union.
      * by rewrite lookup_insert_eq.
      * destruct (decide (id' = id)) as [->|Hne]; [done|].
        rewrite lookup_insert_ne by done. by apply Hheld.
    + lia.
  - pose proof (step_other_events opts (EAuthentication id ctx t1 t2) sv)
      as [Ha Hh].
    split_and!; cbn [liveStep]; [by rewrite Ha| |by rewrite Ha].
    intros id' Hin. by apply Hh, Hheld.
  - pose proof (step_other_events opts (EShell id termClient) sv) as [Ha Hh].
    split_and!; cbn [liveStep]; [by rewrite Ha| |by rewrite Ha].
    intros id' Hin. by apply Hh, Hheld.
  - pose proof (step_other_events opts (EStreamData id data) sv) as [Ha Hh].
    split_and!; cbn [liveStep]; [by rewrite Ha| |by rewrite Ha].
    intros id' Hin. by apply Hh, Hheld.
  - pose proof (step_other_events opts (EStreamClose id termClient) sv)
      as [Ha Hh].
    split_and!; cbn [liveStep]; [by rewrite Ha| |by rewrite Ha].
    intros id' Hin. by apply Hh, Hheld.
  - pose proof (step_other_events opts (EStreamError id termClient) sv)
      as [Ha Hh].
    split_and!; cbn [liveStep]; [by rewrite Ha| |by rewrite Ha].
    intros id' Hin. by apply Hh, Hheld.
  - pose proof (step_other_events opts (EIdleTimer id) sv) as [Ha Hh].
    split_and!; cbn [liveStep]; [by rewrite Ha| |by rewrite Ha].
    intros id' Hin. by apply Hh, Hheld.
  - cbn [step liveStep].
    destruct (handlers sv !! id) as [c|] eqn:Hc.
    + destruct Hev as [Hin|]; [|done].
      cbn [onClose fst]. split_and!; cbn [activeConnections handlers].
      * rewrite size_difference by set_solver. rewrite size_singleton.
        assert (size live ≠ 0%nat) as Hpos.
        { intros Hz. apply size_empty_inv in Hz. set_solver. }
        lia.
      * intros id' Hin'. apply Hheld.
        by apply elem_of_difference in Hin' as [? _].
      * lia.
    + cbn [fst]. assert (id ∉ live) as Hnot.
      { intros Hin. destruct (Hheld id Hin) as [c Hc']. congruence. }
      rewrite difference_disjoint_L; [done|].
      by apply disjoint_singleton_r.
  - cbn [step liveStep].
    destruct (handlers sv !! id) as [c|] eqn:Hc.
    + destruct Hev as [Hin|]; [|done].
      cbn [onError fst]. split_and!; cbn [activeConnections handlers].
      * rewrite size_difference by set_solver. rewrite size_singleton.
        assert (size live ≠ 0%nat) as Hpos.
        { intros Hz. apply size_empty_inv in Hz. set_solver. }
        lia.
      * intros id' Hin'. apply Hheld.
        by apply elem_of_difference in Hin' as [? _].
      * lia.
    + cbn [fst]. assert (id ∉ live) as Hnot.
      { intros Hin. destruct (Hheld id Hin) as [c Hc']. congruence. }
      rewrite difference_disjoint_L; [done|].
      by apply disjoint_singleton_r.
Qed.

Lemma run_tallied opts (evs : list Event) :
  ∀ sv live,
    tallied opts sv live → orderly opts evs sv live →
    tallied opts (run opts evs sv).1 (liveAfter opts evs sv live).
Proof.
  induction evs as [|ev evs IH]; intros sv live Ht Hord; [done|].
  destruct Hord as [Hev Hord]. cbn [run liveAfter].
  pose proof (step_tallied opts ev sv live Ht Hev) as Ht1.
  specialize (IH _ _ Ht1 Hord).
  destruct (step opts ev sv) as [sv1 l1]. cbn [fst] in *.
  by destruct (run opts evs sv1) as [sv2 l2].
Qed.

(** X13 — The counter under orderly events.  If ssh2 hands every
    connection to the callback as a new client and reports each
    connection's end once (a close or an error, not both), then after any
    run of events from a freshly started server [activeConnections] is
    exactly the number of connections that were let in and have not ended,
    it is never negative, and it never exceeds the configured limit. *)
Theorem orderly_runs_keep_the_count opts (evs : list Event)
    (hub : Terminal.state) :
  orderly opts evs (listening hub) ∅ →
  activeConnections (run opts evs (listening hub)).1 =
    Z.of_nat (size (liveAfter opts evs (listening hub) ∅)) ∧
  0 ≤ activeConnections (run opts evs (listening hub)).1 ∧
  activeConnections (run opts evs (listening hub)).1 ≤
    Z.max 0 (maxConnections opts).
Proof.
  intros Hord.
  assert (tallied opts (listening hub) ∅) as Ht.
  { split_and!; [done|set_solver|cbn; lia]. }
  destruct (run_tallied opts evs _ _ Ht Hord) as (Hcount & _ & Hcap).
  split_and!; [done|lia|done].
Qed.

Lemma orderly_runs_keep_the_count_witness :
  orderly (mkOptions (Some "hunter2") (Some 2) None)
    [EConnection 1%nat (Some "10.0.0.7"); EConnection 2%nat (Some "10.0.0.8");
     EConnection 3%nat (Some "10.0.0.9"); EError 1%nat; EClose 3%nat]
    (listening Terminal.initial) ∅ ∧
  activeConnections
    (run (mkOptions (Some "hunter2") (Some 2) None)
       [EConnection 1%nat (Some "10.0.0.7");
        EConnection 2%nat (Some "10.0.0.8");
        EConnection 3%nat (Some "10.0.0.9"); EError 1%nat; EClose 3%nat]
       (listening Terminal.initial)).1 =
    Z.of_nat
      (size (liveAfter (mkOptions (Some "hunter2") (Some 2) None)
               [EConnection 1%nat (Some "10.0.0.7");
                EConnection 2%nat (Some "10.0.0.8");
                EConnection 3%nat (Some "10.0.0.9"); EError 1%nat;
                EClose 3%nat]
               (listening Terminal.initial) ∅)).
Proof.
  assert (orderly (mkOptions (Some "hunter2") (Some 2) None)
            [EConnection 1%nat (Some "10.0.0.7");
             EConnection 2%nat (Some "10.0.0.8");
             EConnection 3%nat (Some "10.0.0.9"); EError 1%nat; EClose 3%nat]
            (listening Terminal.initial) ∅) as Hord.
  { cbn [orderly]. split_and!; try done.
    - left. cbn. set_solver.
    - right. reflexivity. }
  split; [exact Hord|].
  exact (proj1 (orderly_runs_keep_the_count _ _ _ Hord)).
Defined.

End ConnectionFurther.

(* ===================================================================== *)
(** ** Further properties of the watchdog *)
(* ===================================================================== *)

Section WatchdogFurther.
Import ProcessManager.

Lemma delay_in_range (n : Z) : 1 ≤ n → 2000 ≤ delay n ≤ 60000.
Proof.
  intros Hn. unfold delay.
  assert (2 ^ 1 ≤ 2 ^ n) by (apply Z.pow_le_mono_r; lia).
  assert (2 ^ 1 = 2) as H1 by done. lia.
Qed.

(** X14 — The backoff delay.  For a restart count of at least one the
    delay lies between two seconds and a minute; it doubles with each
    restart up to the fifth, is a minute from the sixth on, and never
    decreases as the count grows. *)
Theorem delay_bounds (n k : Z) :
  (1 ≤ n → 2000 ≤ delay n ≤ 60000) ∧
  (0 ≤ n ≤ 5 → delay n = 1000 * 2 ^ n ∧ delay (n + 1) ≤ 2 * delay n) ∧
  (0 ≤ n < 5 → delay (n + 1) = 2 * delay n) ∧
  (6 ≤ n → delay n = 60000) ∧
  (0 ≤ n ≤ k → delay n ≤ delay k).
Proof.
  assert (∀ a b, 0 ≤ a ≤ b → 2 ^ a ≤ 2 ^ b) as Hmono
    by (intros a b ?; apply Z.pow_le_mono_r; lia).
  assert (2 ^ 1 = 2 ∧ 2 ^ 5 = 32 ∧ 2 ^ 6 = 64) as (H1 & H5 & H6) by done.
  unfold delay. split_and!.
  - intros Hn. pose proof (Hmono 1 n). lia.
  - intros Hn. pose proof (Hmono n 5).
    rewrite Z.pow_add_r, H1 by lia. lia.
  - intros Hn. pose proof (Hmono (n + 1) 5). pose proof (Hmono n 5).
    rewrite Z.pow_add_r, H1 in * by lia. lia.
  - intros Hn. pose proof (Hmono 6 n). lia.
  - intros Hn. pose proof (Hmono n k). lia.
Qed.

Lemma delay_bounds_witness :
  1 ≤ 3 ∧ 2000 ≤ delay 3 ≤ 60000 ∧ delay 9 = 60000.
Proof.
  split; [lia|]. split.
  - apply (proj1 (delay_bounds 3 3)). lia.
  - apply (proj1 (proj2 (proj2 (proj2 (delay_bounds 9 9))))). lia.
Defined.

Lemma restart_one (cfg : config) (t : Turn) (hub hub1 : Terminal.state)
    (effects : list Terminal.Effect) :
  restart cfg t hub = Some (hub1, effects) →
  length (restarts (map Hub effects)) = 1%nat ∧
  sleeps (map Hub effects) = [] ∧
  is_Some (Terminal.getProc hub1).
Proof.
  unfold restart, Terminal.attachTerminal, Terminal.spawnTerminal.
  destruct (isAttachMode cfg && hasTmuxSession t);
    destruct (tmux t) as [bin|]; try done;
    destruct (Terminal.truthy (Some bin)); try done;
    intros [= <- <-]; done.
Qed.

(** However the turns go, a run of the loop that has already counted [n]
    restarts performs at most [10 - n] more, sleeps once before each and
    at most once more, and every sleep is a backoff delay. *)
Lemma watchdog_from_bounded (cfg : config) (turns : list Turn) :
  ∀ (n : Z) (hub : Terminal.state),
    0 ≤ n →
    Z.of_nat (length (restarts (watchdog_from cfg n turns hub).1.2))
      ≤ Z.max 0 (MAX_RESTARTS - n) ∧
    (length (restarts (watchdog_from cfg n turns hub).1.2)
       ≤ length (sleeps (watchdog_from cfg n turns hub).1.2))%nat ∧
    Forall (λ d, 2000 ≤ d ≤ 60000)
      (sleeps (watchdog_from cfg n turns hub).1.2).
Proof.
  induction turns as [|t turns IH]; intros n hub Hn.
  - cbn. split_and!; [lia|lia|constructor].
  - cbn [watchdog_from].
    destruct (shutdownAtLoop t); [cbn; split_and!; [lia|lia|constructor]|].
    destruct (Terminal.getProc hub) as [proc|];
      [|cbn; split_and!; [lia|lia|constructor]].
    destruct (shutdownAfterExit t); [cbn; split_and!; [lia|lia|constructor]|].
    destruct (Z.gtb_spec (n + 1) MAX_RESTARTS) as [Hover|Hin];
      [cbn; split_and!; [lia|lia|constructor]|].
    assert (2000 ≤ delay (n + 1) ≤ 60000) as Hd
      by (apply delay_in_range; lia).
    assert (∀ tail,
              sleeps ([AwaitExited (Terminal.proc_id proc);
                       LogRestarting (delay (n + 1)) (n + 1) MAX_RESTARTS;
                       Sleep (delay (n + 1))] ++ tail)
              = delay (n + 1) :: sleeps tail) as Hsl by reflexivity.
    assert (∀ tail,
              restarts ([AwaitExited (Terminal.proc_id proc);
                         LogRestarting (delay (n + 1)) (n + 1) MAX_RESTARTS;
                         Sleep (delay (n + 1))] ++ tail)
              = restarts tail) as Hre by reflexivity.
    destruct (shutdownAfterSleep t).
    { cbn [fst snd]. rewrite <- (app_nil_r [_; _; _]), Hsl, Hre.
      split_and!; [cbn; lia|cbn; lia|].
      apply Forall_cons. split; [done|apply Forall_nil_2]. }
    destruct (restart cfg t (Terminal.procExits hub)) as [[hub1 effects]|]
      eqn:Hrestart.
    2:{ cbn [fst snd]. rewrite <- (app_nil_r [_; _; _]), Hsl, Hre.
        split_and!; [cbn; lia|cbn; lia|].
        apply Forall_cons. split; [done|apply Forall_nil_2]. }
    destruct (restart_one _ _ _ _ _ Hrestart) as (Hone & Hnone & _).
    destruct (IH (n + 1) hub1) as (IHr & IHs & IHd); [lia|].
    destruct (watchdog_from cfg (n + 1) turns hub1) as [[hub2 actions] status].
    cbn [fst snd] in *.
    rewrite Hsl, Hre, !restarts_app, !sleeps_app, Hnone.
    change (restarts [LogRestarted]) with (@nil bool).
    change (sleeps [LogRestarted]) with (@nil Z).
    cbn [app length]. rewrite !length_app, Hone.
    split_and!; [lia|cbn [length]; lia|].
    apply Forall_cons. split; [done|exact IHd].
Qed.

(** A run of the loop that has counted [n] restarts and ends by giving up
    has performed exactly the [10 - n] restarts that were left. *)
Lemma watchdog_from_given_up (cfg : config) (turns : list Turn) :
  ∀ (n : Z) (hub : Terminal.state),
    0 ≤ n ≤ MAX_RESTARTS →
    (watchdog_from cfg n turns hub).2 = GivenUp →
    Z.of_nat (length (restarts (watchdog_from cfg n turns hub).1.2))
      = MAX_RESTARTS - n.
Proof.
  induction turns as [|t turns IH]; intros n hub Hn; [done|].
  cbn [watchdog_from].
  destruct (shutdownAtLoop t); [done|].
  destruct (Terminal.getProc hub) as [proc|]; [|done].
  destruct (shutdownAfterExit t); [done|].
  destruct (Z.gtb_spec (n + 1) MAX_RESTARTS) as [Hover|Hin];
    [intros _; cbn; lia|].
  destruct (shutdownAfterSleep t); [done|].
  destruct (restart cfg t (Terminal.procExits hub)) as [[hub1 effects]|]
    eqn:Hrestart; [|done].
  destruct (restart_one _ _ _ _ _ Hrestart) as (Hone & _ & _).
  specialize (IH (n + 1) hub1).
  destruct (watchdog_from cfg (n + 1) turns hub1) as [[hub2 actions] status].
  cbn [fst snd] in *. intros Hgave.
  assert (∀ tail,
            restarts ([AwaitExited (Terminal.proc_id proc);
                       LogRestarting (delay (n + 1)) (n + 1) MAX_RESTARTS;
                       Sleep (delay (n + 1))] ++ tail)
            = restarts tail) as Hre by reflexivity.
  rewrite Hre, !restarts_app.
  change (restarts [LogRestarted]) with (@nil bool).
  cbn [app]. rewrite length_app, Hone.
  specialize (IH ltac:(lia) Hgave). lia.
Qed.

(** X15 — The restart ceiling.  Whatever the process, the clock and the
    shutdown flag do, and however long the watchdog runs, it restarts the
    terminal at most ten times in all; every restart is made only after a
    sleep of its own has finished, the sleep before restart number [k]
    being [delay k]; every sleep lasts between two seconds and a minute;
    and it gives up only after it has restarted the terminal ten times. *)
Theorem watchdog_never_exceeds_the_ceiling (cfg : config)
    (turns : list Turn) (hub : Terminal.state) :
  (length (restarts (watchdog cfg turns hub).1.2) ≤ 10)%nat ∧
  (length (restarts (watchdog cfg turns hub).1.2)
     ≤ length (sleeps (watchdog cfg turns hub).1.2))%nat ∧
  waits (watchdog cfg turns hub).1.2 =
    Some (zip (schedule 0 (length (restarts (watchdog cfg turns hub).1.2)))
              (restarts (watchdog cfg turns hub).1.2)) ∧
  Forall (λ d, 2000 ≤ d ≤ 60000) (sleeps (watchdog cfg turns hub).1.2) ∧
  ((watchdog cfg turns hub).2 = GivenUp →
   length (restarts (watchdog cfg turns hub).1.2) = 10%nat).
Proof.
  destruct (watchdog_from_bounded cfg turns 0 hub) as (Hr & Hs & Hd); [lia|].
  pose proof (watchdog_from_given_up cfg turns 0 hub) as Hg.
  unfold watchdog, waits. split_and!; [|done| |done|].
  - unfold MAX_RESTARTS in Hr. lia.
  - apply watchdog_from_waits.
  - intros Hgave. unfold MAX_RESTARTS in Hg.
    specialize (Hg ltac:(lia) Hgave). lia.
Qed.

(** X16 — Shutdown wins.  In a turn in which the shutdown flag is seen at
    any of the three places the loop reads it, the watchdog restarts
    nothing, in that turn or after it, and does not report a thrown error;
    if the flag is already up when the loop comes round, it does nothing at
    all. *)
Theorem shutdown_stops_the_watchdog (cfg : config) (n : Z) (t : Turn)
    (later : list Turn) (hub : Terminal.state) :
  shutdownSeen t = true →
  restarts (watchdog_from cfg n (t :: later) hub).1.2 = [] ∧
  (watchdog_from cfg n (t :: later) hub).2 ≠ Watching ∧
  (watchdog_from cfg n (t :: later) hub).2 ≠ Threw ∧
  (shutdownAtLoop t = true →
   watchdog_from cfg n (t :: later) hub = (hub, [], ShutDown)).
Proof.
  unfold shutdownSeen. intros Hseen. cbn [watchdog_from].
  destruct (shutdownAtLoop t); [done|].
  destruct (Terminal.getProc hub) as [proc|]; [|done].
  destruct (shutdownAfterExit t); [done|].
  destruct (n + 1 >? MAX_RESTARTS); [done|].
  destruct (shutdownAfterSleep t); [done|]. done.
Qed.

Lemma shutdown_stops_the_watchdog_witness :
  shutdownSeen (mkTurn false false true (Some "/usr/bin/tmux") true
                  (Terminal.mkProc 2 false false)) = true ∧
  restarts
    (watchdog_from (mkConfig false "work" "/srv") 0
       [mkTurn false false true (Some "/usr/bin/tmux") true
          (Terminal.mkProc 2 false false);
        mkTurn false false false (Some "/usr/bin/tmux") true
          (Terminal.mkProc 3 false false)]
       (Terminal.install (Terminal.mkProc 1 false false) "work"
          Terminal.initial)).1.2 = [].
Proof.
  assert (shutdownSeen (mkTurn false false true (Some "/usr/bin/tmux") true
                          (Terminal.mkProc 2 false false)) = true) as Hseen
    by reflexivity.
  split; [exact Hseen|].
  exact (proj1 (shutdown_stops_the_watchdog (mkConfig false "work" "/srv") 0
                  _ _ _ Hseen)).
Defined.

End WatchdogFurther.

(* ===================================================================== *)
(** ** Properties of utils.ts and of the start-up code *)
(* ===================================================================== *)

Section UtilsProperties.
Import Js Utils Startup.

Lemma hexDigit_name (n : N) : (n < 16)%N → isNameUnit (hexDigit n) = true.
Proof.
  intros Hn. unfold hexDigit, isNameUnit.
  destruct (N.ltb_spec n 10).
  - replace ((48 <=? 48 + n) && (48 + n <=? 57))%N with true;
      [by rewrite !orb_true_r|].
    symmetry. apply andb_true_intro. split; apply N.leb_le; lia.
  - replace ((97 <=? 87 + n) && (87 + n <=? 122))%N with true; [done|].
    symmetry. apply andb_true_intro. split; apply N.leb_le; lia.
Qed.

Lemma hexDigit_inj (a b : N) :
  (a < 16)%N → (b < 16)%N → hexDigit a = hexDigit b → a = b.
Proof.
  unfold hexDigit. intros Ha Hb.
  destruct (N.ltb_spec a 10), (N.ltb_spec b 10); lia.
Qed.

Lemma byte_bound (b : byte) : (Byte.to_N b < 256)%N.
Proof. pose proof (Byte.to_N_bounded b). lia. Qed.

Lemma toHex_name (bytes : list byte) :
  Forall (λ u, isNameUnit u = true) (toHex bytes).
Proof.
  unfold toHex. induction bytes as [|b bytes IH]; [constructor|].
  pose proof (byte_bound b).
  cbn [flat_map app]. apply Forall_cons. split; [|apply Forall_cons; split];
    [| |exact IH]; apply hexDigit_name.
  - apply N.Div0.div_lt_upper_bound. lia.
  - apply N.mod_lt. lia.
Qed.

Lemma toHex_length (bytes : list byte) :
  length (toHex bytes) = (2 * length bytes)%nat.
Proof.
  unfold toHex. induction bytes as [|b bytes IH]; [done|].
  cbn [flat_map app length]. rewrite IH. lia.
Qed.

Lemma hex_pair_inj (a b : byte) :
  hexDigit (Byte.to_N a / 16) = hexDigit (Byte.to_N b / 16) →
  hexDigit (Byte.to_N a mod 16) = hexDigit (Byte.to_N b mod 16) →
  a = b.
Proof.
  intros Hhi Hlo. pose proof (byte_bound a). pose proof (byte_bound b).
  apply hexDigit_inj in Hhi;
    [|apply N.Div0.div_lt_upper_bound; lia..].
  apply hexDigit_inj in Hlo; [|apply N.mod_lt; lia..].
  assert (Byte.to_N a = Byte.to_N b) as Heq.
  { rewrite (N.div_mod (Byte.to_N a) 16), (N.div_mod (Byte.to_N b) 16) by lia.
    by rewrite Hhi, Hlo. }
  apply (f_equal Byte.of_N) in Heq. rewrite !Byte.of_to_N in Heq.
  by injection Heq.
Qed.

Lemma sanitize_name (s : JsString) :
  Forall (λ u, isNameUnit u = true) (sanitize s).
Proof.
  unfold sanitize. apply Forall_map, Forall_forall. intros u _. simpl.
  by destruct (isNameUnit u) eqn:Hu.
Qed.

Lemma sanitize_id (s : JsString) :
  Forall (λ u, isNameUnit u = true) s → sanitize s = s.
Proof.
  induction 1 as [|u s Hu _ IH]; [done|].
  unfold sanitize in *. cbn. by rewrite Hu, IH.
Qed.

Lemma toHex_hex (bytes : list byte) :
  Forall (λ u, isHexDigit u = true) (toHex bytes).
Proof.
  assert (∀ n, (n < 16)%N → isHexDigit (hexDigit n) = true) as Hhex.
  { intros n Hn. unfold hexDigit, isHexDigit.
    destruct (N.ltb_spec n 10).
    - replace ((48 <=? 48 + n) && (48 + n <=? 57))%N with true; [done|].
      symmetry. apply andb_true_intro. split; apply N.leb_le; lia.
    - replace ((97 <=? 87 + n) && (87 + n <=? 102))%N with true;
        [by rewrite orb_true_r|].
      symmetry. apply andb_true_intro. split; apply N.leb_le; lia. }
  unfold toHex. induction bytes as [|b bytes IH]; [constructor|].
  pose proof (byte_bound b).
  cbn [flat_map app]. apply Forall_cons. split; [|apply Forall_cons; split];
    [| |exact IH]; apply Hhex.
  - apply N.Div0.div_lt_upper_bound. lia.
  - apply N.mod_lt. lia.
Qed.

(** X17 — Session names.  Whatever the working directory is called, the
    name made for its tmux session consists only of letters, digits, "_"
    and "-".  Unit for unit it starts with the folder name, each letter,
    digit, "_" and "-" kept and every other code unit replaced by "-";
    then come "-", six hex digits made of the three random bytes, and
    "-remote".  So it is fourteen units longer than the folder name, a
    folder name that was already clean is kept as it is, and two names
    for the same directory are equal only if the random bytes were.
    (utils.test.ts expects the name to end with the six hex digits,
    [/-[a-f0-9]{6}$/]; the name the function returns never does.) *)
Theorem createTmuxSessionName_is_safe (basename : JsString → JsString)
    (random random' : byte * byte * byte) (cwd : JsString) :
  Forall (λ u, isNameUnit u = true)
    (createTmuxSessionName basename random cwd) ∧
  length (createTmuxSessionName basename random cwd) =
    (length (basename cwd) + 14)%nat ∧
  (∀ i u, basename cwd !! i = Some u →
          createTmuxSessionName basename random cwd !! i =
            Some (if isNameUnit u then u else 45%N)) ∧
  drop (length (basename cwd)) (createTmuxSessionName basename random cwd) =
    lit "-" ++ toHex [random.1.1; random.1.2; random.2] ++ lit "-remote" ∧
  (length (toHex [random.1.1; random.1.2; random.2]) = 6%nat ∧
   Forall (λ u, isHexDigit u = true)
     (toHex [random.1.1; random.1.2; random.2])) ∧
  (Forall (λ u, isNameUnit u = true) (basename cwd) →
   take (length (basename cwd)) (createTmuxSessionName basename random cwd) =
     basename cwd) ∧
  (∀ front hex,
     length hex = 6%nat → Forall (λ u, isHexDigit u = true) hex →
     createTmuxSessionName basename random cwd ≠ front ++ lit "-" ++ hex) ∧
  (createTmuxSessionName basename random cwd =
     createTmuxSessionName basename random' cwd → random = random').
Proof.
  assert (length (sanitize (basename cwd)) = length (basename cwd)) as Hlen
    by (unfold sanitize; by rewrite length_map).
  unfold createTmuxSessionName. split_and!.
  - rewrite !Forall_app. split_and!.
    + apply sanitize_name.
    + by repeat constructor.
    + apply toHex_name.
    + by repeat constructor.
  - rewrite !length_app, toHex_length, Hlen. cbn. lia.
  - intros i u Hu. unfold JsString in *. rewrite lookup_app_l.
    + unfold sanitize. by rewrite list_lookup_fmap, Hu.
    + rewrite Hlen. by eapply lookup_lt_Some.
  - by rewrite <- Hlen, drop_app_length.
  - done.
  - apply toHex_hex.
  - intros Hclean. rewrite <- Hlen, take_app_length. by apply sanitize_id.
  - intros front hex Hsix Hhex Heq.
    rewrite !app_assoc in Heq.
    change (lit "-remote") with ([45%N] ++ lit "remote") in Heq.
    rewrite !app_assoc in Heq.
    apply app_inj_2 in Heq as [_ Heq]; [|by rewrite Hsix].
    rewrite <- Heq in Hhex. apply Forall_inv in Hhex. done.
  - intros Heq. apply app_inv_head in Heq. apply app_inv_head in Heq.
    apply app_inv_tail in Heq.
    destruct random as [[a b] c], random' as [[a' b'] c'].
    cbn in Heq. injection Heq as H1 H2 H3 H4 H5 H6.
    by rewrite (hex_pair_inj a a' H1 H2), (hex_pair_inj b b' H3 H4),
      (hex_pair_inj c c' H5 H6).
Qed.

Lemma isDigit_not_space (u : N) : isDigit u = true → isWhiteSpace u = false.
Proof.
  unfold isDigit, isWhiteSpace. intros [H1 H2]%andb_prop.
  apply N.leb_le in H1, H2.
  repeat match goal with
         | |- context [(?a <=? ?b)%N] => destruct (N.leb_spec a b); try lia
         | |- context [(?a =? ?b)%N] => destruct (N.eqb_spec a b); try lia
         end.
Qed.

Lemma isDigit_unit (n : N) : (n < 10)%N → isDigit (48 + n) = true.
Proof.
  intros Hn. unfold isDigit. apply andb_true_intro.
  split; apply N.leb_le; lia.
Qed.

Lemma digitsValue_app (ds rest : JsString) (acc : Z) :
  Forall (λ u, isDigit u = true) ds →
  digitsValue acc (ds ++ rest) = digitsValue (digitsValue acc ds) rest.
Proof.
  intros Hds. revert acc. induction Hds as [|u ds Hu _ IH]; intros acc; [done|].
  cbn. rewrite Hu. apply IH.
Qed.

(** The digits of a natural number: all digits, at least one, and worth
    the number. *)
Lemma digitsOf_spec (fuel : nat) (n : N) :
  (N.to_nat n < fuel)%nat →
  Forall (λ u, isDigit u = true) (digitsOf fuel n) ∧
  digitsOf fuel n ≠ [] ∧
  ∀ acc, digitsValue 0 (digitsOf fuel n) = Z.of_N n ∧
         digitsValue acc (digitsOf fuel n) =
           acc * 10 ^ Z.of_nat (length (digitsOf fuel n)) + Z.of_N n.
Proof.
  revert n. induction fuel as [|fuel IH]; intros n Hfuel; [lia|].
  cbn [digitsOf]. destruct (N.ltb_spec n 10) as [Hsmall|Hbig].
  - pose proof (isDigit_unit n Hsmall) as Hd.
    split_and!; [by repeat constructor|done|].
    intros acc. cbn. rewrite Hd.
    replace (48 + n - 48)%N with n by lia. split; lia.
  - assert (n / 10 < n)%N as Hlt by (apply N.div_lt; lia).
    destruct (IH (n / 10)%N) as (Hall & Hne & Hval); [lia|].
    assert (n mod 10 < 10)%N as Hmod by (apply N.mod_lt; lia).
    pose proof (isDigit_unit _ Hmod) as Hd.
    split_and!.
    + apply Forall_app. split; [done|by repeat constructor].
    + by destruct (digitsOf fuel (n / 10)).
    + assert (∀ acc, digitsValue acc (digitsOf fuel (n / 10) ++ [(48 + n mod 10)%N])
                     = acc * 10 ^ Z.of_nat (length (digitsOf fuel (n / 10)
                                                      ++ [(48 + n mod 10)%N]))
                       + Z.of_N n) as Hgen.
      { intros acc. rewrite digitsValue_app by done.
        destruct (Hval acc) as [_ ->]. cbn [digitsValue]. rewrite Hd.
        assert (∀ x, (48 + x - 48)%N = x) as -> by (intros; lia).
        rewrite length_app. cbn [length].
        rewrite Nat2Z.inj_add, Z.pow_add_r by lia.
        change (10 ^ Z.of_nat 1) with 10.
        pose proof (N.div_mod n 10 ltac:(lia)) as Hdm.
        assert (Z.of_N n = 10 * Z.of_N (n / 10) + Z.of_N (n mod 10)) as ->
          by lia.
        lia. }
      intros acc. split; [|apply Hgen].
      rewrite Hgen. lia.
Qed.

Lemma trimStart_keep (u : N) (rest : JsString) :
  isWhiteSpace u = false → trimStart (u :: rest) = u :: rest.
Proof. intros Hu. cbn. by rewrite Hu. Qed.

Lemma trim_keep (s : JsString) (u v : N) (mid tail : JsString) :
  s = u :: mid → rev s = v :: tail →
  isWhiteSpace u = false → isWhiteSpace v = false →
  trim s = s.
Proof.
  intros Hs Hr Hu Hv. unfold trim, trimEnd.
  rewrite Hs, trimStart_keep by done. rewrite <- Hs, Hr.
  rewrite trimStart_keep by done. by rewrite <- Hr, rev_involutive.
Qed.

Lemma sign_none (d : N) (rest : JsString) :
  d ≠ 45%N → d ≠ 43%N →
  match d :: rest with
  | 45%N :: rest' => (-1, rest')
  | 43%N :: rest' => (1, rest')
  | _ => (1, d :: rest)
  end = (1, d :: rest).
Proof.
  intros H45 H43. destruct d as [|p]; [done|].
  repeat (destruct p as [p|p|]; try done).
Qed.

Lemma mathInt_digits (d : N) (rest : JsString) :
  isDigit d = true → mathInt (d :: rest) = Some (digitsValue 0 (d :: rest)).
Proof.
  intros Hd. unfold mathInt.
  rewrite trimStart_keep by (by apply isDigit_not_space).
  rewrite sign_none.
  - by rewrite Hd, Z.mul_1_l.
  - intros ->. done.
  - intros ->. done.
Qed.

Lemma mathInt_minus (d : N) (rest : JsString) :
  isDigit d = true →
  mathInt (45%N :: d :: rest) = Some (- digitsValue 0 (d :: rest)).
Proof.
  intros Hd. unfold mathInt. rewrite trimStart_keep by done.
  cbv beta iota. rewrite Hd. f_equal; lia.
Qed.

(** The decimal numeral of an integer reads back as that integer, also
    when something that is not a digit follows, and has no white space
    around it. *)
Lemma decimal_reads_back (z : Z) :
  mathInt (decimal z) = Some z ∧ trim (decimal z) = decimal z ∧
  ∀ junk, match junk with
          | u :: _ => isDigit u = false
          | [] => True
          end →
          mathInt (decimal z ++ junk) = Some z.
Proof.
  destruct (digitsOf_spec (S (N.to_nat (Z.abs_N z))) (Z.abs_N z))
    as (Hall & Hne & Hval); [lia|].
  destruct (Hval 0) as [Hv _].
  destruct (digitsOf (S (N.to_nat (Z.abs_N z))) (Z.abs_N z))
    as [|d ds] eqn:Hds; [done|].
  pose proof (Forall_inv Hall) as Hd. cbn beta in Hd.
  pose proof (isDigit_not_space d Hd) as Hdw.
  assert (∀ junk, match junk with
                  | u :: _ => isDigit u = false
                  | [] => True
                  end →
                  digitsValue 0 (d :: ds ++ junk) = Z.of_N (Z.abs_N z))
    as Hjunk.
  { intros junk Hj. rewrite app_comm_cons, digitsValue_app by done.
    rewrite Hv. destruct junk as [|u junk]; [done|]. cbn. by rewrite Hj. }
  assert (∀ junk, match junk with
                  | u :: _ => isDigit u = false
                  | [] => True
                  end →
                  mathInt (decimal z ++ junk) = Some z) as Hparse.
  { intros junk Hj. specialize (Hjunk junk Hj).
    unfold decimal. rewrite Hds.
    destruct (Z.ltb_spec z 0) as [Hneg|Hpos]; cbn [app].
    - rewrite mathInt_minus, Hjunk by done. f_equal. lia.
    - rewrite mathInt_digits, Hjunk by done. f_equal. lia. }
  split_and!.
  - rewrite <- (app_nil_r (decimal z)). by apply Hparse.
  - unfold decimal. rewrite Hds.
    assert (∃ v tail, rev (d :: ds) = v :: tail ∧ isWhiteSpace v = false)
      as (v & tail & Hrev & Hvw).
    { destruct (rev (d :: ds)) as [|v tail] eqn:Hrev.
      - apply (f_equal (@length N)) in Hrev.
        rewrite length_rev in Hrev. done.
      - exists v, tail. split; [done|]. apply isDigit_not_space.
        assert (In v (d :: ds)) as Hin.
        { apply in_rev. rewrite Hrev. by left. }
        by apply (proj1 (List.Forall_forall _ _) Hall). }
    destruct (z <? 0); cbn [app].
    + eapply (trim_keep _ 45%N v (d :: ds) (tail ++ [45%N])); try done.
      cbn [rev] in *. by rewrite Hrev.
    + by eapply (trim_keep _ d v ds tail).
  - exact Hparse.
Qed.

(** What [parseInt] makes of the integer read. *)
Lemma parseInt_of_mathInt (s : JsString) (z : Z) :
  mathInt s = Some z →
  parseInt s =
    if (- 9007199254740992 <? z) && (z <? 9007199254740992)
    then Exactly z else Beyond (z <? 0).
Proof.
  intros Hs. unfold parseInt. rewrite Hs.
  change (2 ^ 53) with 9007199254740992.
  destruct (Z.ltb_spec (Z.abs z) 9007199254740992),
    (Z.ltb_spec (- 9007199254740992) z),
    (Z.ltb_spec z 9007199254740992); try done; lia.
Qed.

Lemma pidPath_inj (logDir name name' : JsString) :
  pidPath logDir name = pidPath logDir name' → name = name'.
Proof.
  unfold pidPath. intros Heq.
  apply app_inv_head in Heq. apply app_inv_head in Heq.
  by apply app_inv_tail in Heq.
Qed.

(** X18 — The pid marker.  For marker names without "/" and a pid that
    is a safe integer (below 2^53 in magnitude, as every process id is): a
    pid written with [writePid] is read back by [readPid] as the same
    number; reading a marker that does not exist, or one that [removePid]
    has removed, gives null; and writing or removing one marker leaves
    every other marker as it reads. *)
Theorem pid_marker_round_trip (logDir name other : JsString) (pid : Z)
    (fs : gmap JsString JsString) :
  47%N ∉ name →
  safeInteger pid →
  readPid logDir name (writePid logDir name pid fs) = Some (Exactly pid) ∧
  readPid logDir name (removePid logDir name fs) = None ∧
  (fs !! pidPath logDir name = None → readPid logDir name fs = None) ∧
  (47%N ∉ other → other ≠ name →
   readPid logDir other (writePid logDir name pid fs) =
     readPid logDir other fs ∧
   readPid logDir other (removePid logDir name fs) =
     readPid logDir other fs).
Proof.
  intros _ Hsafe.
  destruct (decimal_reads_back pid) as (Hparse & Htrim & _).
  unfold readPid, writePid, removePid, String_of. split_and!.
  - rewrite lookup_insert_eq, Htrim, (parseInt_of_mathInt _ pid Hparse).
    unfold safeInteger in Hsafe.
    change (2 ^ 53) with 9007199254740992 in Hsafe.
    destruct (Z.ltb_spec (- 9007199254740992) pid),
      (Z.ltb_spec pid 9007199254740992); try lia. done.
  - by rewrite lookup_delete_eq.
  - by intros ->.
  - intros _ Hne.
    assert (pidPath logDir name ≠ pidPath logDir other) as Hpath.
    { intros Heq. apply pidPath_inj in Heq. congruence. }
    by rewrite lookup_insert_ne, lookup_delete_ne.
Qed.

Lemma pid_marker_round_trip_witness :
  (47%N ∉ lit "wrapper-2222") ∧ (47%N ∉ lit "wrapper-2223") ∧
  safeInteger 4242 ∧ safeInteger 77 ∧
  (lit "wrapper-2223" ≠ lit "wrapper-2222") ∧
  readPid (lit "/tmp/logs") (lit "wrapper-2223")
    (writePid (lit "/tmp/logs") (lit "wrapper-2222") 4242
       (writePid (lit "/tmp/logs") (lit "wrapper-2223") 77 ∅))
    = Some (Exactly 77).
Proof.
  assert (∀ name, bool_decide (47%N ∈ lit name) = false → 47%N ∉ lit name)
    as Hfree by (intros name Hd; by apply bool_decide_eq_false in Hd).
  assert (47%N ∉ lit "wrapper-2222") as H2 by (by apply Hfree; vm_compute).
  assert (47%N ∉ lit "wrapper-2223") as H3 by (by apply Hfree; vm_compute).
  assert (safeInteger 4242) as Hs2 by (unfold safeInteger; lia).
  assert (safeInteger 77) as Hs3 by (unfold safeInteger; lia).
  assert (lit "wrapper-2223" ≠ lit "wrapper-2222") as Hne
    by (vm_compute; discriminate).
  split; [exact H2|]. split; [exact H3|]. split; [exact Hs2|].
  split; [exact Hs3|]. split; [exact Hne|].
  destruct (pid_marker_round_trip (lit "/tmp/logs") (lit "wrapper-2222")
              (lit "wrapper-2223") 4242
              (writePid (lit "/tmp/logs") (lit "wrapper-2223") 77 ∅) H2 Hs2)
    as (_ & _ & _ & Hother).
  rewrite (proj1 (Hother H3 Hne)).
  exact (proj1 (pid_marker_round_trip (lit "/tmp/logs") (lit "wrapper-2223")
                  [] 77 ∅ H3 Hs3)).
Defined.

Lemma argIndex_first (flag : JsString) (before rest : list JsString) :
  flag ∉ before → argIndex flag (before ++ flag :: rest) = Some (length before).
Proof.
  induction before as [|a before IH]; intros Hnin.
  - cbn. by rewrite bool_decide_eq_true_2.
  - apply not_elem_of_cons in Hnin as [Hne Hnin]. cbn.
    rewrite bool_decide_eq_false_2 by congruence. by rewrite IH.
Qed.

Lemma argIndex_none (flag : JsString) (args : list JsString) :
  flag ∉ args → argIndex flag args = None.
Proof.
  induction args as [|a args IH]; intros Hnin; [done|].
  apply not_elem_of_cons in Hnin as [Hne Hnin]. cbn.
  rewrite bool_decide_eq_false_2 by congruence. by rewrite IH.
Qed.

Lemma decimal_nonempty (z : Z) : decimal z ≠ [].
Proof.
  intros Hnil. destruct (decimal_reads_back z) as [Hparse _].
  by rewrite Hnil in Hparse.
Qed.

(** X19 — The port.  A port that passes the check is a whole number
    between 1 and 65535.  Without "--port", with "--port" as the last
    argument, or with an empty argument after it, the port is 2222.
    Otherwise the argument after the first "--port" decides: if it starts
    with the decimal digits of [n], whatever follows them, the port is [n]
    when [n] is in range and the start-up is refused when it is not. *)
Theorem port_is_validated (args before after : list JsString) (n : Z)
    (junk : JsString) :
  (∀ p, port args = inr p → 1 ≤ p ≤ 65535) ∧
  (lit "--port" ∉ args → port args = inr 2222) ∧
  (lit "--port" ∉ before →
   port (before ++ [lit "--port"]) = inr 2222 ∧
   port (before ++ lit "--port" :: [] :: after) = inr 2222 ∧
   (match junk with
    | u :: _ => isDigit u = false
    | [] => True
    end →
    port (before ++ lit "--port" :: (decimal n ++ junk) :: after) =
      if (1 <=? n) && (n <=? 65535) then inr n else inl tt)).
Proof.
  split_and!.
  - intros p. unfold port.
    destruct (rawPort args) as [|q|negative]; cbn [isNaN lessThan greaterThan];
      [done| |by destruct negative].
    destruct (Z.ltb_spec q 1); [done|].
    destruct (Z.gtb_spec q 65535); [done|].
    cbn. intros [= <-]. lia.
  - intros Hnin. unfold port, rawPort. by rewrite argIndex_none.
  - intros Hnin. split_and!.
    + unfold port, rawPort. rewrite argIndex_first by done.
      rewrite lookup_ge_None_2; [done|].
      rewrite length_app. cbn. lia.
    + unfold port, rawPort. rewrite argIndex_first by done.
      rewrite (lookup_app_r before) by lia.
      by replace (S (length before) - length before)%nat with 1%nat by lia.
    + intros Hjunk. unfold port, rawPort. rewrite argIndex_first by done.
      rewrite (lookup_app_r before) by lia.
      replace (S (length before) - length before)%nat with 1%nat by lia.
      cbn [lookup list_lookup].
      rewrite bool_decide_eq_false_2.
      2:{ intros Hnil. apply app_eq_nil in Hnil as [Hnil _].
          by apply decimal_nonempty in Hnil. }
      destruct (decimal_reads_back n) as (_ & _ & Hparse).
      rewrite (parseInt_of_mathInt _ n (Hparse junk Hjunk)).
      destruct (Z.ltb_spec (- 9007199254740992) n),
        (Z.ltb_spec n 9007199254740992);
        cbn [andb isNaN lessThan greaterThan orb];
        destruct (Z.ltb_spec n 1), (Z.gtb_spec n 65535),
          (Z.leb_spec 1 n), (Z.leb_spec n 65535), (Z.ltb_spec n 0);
        try lia; done.
Qed.

Lemma port_is_validated_witness :
  (lit "--port" ∉ [lit "--local"]) ∧
  isDigit 120 = false ∧
  port [lit "--local"; lit "--port"; decimal 8022 ++ lit "x"; lit "--no-qr"]
    = inr 8022.
Proof.
  assert (lit "--port" ∉ [lit "--local"]) as Hnin.
  { intros Hin. apply list_elem_of_singleton in Hin.
    vm_compute in Hin. discriminate Hin. }
  assert (isDigit 120 = false) as Hx by reflexivity.
  split; [exact Hnin|]. split; [exact Hx|].
  destruct (port_is_validated [] [lit "--local"] [lit "--no-qr"] 8022
              (lit "x")) as (_ & _ & Hflag).
  destruct (Hflag Hnin) as (_ & _ & Hparse).
  exact (Hparse Hx).
Defined.

Lemma setDefault_keeps (inherited : JsString → bool) (key value k : JsString)
    (u : N) (rest : JsString) (env : gmap JsString JsString) :
  env !! k = Some (u :: rest) →
  setDefault inherited key value env !! k = Some (u :: rest).
Proof.
  intros Hk. unfold setDefault, unset.
  destruct (decide (key = k)) as [->|Hne].
  - by rewrite Hk.
  - destruct (env !! key) as [[|? ?]|]; [|done|destruct (inherited key)];
      cbn [negb]; try done;
      (case_bool_decide; [done|by rewrite lookup_insert_ne]).
Qed.

Lemma setDefault_present (inherited : JsString → bool)
    (key value k : JsString) (env : gmap JsString JsString) :
  is_Some (env !! k) → is_Some (setDefault inherited key value env !! k).
Proof.
  intros Hk. unfold setDefault.
  destruct (unset inherited key env); [|done].
  case_bool_decide; [done|].
  destruct (decide (key = k)) as [->|Hne];
    [by rewrite lookup_insert_eq|by rewrite lookup_insert_ne].
Qed.

(** X20 — The env file never takes a value away.  Whatever
    .superintent/.env contains, and also when it cannot be read, a
    variable that already has a non-empty value keeps exactly that value,
    and every variable that was set is still set afterwards. *)
Theorem loadEnvFile_never_overrides (inherited : JsString → bool)
    (file : option JsString) (k : JsString)
    (u : N) (rest : JsString) (env : gmap JsString JsString) :
  (env !! k = Some (u :: rest) →
   loadEnvFile inherited file env !! k = Some (u :: rest)) ∧
  (is_Some (env !! k) → is_Some (loadEnvFile inherited file env !! k)) ∧
  loadEnvFile inherited None env = env.
Proof.
  assert (∀ lines (e : gmap JsString JsString),
            (e !! k = Some (u :: rest) →
             fold_left
               (λ env line,
                  match parseLine line with
                  | Some (key, value) => setDefault inherited key value env
                  | None => env
                  end) lines e !! k = Some (u :: rest)) ∧
            (is_Some (e !! k) →
             is_Some (fold_left
               (λ env line,
                  match parseLine line with
                  | Some (key, value) => setDefault inherited key value env
                  | None => env
                  end) lines e !! k))) as Hfold.
  { induction lines as [|line lines IH]; intros e; [done|].
    cbn [fold_left]. destruct (parseLine line) as [[key value]|];
      [|apply IH].
    split; intros Hk; apply IH.
    - by apply setDefault_keeps.
    - by apply setDefault_present. }
  destruct file as [content|]; [|done].
  unfold loadEnvFile, loadEnvText.
  destruct (Hfold (split 10 content) env) as [H1 H2]. done.
Qed.

Lemma loadEnvFile_never_overrides_witness :
  ({[ lit "SUPERINTENT_REMOTE_PASSWORD" := lit "s3cret" ]}
     : gmap JsString JsString) !! lit "SUPERINTENT_REMOTE_PASSWORD"
    = Some (lit "s3cret") ∧
  loadEnvFile inObjectPrototype
    (Some (lit "SUPERINTENT_REMOTE_PASSWORD=other"))
    {[ lit "SUPERINTENT_REMOTE_PASSWORD" := lit "s3cret" ]}
    !! lit "SUPERINTENT_REMOTE_PASSWORD" = Some (lit "s3cret").
Proof.
  assert (({[ lit "SUPERINTENT_REMOTE_PASSWORD" := lit "s3cret" ]}
             : gmap JsString JsString) !! lit "SUPERINTENT_REMOTE_PASSWORD"
          = Some (lit "s3cret")) as Hset by apply lookup_singleton_eq.
  split; [exact Hset|].
  exact (proj1 (loadEnvFile_never_overrides inObjectPrototype
                  (Some (lit "SUPERINTENT_REMOTE_PASSWORD=other"))
                  (lit "SUPERINTENT_REMOTE_PASSWORD") 115 (lit "3cret") _)
           Hset).
Defined.

Lemma trimStart_length (s : JsString) :
  (length (trimStart s) ≤ length s)%nat.
Proof.
  induction s as [|u s IH]; [done|]. cbn [trimStart].
  destruct (isWhiteSpace u); cbn [length]; lia.
Qed.

Lemma trimStart_fixed (s : JsString) :
  length (trimStart s) = length s → s ≠ [] →
  ∃ u rest, s = u :: rest ∧ isWhiteSpace u = false.
Proof.
  destruct s as [|u rest]; [done|]. intros Hlen _.
  exists u, rest. split; [done|].
  destruct (isWhiteSpace u) eqn:Hu; [|done].
  cbn [trimStart] in Hlen. rewrite Hu in Hlen.
  pose proof (trimStart_length rest). cbn [length] in Hlen. lia.
Qed.

(** A string that [trim] leaves alone starts and ends with something
    that is not white space. *)
Lemma trim_fixed (s : JsString) :
  trim s = s → s ≠ [] →
  (∃ u rest, s = u :: rest ∧ isWhiteSpace u = false) ∧
  (∃ v tail, rev s = v :: tail ∧ isWhiteSpace v = false).
Proof.
  intros Htrim Hne.
  assert (length (trim s) = length s) as Hlen by (by rewrite Htrim).
  unfold trim, trimEnd in Hlen. rewrite length_rev in Hlen.
  pose proof (trimStart_length s) as H1.
  pose proof (trimStart_length (rev (trimStart s))) as H2.
  rewrite length_rev in H2.
  destruct (trimStart_fixed s) as (u & rest & Hs & Hu); [lia|done|].
  split; [by exists u, rest|].
  assert (trimStart s = s) as Hstart
    by (rewrite Hs; by apply trimStart_keep).
  rewrite Hstart in Hlen.
  apply trimStart_fixed.
  - by rewrite Hlen, length_rev.
  - intros Hnil. apply (f_equal (@length N)) in Hnil.
    rewrite length_rev, Hs in Hnil. done.
Qed.

Lemma indexOf_first (u : N) (before after : JsString) :
  u ∉ before → indexOf u (before ++ u :: after) = Some (length before).
Proof.
  induction before as [|v before IH]; intros Hnin.
  - cbn. by rewrite N.eqb_refl.
  - apply not_elem_of_cons in Hnin as [Hne Hnin]. cbn.
    destruct (N.eqb_spec v u); [congruence|]. by rewrite IH.
Qed.

Lemma split_whole (sep : N) (s : JsString) : sep ∉ s → split sep s = [s].
Proof.
  induction s as [|u s IH]; intros Hnin; [done|].
  apply not_elem_of_cons in Hnin as [Hne Hnin]. cbn.
  destruct (N.eqb_spec u sep); [congruence|]. by rewrite IH.
Qed.

Lemma not_comment (u : N) (rest : JsString)
    (result : option (JsString * JsString)) :
  u ≠ 35%N →
  match u :: rest with
  | [] => None
  | 35%N :: _ => None
  | _ => result
  end = result.
Proof.
  intros H35. destruct u as [|p]; [done|].
  repeat (destruct p as [p|p|]; try done).
Qed.

Lemma trimStart_pad (pad s : JsString) :
  Forall (λ u, isWhiteSpace u = true) pad →
  trimStart (pad ++ s) = trimStart s.
Proof.
  induction 1 as [|u pad Hu _ IH]; [done|]. cbn. by rewrite Hu.
Qed.

Lemma trimStart_snoc (s : JsString) (u : N) :
  isWhiteSpace u = false → trimStart (s ++ [u]) = trimStart s ++ [u].
Proof.
  intros Hu. induction s as [|v s IH]; cbn.
  - by rewrite Hu.
  - destruct (isWhiteSpace v); [exact IH|done].
Qed.

(** X21 — One line of the env file.  A line "KEY=VALUE" whose key is not
    empty, has no white space around it, no "=" in it and does not start
    with "#", and whose value has no white space and no quote at its
    ends, asks for exactly KEY to be set to VALUE.  A file made of that
    one line sets KEY to VALUE when KEY is set to the empty string, or is
    not set and is not a name [process.env] inherits; it changes nothing
    when KEY has a value, and also when KEY is not set but is an inherited
    name such as "toString".  A line whose first unit after any white
    space is "#" asks for nothing. *)
Theorem env_line_sets_key (inherited : JsString → bool)
    (key value pad rest : JsString) (env : gmap JsString JsString) :
  key ≠ [] → trim key = key → 61%N ∉ key → head key ≠ Some 35%N →
  trim value = value → stripQuotes value = value →
  10%N ∉ key → 10%N ∉ value →
  parseLine (key ++ 61%N :: value) = Some (key, value) ∧
  loadEnvText inherited (key ++ 61%N :: value) env =
    setDefault inherited key value env ∧
  (unset inherited key env = true ↔
   env !! key = Some [] ∨ (env !! key = None ∧ inherited key = false)) ∧
  (unset inherited key env = true →
   loadEnvText inherited (key ++ 61%N :: value) env = <[key := value]> env) ∧
  (unset inherited key env = false →
   loadEnvText inherited (key ++ 61%N :: value) env = env) ∧
  (Forall (λ u, isWhiteSpace u = true) pad →
   parseLine (pad ++ 35%N :: rest) = None).
Proof.
  intros Hkey Htk Heq Hhash Htv Hq Hnlk Hnlv.
  destruct (trim_fixed key Htk Hkey) as [(u & krest & Hk & Hu) _].
  assert (∃ v tail, rev (key ++ 61%N :: value) = v :: tail ∧
                    isWhiteSpace v = false) as (v & tail & Hrev & Hv).
  { rewrite rev_app_distr. cbn [rev].
    destruct value as [|w value'].
    - cbn. eexists _, _. split; [done|]. done.
    - destruct (trim_fixed (w :: value') Htv) as [_ (v & tail & Hr & Hv)];
        [done|].
      rewrite Hr. cbn [app].
      eexists _, _. split; [done|]. done. }
  assert (trim (key ++ 61%N :: value) = key ++ 61%N :: value) as Hline.
  { eapply (trim_keep _ u v (krest ++ 61%N :: value) tail); try done.
    by rewrite Hk. }
  assert (parseLine (key ++ 61%N :: value) = Some (key, value)) as Hparse.
  { unfold parseLine. rewrite Hline.
    rewrite Hk at 1. cbn [app].
    rewrite (not_comment u (krest ++ 61%N :: value)).
    2:{ intros ->. apply Hhash. by rewrite Hk. }
    rewrite indexOf_first by done.
    rewrite take_app_length. rewrite Htk.
    replace (S (length key)) with (length (key ++ [61%N]))
      by (rewrite length_app; cbn; lia).
    rewrite (cons_middle 61%N key value), app_assoc, drop_app_length.
    by rewrite Htv, Hq. }
  assert (loadEnvText inherited (key ++ 61%N :: value) env =
          setDefault inherited key value env) as Hload.
  { unfold loadEnvText. rewrite split_whole.
    - cbn [fold_left]. by rewrite Hparse.
    - intros Hin. apply elem_of_app in Hin as [Hin|Hin]; [done|].
      apply elem_of_cons in Hin as [Hin|Hin]; done. }
  split_and!.
  - exact Hparse.
  - exact Hload.
  - unfold unset.
    destruct (env !! key) as [[|w ws]|] eqn:Henv.
    + split; [by left|done].
    + split; [done|]. intros [H|[H _]]; discriminate H.
    + destruct (inherited key); split; try done.
      * intros [H|[_ H]]; discriminate H.
      * by right.
  - intros Hunset. rewrite Hload. unfold setDefault. rewrite Hunset.
    by rewrite bool_decide_eq_false_2.
  - intros Hset. rewrite Hload. unfold setDefault. by rewrite Hset.
  - intros Hpad. unfold parseLine, trim, trimEnd.
    rewrite trimStart_pad by done.
    rewrite trimStart_keep by done.
    cbn [rev]. rewrite trimStart_snoc by done.
    rewrite rev_app_distr. cbn [rev app]. done.
Qed.

Lemma env_line_sets_key_witness :
  lit "PORT" ≠ [] ∧ trim (lit "PORT") = lit "PORT" ∧
  trim (lit "3000") = lit "3000" ∧
  unset inObjectPrototype (lit "PORT") ∅ = true ∧
  loadEnvText inObjectPrototype (lit "PORT=3000") ∅ =
    {[ lit "PORT" := lit "3000" ]} ∧
  unset inObjectPrototype (lit "toString") ∅ = false ∧
  loadEnvText inObjectPrototype (lit "toString=1") ∅ = ∅.
Proof.
  assert (∀ (u : N) (s : string),
            bool_decide (u ∈ lit s) = false → u ∉ lit s) as Hfree
    by (intros u s Hd; by apply bool_decide_eq_false in Hd).
  assert (lit "PORT" ≠ []) as H1 by done.
  assert (trim (lit "PORT") = lit "PORT") as H2 by reflexivity.
  assert (61%N ∉ lit "PORT") as H3 by (by apply Hfree; vm_compute).
  assert (head (lit "PORT") ≠ Some 35%N) as H4 by discriminate.
  assert (trim (lit "3000") = lit "3000") as H5 by reflexivity.
  assert (stripQuotes (lit "3000") = lit "3000") as H6 by reflexivity.
  assert (10%N ∉ lit "PORT") as H7 by (by apply Hfree; vm_compute).
  assert (10%N ∉ lit "3000") as H8 by (by apply Hfree; vm_compute).
  assert (unset inObjectPrototype (lit "PORT") ∅ = true) as H9
    by (vm_compute; reflexivity).
  assert (lit "toString" ≠ []) as T1 by done.
  assert (trim (lit "toString") = lit "toString") as T2 by reflexivity.
  assert (61%N ∉ lit "toString") as T3 by (by apply Hfree; vm_compute).
  assert (head (lit "toString") ≠ Some 35%N) as T4 by discriminate.
  assert (trim (lit "1") = lit "1") as T5 by reflexivity.
  assert (stripQuotes (lit "1") = lit "1") as T6 by reflexivity.
  assert (10%N ∉ lit "toString") as T7 by (by apply Hfree; vm_compute).
  assert (10%N ∉ lit "1") as T8 by (by apply Hfree; vm_compute).
  assert (unset inObjectPrototype (lit "toString") ∅ = false) as T9
    by (vm_compute; reflexivity).
  split; [exact H1|]. split; [exact H2|]. split; [exact H5|].
  split; [exact H9|]. split.
  - destruct (env_line_sets_key inObjectPrototype (lit "PORT") (lit "3000")
                [] [] ∅ H1 H2 H3 H4 H5 H6 H7 H8) as (_ & _ & _ & Hset & _).
    exact (Hset H9).
  - split; [exact T9|].
    destruct (env_line_sets_key inObjectPrototype (lit "toString") (lit "1")
                [] [] ∅ T1 T2 T3 T4 T5 T6 T7 T8) as (_ & _ & _ & _ & Hskip & _).
    exact (Hskip T9).
Defined.

(** X22 — The password.  Authentication is off exactly when [noAuth] is
    given.  Otherwise a non-empty password from the environment is used
    as it is, and a missing or empty one is replaced by the hex of the
    random bytes: sixteen units for eight bytes, digits and "a" to "f"
    only.  So with authentication on the password is never the empty
    string. *)
Theorem password_is_never_empty (noAuth : bool) (envPassword : option JsString)
    (random : list byte) :
  (choosePassword noAuth envPassword random = None ↔ noAuth = true) ∧
  (∀ pw, choosePassword noAuth envPassword random = Some pw →
         random ≠ [] → pw ≠ []) ∧
  (∀ u rest, noAuth = false → envPassword = Some (u :: rest) →
             choosePassword noAuth envPassword random = Some (u :: rest)) ∧
  (noAuth = false → envPassword = None ∨ envPassword = Some [] →
   choosePassword noAuth envPassword random = Some (generatePassword random)) ∧
  length (generatePassword random) = (2 * length random)%nat ∧
  Forall (λ u, isDigit u = true ∨ (97 ≤ u ≤ 102)%N) (generatePassword random).
Proof.
  unfold choosePassword, generatePassword. split_and!.
  - destruct noAuth; [done|]. by destruct envPassword as [[|? ?]|].
  - intros pw Hpw Hrandom. destruct noAuth; [done|].
    destruct envPassword as [[|? ?]|]; injection Hpw as <-; try done;
      destruct random; done.
  - by intros u rest -> ->.
  - by intros -> [->| ->].
  - apply toHex_length.
  - unfold toHex. induction random as [|b random IH]; [constructor|].
    pose proof (byte_bound b).
    assert (∀ n, (n < 16)%N →
                 isDigit (hexDigit n) = true ∨ (97 ≤ hexDigit n ≤ 102)%N)
      as Hhex.
    { intros n Hn. unfold hexDigit, isDigit.
      destruct (N.ltb_spec n 10); [left|right; lia].
      apply andb_true_intro. split; apply N.leb_le; lia. }
    cbn [flat_map app].
    apply Forall_cons. split; [|apply Forall_cons; split; [|exact IH]];
      apply Hhex.
    + apply N.Div0.div_lt_upper_bound. lia.
    + apply N.mod_lt. lia.
Qed.

End UtilsProperties.
